(** * The archive viewer's reference rewriting (src/viewer/view.js)

    A shallow embedding of the viewer: the path codec, the URL resolver,
    the fetch entry points, the document rewriter and the stylesheet
    rewriter with its placeholder table, followed by the properties the
    specification states about them.

    Representation.

    - A JavaScript string is represented by the bytes of its UTF-8 form
      ([string]); strings with a lone surrogate, on which
      [encodeURIComponent] raises, have no such form.
    - [viewer.inZipFiles], [viewer.blobUrlToInZipPath] and
      [viewer.rewrittenBlobUrl] are a [gmap], a [gmap] and a [gset] in the
      viewer's state.  Arrays that are shared by reference (the recursion
      chains) live in a heap of arrays and are named by their index;
      [push] writes to the heap.
    - The browser and the shared library ([scrapbook]) are an environment
      [Env]: the URL parser, the tokenizers, the source of identifiers.
      Object URLs are numbered in the order [URL.createObjectURL] issues
      them.
    - An [async] function is a computation on the viewer's state.  A task
      is run to its end where the source spawns it: every task writes to
      its own element only, the tables only grow and chains are copied
      before they are extended, so the outcome is that of any schedule up
      to the numbering of object URLs.
    - [fetchPage] and [processCssFile] call each other through the
      documents and style sheets they rewrite; they are unfolded up to a
      recursion bound, and a run that would go deeper has no result. *)

From Stdlib Require Import Ascii String.
From stdpp Require Import base option list strings gmap pretty relations.

(** ** JavaScript string primitives *)

Module JS.

(** [s.startsWith(p)] *)
Definition startsWith (s p : string) : bool := String.prefix p s.

(** [s.slice(n)] for [0 <= n] *)
Fixpoint slice (s : string) (n : nat) : string :=
  match n, s with
  | O, _ => s
  | S _, EmptyString => EmptyString
  | S n', String _ s' => slice s' n'
  end.

(** [s.split(c)] for a one-character separator: never the empty list. *)
Fixpoint split (c : ascii) (s : string) : list string :=
  match s with
  | EmptyString => [EmptyString]
  | String a s' =>
      if Ascii.eqb a c then EmptyString :: split c s'
      else match split c s' with
           | x :: xs => String a x :: xs
           | [] => [String a EmptyString]
           end
  end.

(** [l.join(c)] *)
Fixpoint join (c : ascii) (l : list string) : string :=
  match l with
  | [] => EmptyString
  | [x] => x
  | x :: l' => x +:+ String c (join c l')
  end.

(** The part of [s] before the first [c], and the part from that [c] on
    (empty when [c] does not occur): [indexOf] followed by two [slice]s. *)
Fixpoint cut (c : ascii) (s : string) : string * string :=
  match s with
  | EmptyString => (EmptyString, EmptyString)
  | String a s' =>
      if Ascii.eqb a c then (EmptyString, s)
      else let '(l, r) := cut c s' in (String a l, r)
  end.

(** [s.includes(c)] for one character *)
Fixpoint has_char (c : ascii) (s : string) : bool :=
  match s with
  | EmptyString => false
  | String a s' => Ascii.eqb a c || has_char c s'
  end.

(** Truthiness of a string value: only the empty string is falsy. *)
Definition truthy (s : string) : bool :=
  match s with EmptyString => false | _ => true end.

(** [a || b] on strings *)
Definition or_else (a b : string) : string := if truthy a then a else b.

(** [a || b] where [a] may be [undefined] or [null] *)
Definition opt_or (a : option string) (b : string) : string :=
  match a with Some s => or_else s b | None => b end.

(** [r || undefined] *)
Definition or_undefined (r : option string) : option string :=
  match r with
  | Some s => if truthy s then Some s else None
  | None => None
  end.

(** ASCII [toLowerCase] (element and attribute names are ASCII) *)
Definition lower_char (a : ascii) : ascii :=
  let n := nat_of_ascii a in
  if (65 <=? n)%nat && (n <=? 90)%nat then ascii_of_nat (n + 32) else a.

Fixpoint toLowerCase (s : string) : string :=
  match s with
  | EmptyString => EmptyString
  | String a s' => String (lower_char a) (toLowerCase s')
  end.

(** A double quote, and a line feed. *)
Definition dquote : string := String (ascii_of_nat 34) EmptyString.
Definition lf : string := String (ascii_of_nat 10) EmptyString.

(** [l.includes(x)] on an array of strings *)
Definition includes (l : list string) (x : string) : bool :=
  bool_decide (x ∈ l).

End JS.

(** ** Percent-encoding *)

Module Percent.

(** Characters [encodeURIComponent] leaves alone:
    [A-Z a-z 0-9 - _ . ! ~ * ' ( )]. *)
Definition unreserved (a : ascii) : bool :=
  let n := nat_of_ascii a in
  ((65 <=? n) && (n <=? 90)) || ((97 <=? n) && (n <=? 122))
  || ((48 <=? n) && (n <=? 57))
  || (n =? 45) || (n =? 95) || (n =? 46) || (n =? 33) || (n =? 126)
  || (n =? 42) || (n =? 39) || (n =? 40) || (n =? 41).

(** Upper-case hexadecimal digit of a value below 16. *)
Definition hexdigit (n : nat) : ascii :=
  if (n <? 10)%nat then ascii_of_nat (48 + n) else ascii_of_nat (55 + n).

(** Value of a hexadecimal digit, either case. *)
Definition hexval (a : ascii) : option nat :=
  let n := nat_of_ascii a in
  if (48 <=? n) && (n <=? 57) then Some (n - 48)
  else if (65 <=? n) && (n <=? 70) then Some (n - 55)
  else if (97 <=? n) && (n <=? 102) then Some (n - 87)
  else None.

(** [encodeURIComponent]: every byte outside the unreserved set becomes
    [%XX].  On the UTF-8 form of a string this is the ECMAScript
    definition, which escapes each byte of a code point's UTF-8 form. *)
Fixpoint encodeURIComponent (s : string) : string :=
  match s with
  | EmptyString => EmptyString
  | String a s' =>
      if unreserved a then String a (encodeURIComponent s')
      else
        let n := nat_of_ascii a in
        String "%"%char (String (hexdigit (n / 16)) (String (hexdigit (n mod 16))
          (encodeURIComponent s')))
  end.

(** Modelled from the spec: [scrapbook.decodeURIComponent] is defined in
    the shared library, not in view.js.  The specification has it
    percent-decode a path segment and never raise: every [%XX] with two
    hexadecimal digits becomes the byte it names, anything else is kept. *)
Fixpoint decodeURIComponent (s : string) : string :=
  match s with
  | EmptyString => EmptyString
  | String a s' =>
      if Ascii.eqb a "%"%char then
        match s' with
        | String h (String l rest) =>
            match hexval h, hexval l with
            | Some x, Some y => String (ascii_of_nat (16 * x + y)) (decodeURIComponent rest)
            | _, _ => String a (decodeURIComponent s')
            end
        | _ => String a (decodeURIComponent s')
        end
      else String a (decodeURIComponent s')
  end.

End Percent.

(** ** Data model *)

Set Warnings "-register-all".

(** A DOM node: an element with its qualified name, its attributes in
    document order and its children, or a text node. *)
Inductive Node : Type :=
  | Elem (nodeName : string) (attributes : list (string * string))
         (childNodes : list Node)
  | Text (data : string).

Record Document : Type := mkDocument {
  contentType : string;
  doctype : string;
  documentElement : Node;
}.

(** A [Blob].  Markup is kept as the tree it parses to, so that reading a
    blob as a document and serialising a document into a blob need no
    parser; unparsable content is [Bytes]. *)
Inductive BlobBody : Type :=
  | Bytes (text : string)
  | Markup (doctype : string) (root : Node).

Record Blob : Type := mkBlob {
  blob_type : string;
  blob_body : BlobBody;
}.

(** A value of [viewer.inZipFiles]: [{file, url}] *)
Record ZipEntry : Type := mkZipEntry {
  file : Blob;
  file_url : string;
}.

(** A [URL] object: everything before the query, the query and the
    fragment ([None] when absent, as the URL standard has them). *)
Record URL : Type := mkURL {
  url_main : string;
  url_query : option string;
  url_fragment : option string;
}.

Module Url.

Definition href (u : URL) : string :=
  url_main u
  +:+ match url_query u with Some q => "?" +:+ q | None => "" end
  +:+ match url_fragment u with Some f => "#" +:+ f | None => "" end.

Definition search (u : URL) : string :=
  match url_query u with
  | Some q => if JS.truthy q then "?" +:+ q else ""
  | None => ""
  end.

Definition hash (u : URL) : string :=
  match url_fragment u with
  | Some f => if JS.truthy f then "#" +:+ f else ""
  | None => ""
  end.

(** [u.search = ""; u.hash = ""] *)
Definition clear_search_hash (u : URL) : URL :=
  {| url_main := url_main u; url_query := None; url_fragment := None |}.

End Url.

(** The result of [viewer.parseUrl] *)
Record UrlInfo : Type := mkUrlInfo {
  info_url : string;
  info_inZip : bool;
  info_virtualUrl : option string;
  info_inZipPath : option string;
  info_mime : option string;
  info_search : option string;
  info_hash : option string;
}.

(** [{url, inZip: false}] *)
Definition notInZip (url : string) : UrlInfo :=
  {| info_url := url; info_inZip := false; info_virtualUrl := None;
     info_inZipPath := None; info_mime := None; info_search := None;
     info_hash := None |}.

(** The result of [scrapbook.parseHeaderRefresh], the delay already in the
    form it takes when concatenated into a string. *)
Record Refresh : Type := mkRefresh {
  refresh_time : string;
  refresh_url : option string;
}.

(** A piece of a text that carries references: text kept as it is, or a
    reference of some kind. *)
Inductive RefKind : Type := ImportUrl | FontFaceUrl | BackgroundUrl.

Inductive Part : Type :=
  | Lit (s : string)
  | Ref (k : RefKind) (u : string).

(** What view.js takes from the browser and from the shared library. *)
Record Env : Type := mkEnv {
  (** [browser.runtime.getURL("viewer/!/")] *)
  virtualBase : string;
  (** [browser.runtime.getURL("core/reset.css")] *)
  resetCssUrl : string;
  (** ["data-scrapbook-meta-refresh-" + scrapbook.dateToId()] *)
  metaRefreshIdentifier : string;
  (** [viewer.hasCsp] *)
  hasCsp : bool;
  (** the text made of [viewer.deApiScript], when it is defined *)
  deApiScript : option string;
  (** [new URL(url, base)]; [None] when it throws *)
  URL_new : string → option string → option URL;
  (** [scrapbook.xhr] with [responseType: 'blob']; [None] when the request
      fails or has no response *)
  xhr : string → option Blob;
  (** [scrapbook.parseHeaderRefresh] *)
  parseHeaderRefresh : string → Refresh;
  (** the references the style sheet tokenizer finds in a text *)
  cssParts : string → list Part;
  (** the candidates the [srcset] tokenizer finds *)
  srcsetParts : string → list Part;
  (** the successive results of [scrapbook.getUuid] *)
  getUuid : nat → string;
  (** [scrapbook.escapeHtml(str, noDoubleQuotes)] *)
  escapeHtml : string → bool → string;
}.

(** The viewer's mutable state: the three tables of [viewer], the blobs
    the browser holds an object URL for, and the heap of arrays. *)
Record Viewer : Type := mkViewer {
  inZipFiles : gmap string ZipEntry;
  blobUrlToInZipPath : gmap string string;
  rewrittenBlobUrl : gset string;
  objectUrls : list Blob;
  arrays : list (list string);
  uuids : nat;
  deApiScriptUrl : option string;
}.

Definition loc : Type := nat.

(** ** Computations on the viewer's state

    [None] is a run that did not finish within the recursion bound. *)

Definition M (A : Type) : Type := Viewer → option (A * Viewer).

Definition ret {A} (a : A) : M A := λ st, Some (a, st).

Definition bind {A B} (m : M A) (k : A → M B) : M B :=
  λ st, match m st with
        | Some (a, st') => k a st'
        | None => None
        end.

Definition unfinished {A} : M A := λ _, None.

Notation "x <- m ;; k" := (bind m (λ x, k))
  (at level 100, m at next level, right associativity).
Notation "m ;;; k" := (bind m (λ _, k))
  (at level 100, right associativity).

Definition fmapM {A B} (f : A → B) (m : M A) : M B := a <- m ;; ret (f a).
Notation "f <$$> m" := (fmapM f m) (at level 61, left associativity).

Definition gets {A} (f : Viewer → A) : M A := λ st, Some (f st, st).
Definition modify (f : Viewer → Viewer) : M unit := λ st, Some (tt, f st).

(** The object URL of the [n]-th blob registered.  The browser's are
    random; only that they differ and start with [blob:] is used. *)
Definition objectUrl (n : nat) : string := "blob:" +:+ pretty n.

(** [URL.createObjectURL(blob)] *)
Definition createObjectURL (b : Blob) : M string :=
  λ st, Some (objectUrl (length (objectUrls st)),
              {| inZipFiles := inZipFiles st;
                 blobUrlToInZipPath := blobUrlToInZipPath st;
                 rewrittenBlobUrl := rewrittenBlobUrl st;
                 objectUrls := objectUrls st ++ [b];
                 arrays := arrays st;
                 uuids := uuids st;
                 deApiScriptUrl := deApiScriptUrl st |}).

Definition set_arrays (f : list (list string) → list (list string))
    (st : Viewer) : Viewer :=
  {| inZipFiles := inZipFiles st;
     blobUrlToInZipPath := blobUrlToInZipPath st;
     rewrittenBlobUrl := rewrittenBlobUrl st;
     objectUrls := objectUrls st;
     arrays := f (arrays st);
     uuids := uuids st;
     deApiScriptUrl := deApiScriptUrl st |}.

(** An array literal: a new array. *)
Definition newArray (l : list string) : M loc :=
  λ st, Some (length (arrays st), set_arrays (λ h, h ++ [l]) st).

(** The elements of the array at [a]. *)
Definition readArray (a : loc) : M (list string) :=
  gets (λ st, default [] (arrays st !! a)).

(** [JSON.parse(JSON.stringify(a))] on an array of strings: a new array
    with the same elements. *)
Definition JSON_clone (a : loc) : M loc :=
  l <- readArray a ;; newArray l.

(** [a.push(x)]: the array at [a] itself grows. *)
Definition push (a : loc) (x : string) : M unit :=
  modify (set_arrays (alter (λ l, l ++ [x]) a)).

(** The elements of the array at [a] in a given state. *)
Definition chainAt (st : Viewer) (a : loc) : list string :=
  default [] (arrays st !! a).

(** A child recursion chain, as [rewriteNode] makes one for a frame and
    for a meta refresh:
    [const child = JSON.parse(JSON.stringify(chain)); child.push(x);] *)
Definition childChain (chain : loc) (x : string) : M loc :=
  child <- JSON_clone chain ;;
  push child x ;;;
  ret child.

(** [scrapbook.getUuid()] *)
Definition nextUuid (env : Env) : M string :=
  λ st, Some (getUuid env (uuids st),
              {| inZipFiles := inZipFiles st;
                 blobUrlToInZipPath := blobUrlToInZipPath st;
                 rewrittenBlobUrl := rewrittenBlobUrl st;
                 objectUrls := objectUrls st;
                 arrays := arrays st;
                 uuids := S (uuids st);
                 deApiScriptUrl := deApiScriptUrl st |}).

(** [viewer.blobUrlToInZipPath.set(u, path)] *)
Definition blobUrlToInZipPath_set (u path : string) : M unit :=
  modify (λ st,
    {| inZipFiles := inZipFiles st;
       blobUrlToInZipPath := <[u := path]> (blobUrlToInZipPath st);
       rewrittenBlobUrl := rewrittenBlobUrl st;
       objectUrls := objectUrls st;
       arrays := arrays st;
       uuids := uuids st;
       deApiScriptUrl := deApiScriptUrl st |}).

(** [viewer.rewrittenBlobUrl.add(u)] *)
Definition rewrittenBlobUrl_add (u : string) : M unit :=
  modify (λ st,
    {| inZipFiles := inZipFiles st;
       blobUrlToInZipPath := blobUrlToInZipPath st;
       rewrittenBlobUrl := {[u]} ∪ rewrittenBlobUrl st;
       objectUrls := objectUrls st;
       arrays := arrays st;
       uuids := uuids st;
       deApiScriptUrl := deApiScriptUrl st |}).

(** [viewer.inZipFiles.set(path, entry)] *)
Definition inZipFiles_set (path : string) (e : ZipEntry) : M unit :=
  modify (λ st,
    {| inZipFiles := <[path := e]> (inZipFiles st);
       blobUrlToInZipPath := blobUrlToInZipPath st;
       rewrittenBlobUrl := rewrittenBlobUrl st;
       objectUrls := objectUrls st;
       arrays := arrays st;
       uuids := uuids st;
       deApiScriptUrl := deApiScriptUrl st |}).

Definition set_deApiScriptUrl (u : string) : M unit :=
  modify (λ st,
    {| inZipFiles := inZipFiles st;
       blobUrlToInZipPath := blobUrlToInZipPath st;
       rewrittenBlobUrl := rewrittenBlobUrl st;
       objectUrls := objectUrls st;
       arrays := arrays st;
       uuids := uuids st;
       deApiScriptUrl := Some u |}).

(** The state of a viewer that has loaded nothing yet. *)
Definition emptyViewer : Viewer :=
  {| inZipFiles := ∅; blobUrlToInZipPath := ∅; rewrittenBlobUrl := ∅;
     objectUrls := []; arrays := []; uuids := 0; deApiScriptUrl := None |}.

(** ** Helpers of the shared library and of the DOM *)

(** Modelled from the spec: [scrapbook.splitUrlByAnchor] is not in
    view.js.  It separates a URL from its fragment: the part before the
    first [#], and the part from that [#] on. *)
Definition splitUrlByAnchor (url : string) : string * string :=
  JS.cut "#" url.

(** Modelled from the spec: [scrapbook.splitUrl] is not in view.js.  It
    separates the fragment as [splitUrlByAnchor] does, then the query
    (from the first [?] on) from what is left. *)
Definition splitUrl (url : string) : string * string * string :=
  let '(name, hash) := JS.cut "#" url in
  let '(base, search) := JS.cut "?" name in
  (base, search, hash).

Definition Attrs : Type := list (string * string).

Fixpoint lookupAttribute (attrs : Attrs) (name : string) : option string :=
  match attrs with
  | [] => None
  | (k, v) :: attrs' =>
      if decide (k = name) then Some v else lookupAttribute attrs' name
  end.

(** [elem.hasAttribute(name)] *)
Definition hasAttribute (attrs : Attrs) (name : string) : bool :=
  match lookupAttribute attrs name with Some _ => true | None => false end.

(** [elem.getAttribute(name)]; [null] is read as the empty string. *)
Definition getAttribute (attrs : Attrs) (name : string) : string :=
  default "" (lookupAttribute attrs name).

(** [elem.setAttribute(name, value)] *)
Fixpoint setAttribute (attrs : Attrs) (name value : string) : Attrs :=
  match attrs with
  | [] => [(name, value)]
  | (k, v) :: attrs' =>
      if decide (k = name) then (k, value) :: attrs'
      else (k, v) :: setAttribute attrs' name value
  end.

(** [node.textContent] *)
Fixpoint textContent (n : Node) : string :=
  match n with
  | Text s => s
  | Elem _ _ cs =>
      (fix go (cs : list Node) : string :=
         match cs with
         | [] => ""
         | c :: cs' => textContent c +:+ go cs'
         end) cs
  end.

(** [elem.matches('[rel~="stylesheet"]')]: [rel] holds the word, in any
    case. *)
Definition relStylesheet (attrs : Attrs) : bool :=
  match lookupAttribute attrs "rel" with
  | Some v =>
      existsb (λ w, bool_decide (JS.toLowerCase w = "stylesheet"))
              (String.words v)
  | None => false
  end.

(** [doc.querySelector("head")] followed by
    [head.insertBefore(elem, head.firstChild)]: [None] when there is no
    [head], where the source raises a [TypeError]. *)
Fixpoint insertIntoHead (new : Node) (n : Node) : option Node :=
  match n with
  | Text _ => None
  | Elem name attrs cs =>
      if decide (JS.toLowerCase name = "head") then
        Some (Elem name attrs (new :: cs))
      else
        (fix go (cs : list Node) : option (list Node) :=
           match cs with
           | [] => None
           | c :: cs' =>
               match insertIntoHead new c with
               | Some c' => Some (c' :: cs')
               | None =>
                   match go cs' with
                   | Some cs'' => Some (c :: cs'')
                   | None => None
                   end
               end
           end) cs
        ≫= λ cs', Some (Elem name attrs cs')
  end.

(** [doc.querySelector("head")] alone: the first [head] element in
    document order. *)
Fixpoint querySelectorHead (n : Node) : option Node :=
  match n with
  | Text _ => None
  | Elem name attrs cs =>
      if decide (JS.toLowerCase name = "head") then Some n
      else
        (fix go (cs : list Node) : option Node :=
           match cs with
           | [] => None
           | c :: cs' =>
               match querySelectorHead c with
               | Some h => Some h
               | None => go cs'
               end
           end) cs
  end.

(** Modelled from the spec: [scrapbook.readFileAsDocument] is not in
    view.js.  It parses the content of a blob by its type and gives the
    document, [None] when the content does not parse.  The tree of a blob
    is the tree the parser builds: for [text/html] the HTML parser
    supplies [html], [head] and [body] when the text leaves them out, so
    the tree of such a blob has a head; for the XML types the tree is the
    one written. *)
Definition readFileAsDocument (data : Blob) : option Document :=
  match blob_body data with
  | Markup dt root =>
      Some {| contentType := blob_type data; doctype := dt;
              documentElement := root |}
  | Bytes _ => None
  end.

(** [new Blob([scrapbook.doctypeToString(doc.doctype) +
    doc.documentElement.outerHTML], {type: doc.contentType})] *)
Definition documentBlob (doc : Document) : Blob :=
  {| blob_type := contentType doc;
     blob_body := Markup (doctype doc) (documentElement doc) |}.

(** Serialisation of a tree, for markup that is read as text. *)
Fixpoint outerHTML (n : Node) : string :=
  match n with
  | Text s => s
  | Elem name attrs cs =>
      "<" +:+ name
      +:+ fold_right (λ kv acc, " " +:+ kv.1 +:+ "=" +:+ JS.dquote +:+ kv.2
                                +:+ JS.dquote +:+ acc)
                     "" attrs
      +:+ ">"
      +:+ (fix go (cs : list Node) : string :=
             match cs with
             | [] => ""
             | c :: cs' => outerHTML c +:+ go cs'
             end) cs
      +:+ "</" +:+ name +:+ ">"
  end.

(** The text of a blob. *)
Definition blobText (b : Blob) : string :=
  match blob_body b with
  | Bytes t => t
  | Markup dt root => dt +:+ outerHTML root
  end.

(** Parameters of a [fetchFileRewriteFunc] *)
Record RewriteParams : Type := mkRewriteParams {
  rp_data : Blob;
  rp_charset : option string;
  rp_url : string;
  rp_recurseChain : loc;
}.

(** Modelled from the spec: [scrapbook.rewriteCssFile] is not in view.js.
    It reads the style sheet's text, has it rewritten and returns a blob
    of the same type holding the rewritten text. *)
Definition rewriteCssFile (data : Blob) (charset : option string)
    (rewriter : string → M string) : M Blob :=
  text <- rewriter (blobText data) ;;
  ret {| blob_type := blob_type data; blob_body := Bytes text |}.

(** ** The viewer *)

Section Viewer.

Variable env : Env.

(** *** Path codec and URL resolver *)

Definition inZipPathToUrl (inZipPath : option string) : string :=
  virtualBase env
  +:+ JS.join "/" (map Percent.encodeURIComponent
                       (JS.split "/" (JS.opt_or inZipPath ""))).

(** Lines 71-72 of [parseUrl]: the archive path a URL under the virtual
    base names. *)
Definition hrefToInZipPath (href : string) : string :=
  let inZipPath := JS.slice href (String.length (virtualBase env)) in
  JS.join "/" (map Percent.decodeURIComponent (JS.split "/" inZipPath)).

Definition parseUrl (files : gmap string ZipEntry) (url : string)
    (refUrl : option string) : UrlInfo :=
  match URL_new env url (JS.or_undefined refUrl) with
  | None =>
      (* url cannot be resolved, return original (invalid) *)
      notInZip url
  | Some absoluteUrl =>
      if JS.startsWith (Url.href absoluteUrl) (virtualBase env) then
        let search := Url.search absoluteUrl in
        let hash := Url.hash absoluteUrl in
        let absoluteUrl := Url.clear_search_hash absoluteUrl in
        let inZipPath := hrefToInZipPath (Url.href absoluteUrl) in
        match files !! inZipPath with
        | Some f =>
            (* url targets a file in zip, return its blob URL *)
            {| info_url := file_url f +:+ hash;
               info_virtualUrl := Some (Url.href absoluteUrl +:+ hash);
               info_inZip := true;
               info_inZipPath := Some inZipPath;
               info_mime := Some (blob_type (file f));
               info_search := Some search;
               info_hash := Some hash |}
        | None =>
            (* url targets a non-exist file in zip, return original *)
            notInZip url
        end
      else
        (* url target not in zip, return absolute URL *)
        notInZip (Url.href absoluteUrl)
  end.

(** [viewer.parseUrl] reading [viewer.inZipFiles] *)
Definition viewer_parseUrl (url : string) (refUrl : option string) : M UrlInfo :=
  gets (λ st, parseUrl (inZipFiles st) url refUrl).

(** *** Fetching a file *)

Definition RewriteFunc : Type := RewriteParams → M Blob.

Definition fetchFile (inZipPath : option string)
    (rewriteFunc : option RewriteFunc) (recurseChain : loc)
    : M (option string) :=
  files <- gets inZipFiles ;;
  match inZipPath with
  | Some path =>
      match files !! path with
      | Some f =>
          match rewriteFunc with
          | Some rewrite =>
              rewrittenFile <- rewrite {| rp_data := file f;
                                          rp_charset := None;
                                          rp_url := inZipPathToUrl inZipPath;
                                          rp_recurseChain := recurseChain |} ;;
              u <- createObjectURL rewrittenFile ;;
              blobUrlToInZipPath_set u path ;;;
              rewrittenBlobUrl_add u ;;;
              ret (Some u)
          | None => ret (Some (file_url f))
          end
      | None => ret None
      end
  | None =>
      (* [inZipFiles.get(undefined)] *)
      ret None
  end.

(** *** The stylesheet rewriter and its placeholder table *)

(** A value of [urlHash]; [entry_import] tells whether [rewriteFunc] is
    [viewer.processCssFile], the only function ever recorded. *)
Record UrlHashEntry : Type := mkUrlHashEntry {
  entry_url : string;
  newUrl : option string;
  entry_import : bool;
}.

(** [urlHash] is an object used as a map; its keys are enumerated in the
    order they were first assigned. *)
Record ComplexUrlFetcher : Type := mkFetcher {
  urlHash : list (string * UrlHashEntry);
  urlRewrittenCount : nat;
  recurseChain : loc;
}.

Fixpoint lookupKey (h : list (string * UrlHashEntry)) (key : string)
    : option UrlHashEntry :=
  match h with
  | [] => None
  | (k, e) :: h' => if decide (k = key) then Some e else lookupKey h' key
  end.

(** [urlHash[key] = e] *)
Fixpoint assignKey (h : list (string * UrlHashEntry)) (key : string)
    (e : UrlHashEntry) : list (string * UrlHashEntry) :=
  match h with
  | [] => [(key, e)]
  | (k, x) :: h' =>
      if decide (k = key) then (k, e) :: h'
      else (k, x) :: assignKey h' key e
  end.

(** [new ComplexUrlFetcher(refUrl, recurseChain)] *)
Definition ComplexUrlFetcher_new (refUrl : string) (parentChain : option loc)
    : M ComplexUrlFetcher :=
  chain <- match parentChain with
           | Some a => JSON_clone a
           | None => a <- newArray [] ;; JSON_clone a
           end ;;
  (if JS.truthy refUrl then
     (* if a refUrl is specified, record the recurse chain
        for future check of circular referencing *)
     push chain (splitUrlByAnchor refUrl).1
   else ret tt) ;;;
  ret {| urlHash := []; urlRewrittenCount := 0; recurseChain := chain |}.

Definition markerPrefix : string := "urn:scrapbook:url:".

Definition getUrlHash (this : ComplexUrlFetcher) (url : string)
    (import : bool) : M (string * ComplexUrlFetcher) :=
  key <- nextUuid env ;;
  ret (markerPrefix +:+ key,
       {| urlHash := assignKey (urlHash this) key
                       {| entry_url := url; newUrl := None;
                          entry_import := import |};
          urlRewrittenCount := urlRewrittenCount this;
          recurseChain := recurseChain this |}).

(** Modelled from the spec: [scrapbook.rewriteCssText] is not in view.js.
    It replaces the URL of every [@import], [@font-face] and other
    [url()] reference by what the matching callback returns and keeps all
    other text; the callbacks of [processCssText] are [getUrlHash], with
    [viewer.processCssFile] for imports only. *)
Fixpoint rewriteCssParts (parts : list Part) (this : ComplexUrlFetcher)
    : M (string * ComplexUrlFetcher) :=
  match parts with
  | [] => ret ("", this)
  | Lit s :: parts' =>
      r <- rewriteCssParts parts' this ;;
      ret (s +:+ r.1, r.2)
  | Ref k u :: parts' =>
      m <- getUrlHash this u
             (match k with ImportUrl => true | _ => false end) ;;
      r <- rewriteCssParts parts' m.2 ;;
      ret (m.1 +:+ r.1, r.2)
  end.

Definition rewriteCssText (cssText : string) (this : ComplexUrlFetcher)
    : M (string * ComplexUrlFetcher) :=
  rewriteCssParts (cssParts env cssText) this.

Section Stylesheet.

(** [viewer.processCssFile], as far as the recursion bound leaves of it. *)
Variable processCssFile_rec : RewriteFunc.

(** The task [startFetches] runs for one key: its result, and the fetcher
    with what the task recorded. *)
Definition startFetch (this : ComplexUrlFetcher) (key : string)
    : M (string * ComplexUrlFetcher) :=
  chain <- readArray (recurseChain this) ;;
  let sourceUrl := last chain in
  match lookupKey (urlHash this) key with
  | None => ret ("", this)
  | Some e =>
      info <- viewer_parseUrl (entry_url e) sourceUrl ;;
      if info_inZip info
         && JS.includes chain
              (splitUrlByAnchor (inZipPathToUrl (info_inZipPath info))).1
      then
        (* circular reference *)
        ret ("about:blank", this)
      else
        fetched <- fetchFile (info_inZipPath info)
                     (if entry_import e then Some processCssFile_rec else None)
                     (recurseChain this) ;;
        let response := JS.opt_or fetched (info_url info) in
        ret (response,
             {| urlHash := assignKey (urlHash this) key
                             {| entry_url := entry_url e;
                                newUrl := Some response;
                                entry_import := entry_import e |};
                urlRewrittenCount := urlRewrittenCount this;
                recurseChain := recurseChain this |})
  end.

Fixpoint startFetchesOf (keys : list string) (this : ComplexUrlFetcher)
    : M (list string * ComplexUrlFetcher) :=
  match keys with
  | [] => ret ([], this)
  | key :: keys' =>
      r <- startFetch this key ;;
      rs <- startFetchesOf keys' r.2 ;;
      ret (r.1 :: rs.1, rs.2)
  end.

(** [Object.keys(this.urlHash).map(...)] joined by [Promise.all] *)
Definition startFetches (this : ComplexUrlFetcher)
    : M (list string * ComplexUrlFetcher) :=
  startFetchesOf (map fst (urlHash this)) this.

(** [[0-9a-f]] *)
Definition lowerHex (a : ascii) : bool :=
  let n := nat_of_ascii a in
  ((48 <=? n) && (n <=? 57)) || ((97 <=? n) && (n <=? 102)).

(** What is left of [s] after [n] characters of [[0-9a-f]]. *)
Fixpoint hexRun (n : nat) (s : string) : option string :=
  match n with
  | O => Some s
  | S n' =>
      match s with
      | String a s' => if lowerHex a then hexRun n' s' else None
      | EmptyString => None
      end
  end.

Definition dash (s : string) : option string :=
  match s with
  | String a s' => if Ascii.eqb a "-"%char then Some s' else None
  | EmptyString => None
  end.

(** [s.slice(0, n)] *)
Fixpoint take (n : nat) (s : string) : string :=
  match n, s with
  | S n', String a s' => String a (take n' s')
  | _, _ => EmptyString
  end.

(** The key when [s] starts with
    [[0-9a-f]{8}-(?:[0-9a-f]{4}-){3}[0-9a-f]{12}]. *)
Definition matchKey (s : string) : option string :=
  s1 ← hexRun 8 s; s2 ← dash s1;
  s3 ← hexRun 4 s2; s4 ← dash s3;
  s5 ← hexRun 4 s4; s6 ← dash s5;
  s7 ← hexRun 4 s6; s8 ← dash s7;
  _ ← hexRun 12 s8;
  Some (take 36 s).

(** The key when [s] starts with a placeholder marker. *)
Definition matchMarker (s : string) : option string :=
  if JS.startsWith s markerPrefix
  then matchKey (JS.slice s (String.length markerPrefix))
  else None.

(** The callback of [text.replace] in [finalRewrite]; a [null] result is
    converted to the string [null] by [replace]. *)
Definition replacement (this : ComplexUrlFetcher) (key : string) : string :=
  match lookupKey (urlHash this) key with
  | Some e => default "null" (newUrl e)
  | None =>
      (* keys not defined in the map: return the original text *)
      markerPrefix +:+ key
  end.

(** [text.replace(/urn:scrapbook:url:(...)/g, callback)]: matches are
    taken left to right and do not overlap; [skip] counts the characters
    of the last match still to be passed over. *)
Fixpoint replaceMarkers (this : ComplexUrlFetcher) (skip : nat)
    (text : string) : string :=
  match text with
  | EmptyString => EmptyString
  | String a text' =>
      match skip with
      | S n => replaceMarkers this n text'
      | O =>
          match matchMarker text with
          | Some key =>
              replacement this key
              +:+ replaceMarkers this (String.length markerPrefix + 35) text'
          | None => String a (replaceMarkers this 0 text')
          end
      end
  end.

Definition finalRewrite (this : ComplexUrlFetcher) (text : string) : string :=
  replaceMarkers this 0 text.

Definition processCssText (cssText refUrl : string) (chain : loc)
    : M string :=
  fetcher <- ComplexUrlFetcher_new refUrl (Some chain) ;;
  r <- rewriteCssText cssText fetcher ;;
  f <- startFetches r.2 ;;
  ret (finalRewrite f.2 r.1).

(** The body of [viewer.processCssFile] *)
Definition processCssFile_body (params : RewriteParams) : M Blob :=
  rewriteCssFile (rp_data params) (rp_charset params)
    (λ text, processCssText text (rp_url params) (rp_recurseChain params)).

End Stylesheet.

(** *** The document rewriter *)

(** What [rewriteNode] leaves of an element: its attributes, whether its
    children were removed at once ([elem.textContent = ""]), and the text
    its content is replaced with when its task completes. *)
Record Rewritten : Type := mkRewritten {
  r_attrs : Attrs;
  r_cleared : bool;
  r_text : option string;
}.

Definition kept (attrs : Attrs) : Rewritten :=
  {| r_attrs := attrs; r_cleared := false; r_text := None |}.

(** The page a meta refresh to an address outside the archive is pointed
    at. *)
Definition redirectNotice (url : string) : string :=
  "<!DOCTYPE html>" +:+ JS.lf
  +:+ "<html " +:+ metaRefreshIdentifier env +:+ "=" +:+ JS.dquote +:+ "1"
  +:+ JS.dquote +:+ ">" +:+ JS.lf
  +:+ "<head>" +:+ JS.lf
  +:+ "<meta charset=" +:+ JS.dquote +:+ "UTF-8" +:+ JS.dquote +:+ ">" +:+ JS.lf
  +:+ "<meta name=" +:+ JS.dquote +:+ "viewport" +:+ JS.dquote
  +:+ " content=" +:+ JS.dquote +:+ "width=device-width,initial-scale=1"
  +:+ JS.dquote +:+ ">" +:+ JS.lf
  +:+ "</head>" +:+ JS.lf
  +:+ "<body>" +:+ JS.lf
  +:+ "Redirecting to: <a href=" +:+ JS.dquote +:+ escapeHtml env url false
  +:+ JS.dquote +:+ ">" +:+ escapeHtml env url true +:+ "</a>" +:+ JS.lf
  +:+ "</body>" +:+ JS.lf
  +:+ "</html>" +:+ JS.lf.

(** Modelled from the spec: [scrapbook.rewriteSrcset] is not in view.js.
    It rewrites a [srcset] candidate by candidate and keeps the
    descriptors. *)
Definition rewriteSrcset (srcset : string) (rewriter : string → string)
    : string :=
  fold_right (λ p acc, match p with
                       | Lit s => s +:+ acc
                       | Ref _ u => rewriter u +:+ acc
                       end) "" (srcsetParts env srcset).

Section Document.

(** [viewer.fetchPage] and [viewer.processCssFile], as far as the
    recursion bound leaves of them. *)
Variable fetchPage_rec : option string → string → loc → M (option string).
Variable processCssFile_rec : RewriteFunc.

(** The parameters of [parseDocument] *)
Variable inZipPath : option string.
Variable recurseChain : loc.

Definition refUrl : string := inZipPathToUrl inZipPath.

Definition rewriteUrl (url : string) (refUrlOverwrite : option string)
    : M string :=
  info <- viewer_parseUrl url (Some (JS.opt_or refUrlOverwrite refUrl)) ;;
  ret (info_url info).

(** [if (elem.hasAttribute(name)) elem.setAttribute(name,
    rewriteUrl(elem.getAttribute(name), refUrl))] *)
Definition rewriteAttr (attrs : Attrs) (name : string) : M Attrs :=
  if hasAttribute attrs name then
    url <- rewriteUrl (getAttribute attrs name) (Some refUrl) ;;
    ret (setAttribute attrs name url)
  else ret attrs.

(** The same with [scrapbook.rewriteSrcset] *)
Definition rewriteSrcsetAttr (attrs : Attrs) (name : string) : M Attrs :=
  if hasAttribute attrs name then
    files <- gets inZipFiles ;;
    ret (setAttribute attrs name
           (rewriteSrcset (getAttribute attrs name)
              (λ url, info_url (parseUrl files url
                                  (Some (JS.opt_or (Some refUrl) refUrl))))))
  else ret attrs.

(** The rule of [href] and [xlink:href] in SVG, of [href] in MathML and
    of [href] on [a] and [area]; the source spells it out four times. *)
Definition rewriteLink (attrs : Attrs) (name : string) : M Attrs :=
  if hasAttribute attrs name then
    info <- viewer_parseUrl (getAttribute attrs name) (Some refUrl) ;;
    if info_inZip info then
      if bool_decide (info_inZipPath info ≠ inZipPath) then
        ret (setAttribute attrs name (info_url info))
      else
        (* link to self *)
        ret (setAttribute attrs name (JS.opt_or (info_hash info) "#"))
    else
      (* link target is not in the zip *)
      ret (setAttribute attrs name (info_url info))
  else ret attrs.

(** [meta] with [http-equiv=refresh] *)
Definition rewriteMetaRefresh (attrs : Attrs) : M Attrs :=
  let metaRefresh := parseHeaderRefresh env (getAttribute attrs "content") in
  match refresh_url metaRefresh with
  | Some target =>
      if JS.truthy target then
        info <- viewer_parseUrl target (Some refUrl) ;;
        let sourcePage := (splitUrlByAnchor refUrl).1 in
        let '(targetPage, targetPageHash) :=
          splitUrlByAnchor (JS.opt_or (info_virtualUrl info) (info_url info)) in
        if bool_decide (targetPage ≠ sourcePage) then
          chain <- readArray recurseChain ;;
          if JS.includes chain targetPage then
            (* circular reference *)
            ret (setAttribute attrs "content"
                   (refresh_time metaRefresh +:+ ";url=about:blank"))
          else if info_inZip info then
            metaRecurseChain <- childChain recurseChain refUrl ;;
            fetchedUrl <- fetchPage_rec (info_inZipPath info) (info_url info)
                            metaRecurseChain ;;
            let url := JS.opt_or fetchedUrl (info_url info) in
            ret (setAttribute attrs "content"
                   (refresh_time metaRefresh +:+ ";url=" +:+ url))
          else
            blobUrl <- createObjectURL
                         {| blob_type := "text/html";
                            blob_body := Bytes (redirectNotice (info_url info)) |} ;;
            let url := blobUrl +:+ targetPageHash in
            ret (setAttribute attrs "content"
                   (refresh_time metaRefresh +:+ ";url=" +:+ url))
        else
          ret (setAttribute attrs "content"
                 (refresh_time metaRefresh
                  +:+ (if JS.truthy targetPageHash
                       then ";url=" +:+ targetPageHash else "")))
      else ret attrs
  | None => ret attrs
  end.

Definition ogProperties : list string :=
  ["og:image"; "og:image:url"; "og:image:secure_url";
   "og:audio"; "og:audio:url"; "og:audio:secure_url";
   "og:video"; "og:video:url"; "og:video:secure_url"; "og:url"].

Definition rewriteMeta (attrs : Attrs) : M Attrs :=
  if hasAttribute attrs "http-equiv" && hasAttribute attrs "content"
     && bool_decide (JS.toLowerCase (getAttribute attrs "http-equiv") = "refresh")
  then rewriteMetaRefresh attrs
  else if hasAttribute attrs "property" && hasAttribute attrs "content" then
    if JS.includes ogProperties (JS.toLowerCase (getAttribute attrs "property"))
    then
      url <- rewriteUrl (getAttribute attrs "content") (Some refUrl) ;;
      ret (setAttribute attrs "content" url)
    else ret attrs
  else ret attrs.

Definition rewriteLinkElement (attrs : Attrs) : M Attrs :=
  if hasAttribute attrs "href" then
    if relStylesheet attrs then
      info <- viewer_parseUrl (getAttribute attrs "href") (Some refUrl) ;;
      chain <- newArray [refUrl] ;;
      fetchedUrl <- fetchFile (info_inZipPath info) (Some processCssFile_rec)
                      chain ;;
      let url := JS.opt_or fetchedUrl (info_url info) in
      ret (setAttribute attrs "href" url)
    else
      url <- rewriteUrl (getAttribute attrs "href") None ;;
      ret (setAttribute attrs "href" url)
  else ret attrs.

(** [frame] and [iframe] *)
Definition rewriteFrame (attrs : Attrs) : M Attrs :=
  if hasAttribute attrs "src" then
    frameRecurseChain <- childChain recurseChain refUrl ;;
    info <- viewer_parseUrl (getAttribute attrs "src") (Some refUrl) ;;
    chain <- readArray frameRecurseChain ;;
    if info_inZip info
       && JS.includes chain (inZipPathToUrl (info_inZipPath info))
    then
      (* circular reference *)
      ret (setAttribute attrs "src" "about:blank")
    else
      fetchedUrl <- fetchPage_rec (info_inZipPath info) (info_url info)
                      frameRecurseChain ;;
      let url := JS.opt_or fetchedUrl (info_url info) in
      ret (setAttribute attrs "src" url)
  else ret attrs.

(** The shim of [script], [embed], [object] and [applet]: where the
    extension's policy forbids external resources, the resource is
    retrieved and its object URL put in the attribute; a failed request
    changes nothing. *)
Definition localize (attrs : Attrs) (name : string) : M Attrs :=
  let url := getAttribute attrs name in
  if negb (JS.startsWith url "blob:") && hasCsp env then
    match xhr env url with
    | Some blob =>
        u <- createObjectURL blob ;;
        ret (setAttribute attrs name u)
    | None => ret attrs
    end
  else ret attrs.

(** [script]; [elem.src] is read as the attribute it reflects. *)
Definition rewriteScript (attrs : Attrs) (text : string) : M Rewritten :=
  if hasAttribute attrs "src" then
    url <- rewriteUrl (getAttribute attrs "src") (Some refUrl) ;;
    let attrs := setAttribute attrs "src" url in
    attrs <- localize attrs "src" ;;
    if JS.startsWith url "blob:" && negb (hasCsp env) then
      ret (kept (setAttribute attrs "src" "blob:"))
    else ret (kept attrs)
  else if hasCsp env then
    if JS.truthy text then
      u <- createObjectURL {| blob_type := "application/javascript";
                              blob_body := Bytes text |} ;;
      ret {| r_attrs := setAttribute attrs "src" u; r_cleared := true;
             r_text := None |}
    else ret (kept attrs)
  else ret (kept attrs).

(** [embed], [object], [applet]: plain rewrite, then the shim. *)
Definition rewritePlugin (attrs : Attrs) (name : string) : M Attrs :=
  if hasAttribute attrs name then
    attrs <- rewriteAttr attrs name ;;
    localize attrs name
  else ret attrs.

Definition rewriteStyleAttr (r : Rewritten) : M Rewritten :=
  if hasAttribute (r_attrs r) "style" then
    response <- processCssText processCssFile_rec
                  (getAttribute (r_attrs r) "style") refUrl recurseChain ;;
    ret {| r_attrs := setAttribute (r_attrs r) "style" response;
           r_cleared := r_cleared r; r_text := r_text r |}
  else ret r.

(** The [switch] on the element's name *)
Definition rewriteByName (name : string) (attrs : Attrs) (text : string)
    : M Rewritten :=
  if decide (name = "meta") then kept <$$> rewriteMeta attrs
  else if decide (name = "link") then kept <$$> rewriteLinkElement attrs
  else if decide (name = "style") then
    response <- processCssText processCssFile_rec text refUrl recurseChain ;;
    ret {| r_attrs := attrs; r_cleared := false; r_text := Some response |}
  else if decide (name = "script") then rewriteScript attrs text
  else if bool_decide (name ∈ ["body"; "table"; "tr"; "th"; "td"]) then
    kept <$$> rewriteAttr attrs "background"
  else if bool_decide (name ∈ ["frame"; "iframe"]) then
    kept <$$> rewriteFrame attrs
  else if bool_decide (name ∈ ["a"; "area"]) then
    kept <$$> rewriteLink attrs "href"
  else if decide (name = "img") then
    attrs <- rewriteAttr attrs "src" ;;
    kept <$$> rewriteSrcsetAttr attrs "srcset"
  else if decide (name = "audio") then kept <$$> rewriteAttr attrs "src"
  else if decide (name = "video") then
    attrs <- rewriteAttr attrs "src" ;;
    kept <$$> rewriteAttr attrs "poster"
  else if decide (name = "source") then
    attrs <- rewriteAttr attrs "src" ;;
    kept <$$> rewriteSrcsetAttr attrs "srcset"
  else if decide (name = "track") then kept <$$> rewriteAttr attrs "src"
  else if decide (name = "embed") then kept <$$> rewritePlugin attrs "src"
  else if decide (name = "object") then kept <$$> rewritePlugin attrs "data"
  else if decide (name = "applet") then
    attrs <- rewritePlugin attrs "code" ;;
    kept <$$> rewritePlugin attrs "archive"
  else if decide (name = "form") then kept <$$> rewriteAttr attrs "action"
  else if decide (name = "input") then
    if bool_decide (JS.toLowerCase (getAttribute attrs "type") = "image")
    then kept <$$> rewriteAttr attrs "src"
    else ret (kept attrs)
  else ret (kept attrs).

(** [rewriteNode(elem, rootName)] on an element named [nodeName] *)
Definition rewriteNode (nodeName : string) (attrs : Attrs) (text : string)
    (rootName : string) : M Rewritten :=
  if decide (rootName = "svg") then
    (* href and xlink:href in SVG elements *)
    attrs <- rewriteLink attrs "href" ;;
    kept <$$> rewriteLink attrs "xlink:href"
  else if decide (rootName = "math") then
    kept <$$> rewriteLink attrs "href"
  else
    r <- rewriteByName (JS.toLowerCase nodeName) attrs text ;;
    (* styles: style attribute *)
    rewriteStyleAttr r.

(** [rewriteRecursively(elem, rootName, rewriteNode)].  The callback
    returns the element, so the children are always visited; they are the
    element children the callback left in place. *)
Fixpoint rewriteRecursively (elem : Node) (rootName : string) : M Node :=
  match elem with
  | Text _ => ret elem
  | Elem name attrs children =>
      let nodeName := JS.toLowerCase name in
      (* switch rootName for certain embedded "document" *)
      let rootName :=
        if bool_decide (nodeName ∈ ["svg"; "math"]) then nodeName
        else rootName in
      r <- rewriteNode name attrs (textContent elem) rootName ;;
      children' <-
        (if r_cleared r then ret []
         else
           (fix each (cs : list Node) : M (list Node) :=
              match cs with
              | [] => ret []
              | c :: cs' =>
                  c' <- rewriteRecursively c rootName ;;
                  cs'' <- each cs' ;;
                  ret (c' :: cs'')
              end) children) ;;
      ret (Elem name (r_attrs r)
             (match r_text r with
              | Some t => [Text t]
              | None => children'
              end))
  end.

(** [viewer.insertDeApiScript(doc)]: the script's object URL is made on
    the first call; [None] where the source raises. *)
Definition insertDeApiScript (root : Node) : M (option Node) :=
  cached <- gets deApiScriptUrl ;;
  match cached, deApiScript env with
  | Some u, _ =>
      ret (insertIntoHead (Elem "script" [("src", u)] []) root)
  | None, Some text =>
      u <- createObjectURL {| blob_type := "application/javascript";
                              blob_body := Bytes text |} ;;
      set_deApiScriptUrl u ;;;
      ret (insertIntoHead (Elem "script" [("src", u)] []) root)
  | None, None => ret None
  end.

(** [viewer.parseDocument]; [None] where the source raises. *)
Definition parseDocument (doc : Document) : M (option Blob) :=
  (* rewrite URLs *)
  let root := documentElement doc in
  root <- rewriteRecursively root
            (JS.toLowerCase (match root with
                             | Elem name _ _ => name
                             | Text _ => ""
                             end)) ;;
  if JS.includes ["text/html"; "application/xhtml+xml"] (contentType doc) then
    (* Remove privileged APIs to avoid a potential security risk. *)
    root <- (if hasCsp env then insertDeApiScript root else ret (Some root)) ;;
    (* Reset CSS for Chromium *)
    match root ≫= insertIntoHead
                     (Elem "link" [("rel", "stylesheet");
                                   ("href", resetCssUrl env)] []) with
    | Some root =>
        ret (Some (documentBlob {| contentType := contentType doc;
                                   doctype := doctype doc;
                                   documentElement := root |}))
    | None => ret None
    end
  else
    ret (Some (documentBlob {| contentType := contentType doc;
                               doctype := doctype doc;
                               documentElement := root |})).

End Document.

(** *** Fetching a page *)

Definition pageTypes : list string :=
  ["text/html"; "application/xhtml+xml"; "image/svg+xml"].

(** The [rewriteFunc] that [fetchPage] gives to [fetchFile]; whatever is
    raised while the document is read or rewritten is caught and the data
    returned as it is. *)
Definition pageRewriteFunc
    (fetchPage_rec : option string → string → loc → M (option string))
    (processCssFile_rec : RewriteFunc) (inZipPath : option string)
    : RewriteFunc :=
  λ params,
    let data := rp_data params in
    if JS.includes pageTypes (blob_type data) then
      match readFileAsDocument data with
      | Some doc =>
          r <- parseDocument fetchPage_rec processCssFile_rec inZipPath
                 (rp_recurseChain params) doc ;;
          ret (default data r)
      | None => ret data
      end
    else ret data.

(** The body of [viewer.fetchPage] *)
Definition fetchPage_body
    (fetchPage_rec : option string → string → loc → M (option string))
    (processCssFile_rec : RewriteFunc)
    (inZipPath : option string) (url : string) (chain : loc)
    : M (option string) :=
  let searchAndHash :=
    if JS.truthy url then
      (* blob URL with a search is invalid *)
      (splitUrl url).2
    else "" in
  fetchedUrl <- fetchFile inZipPath
                  (Some (pageRewriteFunc fetchPage_rec processCssFile_rec
                           inZipPath))
                  chain ;;
  ret (match fetchedUrl with
       | Some u => if JS.truthy u then Some (u +:+ searchAndHash) else Some u
       | None => None
       end).

(** The two recursive entry points, unfolded [fuel] times: a run that
    needs a deeper recursion is [unfinished]. *)
Fixpoint processCssFile (fuel : nat) : RewriteFunc :=
  match fuel with
  | O => λ _, unfinished
  | S n => processCssFile_body (processCssFile n)
  end.

Fixpoint fetchPage (fuel : nat) (inZipPath : option string) (url : string)
    (chain : loc) : M (option string) :=
  match fuel with
  | O => unfinished
  | S n => fetchPage_body (fetchPage n) (processCssFile n) inZipPath url chain
  end.

(** *** Loading the archive (the loop of [init] that fills the tables) *)

(** An entry of the cached archive: whether it is a directory, and the
    file the cache holds for it, which is what [scrapbook.cache.get] gives
    for the entry's key.  The cache is taken to hold the file of every
    entry: a read that gives nothing makes [URL.createObjectURL] raise and
    [init] end in its [catch], and such a run has no counterpart here. *)
Record ZipObj : Type := mkZipObj {
  zip_dir : bool;
  zip_file : Blob;
}.

Fixpoint loadEntries (dir : option string) (entries : list (string * ZipObj))
    : M unit :=
  match entries with
  | [] => ret tt
  | (path, zipObj) :: entries' =>
      (if zip_dir zipObj then ret tt
       else if match dir with
               | Some d => JS.truthy d && negb (JS.startsWith path (d +:+ "/"))
               | None => false
               end
       then ret tt
       else
         let f := zip_file zipObj in
         u <- createObjectURL f ;;
         inZipFiles_set path {| file := f; file_url := u |} ;;;
         blobUrlToInZipPath_set u path) ;;;
      loadEntries dir entries'
  end.

(** [init], from the loading of the archive to the page it shows:
    [None] as a result is the error the viewer reports. *)
Definition init (fuel : nat) (dir : option string) (indexFile : string)
    (urlHash : string) (entries : list (string * ZipObj))
    : M (option string) :=
  loadEntries dir entries ;;;
  chain <- newArray [] ;;
  fetchPage fuel (Some (JS.or_else indexFile "index.html")) urlHash chain.

(** *** Clicks on the links of the pages shown

    The [click] listener that [frameOnLoad] registers on the window of
    the viewer's frame and of every frame of a page. *)

(** What the listener makes of a click. *)
Inductive Navigation : Type :=
  (** it returns without [preventDefault]: the browser follows the link *)
  | Unhandled
  (** [location.href] is set to the viewer's URL with [p] and the
      fragment replaced *)
  | OpenInViewer (inZipPath hash : string)
  (** [frameDoc.location.href = url], and the fragment is put in the
      viewer's URL by [history.replaceState] *)
  | ScrollInPage (url hash : string)
  (** [location.href = url] *)
  | LeaveTo (url : string)
  (** [elem.href = url; frameDoc.location = url] *)
  | LoadInFrame (url : string)
  (** the default is prevented and nothing else is done *)
  | Cancelled.

(** A click: [e.button], and the [href] of
    [e.target.closest('a[href], area[href]')] when there is one. *)
Record Click : Type := mkClick {
  button : nat;
  anchor : option string;
}.

Section Clicks.

(** [scrapbook.isUrlAbsolute] *)
Variable isUrlAbsolute : string → bool.

(** The listener, in the viewer's frame ([frame === iframe]) or in a frame
    of a page shown; [currentPage] is [p] in the viewer's URL. *)
Definition frameOnClick (fuel : nat) (top : bool) (currentPage : option string)
    (e : Click) : M Navigation :=
  (* ignore non-left click *)
  if negb (button e =? 0) then ret Unhandled
  else
    match anchor e with
    | None => ret Unhandled
    | Some url =>
        if top then
          if JS.startsWith url "blob:" then
            (* in-zip file link *)
            let '(main, search, hash) := splitUrl url in
            paths <- gets blobUrlToInZipPath ;;
            match paths !! main with
            | Some inZipPath =>
                if JS.truthy inZipPath then
                  if bool_decide (Some inZipPath ≠ currentPage) then
                    ret (OpenInViewer inZipPath hash)
                  else ret (ScrollInPage url hash)
                else ret Unhandled
            | None => ret Unhandled
            end
          else if isUrlAbsolute url then
            (* external link *)
            ret (LeaveTo url)
          else
            (* a relative link targeting a non-existed file in the zip *)
            ret (LeaveTo "about:blank")
        else
          let '(main, search, hash) := splitUrl url in
          paths <- gets blobUrlToInZipPath ;;
          match paths !! main with
          | Some inZipPath =>
              if JS.truthy inZipPath then
                rewritten <- gets rewrittenBlobUrl ;;
                if bool_decide (main ∈ rewritten) then ret Unhandled
                else
                  files <- gets inZipFiles ;;
                  match files !! inZipPath with
                  | Some f =>
                      if JS.includes ["text/html"; "application/xhtml+xml"]
                           (blob_type (file f))
                      then
                        chain <- newArray [] ;;
                        fetchedUrl <- fetchPage fuel (Some inZipPath) url
                                        chain ;;
                        ret (LoadInFrame (JS.opt_or fetchedUrl "about:blank"))
                      else ret Cancelled
                  | None =>
                      (* [f.file] raises once the default is prevented *)
                      ret Cancelled
                  end
              else ret Unhandled
          | None => ret Unhandled
          end
    end.

End Clicks.

End Viewer.

(** ** A browser for worked examples

    The properties below hold for every environment.  Where a property is
    applied to a concrete archive, the browser and the shared library are
    the following ones; they behave as the real ones on the inputs used:
    absolute URLs, and references made of a file name, a query or a
    fragment, none of which needs normalising. *)

Module Example.

Definition base : string := "chrome-extension://abcdefgh/viewer/!/".

(** The part before the first [c], and the part after it when [c]
    occurs. *)
Fixpoint cutOpt (c : ascii) (s : string) : string * option string :=
  match s with
  | EmptyString => (EmptyString, None)
  | String a s' =>
      if Ascii.eqb a c then (EmptyString, Some s')
      else let '(l, r) := cutOpt c s' in (String a l, r)
  end.

Definition components (s : string) : string * option string * option string :=
  let '(rest, fragment) := cutOpt "#" s in
  let '(path, query) := cutOpt "?" rest in
  (path, query, fragment).

Definition alpha (a : ascii) : bool :=
  let n := nat_of_ascii a in
  ((65 <=? n) && (n <=? 90)) || ((97 <=? n) && (n <=? 122)).

Definition schemeChar (a : ascii) : bool :=
  let n := nat_of_ascii a in
  alpha a || ((48 <=? n) && (n <=? 57)) || (n =? 43) || (n =? 45) || (n =? 46).

Fixpoint schemeRest (s : string) : bool :=
  match s with
  | EmptyString => false
  | String a s' =>
      if Ascii.eqb a ":" then true
      else if schemeChar a then schemeRest s' else false
  end.

(** Whether [s] starts with a scheme and a colon. *)
Definition hasScheme (s : string) : bool :=
  match s with
  | String a s' => alpha a && schemeRest s'
  | EmptyString => false
  end.

(** [s] up to its last slash. *)
Fixpoint dirname (s : string) : string :=
  match s with
  | EmptyString => EmptyString
  | String a s' =>
      if JS.has_char "/" s' then String a (dirname s')
      else if Ascii.eqb a "/" then "/" else EmptyString
  end.

(** [new URL(url, base)]: an absolute [url] stands for itself; any other
    one is resolved against an absolute [base], and cannot be resolved
    without one. *)
Definition URL_new (url : string) (base : option string) : option URL :=
  let '(path, query, fragment) := components url in
  if hasScheme path then
    Some {| url_main := path; url_query := query; url_fragment := fragment |}
  else
    match base with
    | None => None
    | Some b =>
        let '(bpath, bquery, _) := components b in
        if hasScheme bpath then
          if JS.truthy path then
            Some {| url_main := dirname bpath +:+ path; url_query := query;
                    url_fragment := fragment |}
          else
            Some {| url_main := bpath;
                    url_query := match query with
                                 | Some q => Some q
                                 | None => bquery
                                 end;
                    url_fragment := fragment |}
        else None
    end.

(** [scrapbook.parseHeaderRefresh] on [<seconds>;url=<target>] *)
Definition parseHeaderRefresh (content : string) : Refresh :=
  let '(t, rest) := JS.cut ";" content in
  {| refresh_time := t;
     refresh_url := if JS.startsWith rest ";url=" then Some (JS.slice rest 5)
                    else None |}.

(** The references of a style sheet whose only parentheses are those of
    its [url()]s: what stands between them, an import when [@import url]
    stands before. *)
Fixpoint cssScan (inside : option RefKind) (acc : string) (s : string)
    : list Part :=
  match s with
  | EmptyString => [Lit (String.rev acc)]
  | String a s' =>
      match inside with
      | Some k =>
          if Ascii.eqb a ")" then
            Ref k (String.rev acc) :: cssScan None (String a "") s'
          else cssScan inside (String a acc) s'
      | None =>
          if Ascii.eqb a "(" then
            Lit (String.rev (String a acc))
            :: cssScan (Some (if JS.startsWith acc "lru tropmi@"
                              then ImportUrl else BackgroundUrl)) "" s'
          else cssScan None (String a acc) s'
      end
  end.

Definition cssParts (s : string) : list Part := cssScan None "" s.

(** The [n]-th identifier: twelve decimal digits in the last group. *)
Definition getUuid (n : nat) : string :=
  let d := pretty n in
  "00000000-0000-4000-8000-"
  +:+ JS.slice ("000000000000" +:+ d) (String.length d).

Definition env : Env :=
  mkEnv base
    "chrome-extension://abcdefgh/core/reset.css"
    "data-scrapbook-meta-refresh-20200101000000000"
    false None URL_new (λ _, None) parseHeaderRefresh cssParts
    (λ s, [Ref BackgroundUrl s]) getUuid (λ s _, s).

(** An HTML file of the archive. *)
Definition html (root : Node) : ZipObj :=
  {| zip_dir := false;
     zip_file := {| blob_type := "text/html";
                    blob_body := Markup "<!DOCTYPE html>" root |} |}.

(** A file of the archive that is not markup. *)
Definition other (type text : string) : ZipObj :=
  {| zip_dir := false;
     zip_file := {| blob_type := type; blob_body := Bytes text |} |}.

(** A page with the given elements in its body. *)
Definition page (body : list Node) : Node :=
  Elem "html" [] [Elem "head" [] []; Elem "body" [] body].

(** The viewer once it has loaded [entries]. *)
Definition loaded (entries : list (string * ZipObj)) : Viewer :=
  match loadEntries None entries emptyViewer with
  | Some (_, st) => st
  | None => emptyViewer
  end.

(** Two pages that frame each other. *)
Definition pageA : Node := page [Elem "iframe" [("src", "B.html")] []].
Definition pageB : Node := page [Elem "iframe" [("src", "A.html")] []].
Definition framesAB : list (string * ZipObj) :=
  [("A.html", html pageA); ("B.html", html pageB)].

(** A page with a style sheet that imports a second one, which imports
    the first. *)
Definition importsAB : list (string * ZipObj) :=
  [("index.html",
    html (Elem "html" []
            [Elem "head" []
               [Elem "link" [("rel", "stylesheet"); ("href", "a.css")] []];
             Elem "body" [] []]));
   ("a.css", other "text/css" "@import url(b.css);");
   ("b.css", other "text/css" "@import url(a.css); p{color:red}")].

(** A page whose name has a comma and that refreshes to itself. *)
Definition refreshPage : Node :=
  Elem "html" []
    [Elem "head" []
       [Elem "meta" [("http-equiv", "refresh");
                     ("content", "5;url=a,b.html#top")] []];
     Elem "body" [] []].
Definition refreshSelf : list (string * ZipObj) :=
  [("a,b.html", html refreshPage)].

(** The text of the blob behind an object URL. *)
Definition textAt (st : Viewer) (n : nat) : option string :=
  match objectUrls st !! n with
  | Some b => match blob_body b with
              | Bytes t => Some t
              | Markup _ _ => None
              end
  | None => None
  end.

(** The result of a run, and the state it leaves. *)
Definition result {A} (m : M A) (st : Viewer) : option A := fst <$> m st.
Definition after {A} (m : M A) (st : Viewer) : Viewer :=
  match m st with Some (_, st') => st' | None => st end.

(** The markup of the blob behind an object URL. *)
Definition markupAt (st : Viewer) (n : nat) : option Node :=
  match objectUrls st !! n with
  | Some b => match blob_body b with
              | Markup _ root => Some root
              | Bytes _ => None
              end
  | None => None
  end.

End Example.

(** * Properties *)

(** ** Strings *)

Lemma prefix_app (a b : string) : String.prefix a (a +:+ b) = true.
Proof.
  induction a as [|c a IH]; simpl.
  - by destruct b.
  - destruct (ascii_dec c c); [exact IH | congruence].
Qed.

Lemma append_assoc (a b c : string) : (a +:+ b) +:+ c = a +:+ b +:+ c.
Proof.
  induction a as [|x a IH]; [done|].
  change (String x ((a +:+ b) +:+ c) = String x (a +:+ b +:+ c)).
  by rewrite IH.
Qed.

Lemma append_empty_r (a : string) : a +:+ "" = a.
Proof.
  induction a as [|x a IH]; [done|].
  change (String x (a +:+ "") = String x a). by rewrite IH.
Qed.

Lemma slice_app_length (a b : string) :
  JS.slice (a +:+ b) (String.length a) = b.
Proof. induction a as [|c a IH]; simpl; [by destruct b | exact IH]. Qed.

Lemma has_char_app (c : ascii) (a b : string) :
  JS.has_char c (a +:+ b) = JS.has_char c a || JS.has_char c b.
Proof.
  induction a as [|x a IH]; simpl; [done|].
  rewrite IH. by rewrite orb_assoc.
Qed.

Lemma split_nonempty (c : ascii) (s : string) : JS.split c s ≠ [].
Proof.
  induction s as [|a s IH]; simpl; [done|].
  destruct (Ascii.eqb a c); [done|].
  by destruct (JS.split c s).
Qed.

Lemma join_split (c : ascii) (s : string) : JS.join c (JS.split c s) = s.
Proof.
  induction s as [|a s IH]; simpl; [done|].
  destruct (Ascii.eqb a c) eqn:E.
  - apply Ascii.eqb_eq in E as ->.
    pose proof (split_nonempty c s).
    destruct (JS.split c s) as [|x xs] eqn:Es; [done|].
    simpl in *. by rewrite IH.
  - destruct (JS.split c s) as [|x xs] eqn:Es.
    + by destruct (split_nonempty c s).
    + destruct xs; simpl in *; by rewrite <- IH.
Qed.

Lemma split_no_sep (c : ascii) (s : string) :
  JS.has_char c s = false → JS.split c s = [s].
Proof.
  induction s as [|a s IH]; simpl; [done|].
  intros [Ha Hs]%orb_false_iff. rewrite Ha, (IH Hs). done.
Qed.

Lemma split_app_sep (c : ascii) (x s : string) :
  JS.has_char c x = false →
  JS.split c (x +:+ String c s) = x :: JS.split c s.
Proof.
  induction x as [|a x IH]; simpl.
  - intros _. by rewrite Ascii.eqb_refl.
  - intros [Ha Hx]%orb_false_iff. rewrite Ha, (IH Hx). done.
Qed.

Lemma split_join (c : ascii) (l : list string) :
  l ≠ [] → Forall (λ x, JS.has_char c x = false) l →
  JS.split c (JS.join c l) = l.
Proof.
  induction l as [|x l IH]; [done|].
  intros _ Hall. apply Forall_cons in Hall as [Hx Hl].
  destruct l as [|y l]; simpl.
  - by apply split_no_sep.
  - rewrite split_app_sep by done. f_equal. by apply IH.
Qed.

Lemma join_has_no (c sep : ascii) (l : list string) :
  Ascii.eqb sep c = false →
  Forall (λ x, JS.has_char c x = false) l →
  JS.has_char c (JS.join sep l) = false.
Proof.
  intros Hsep. induction 1 as [|x l Hx Hl IH]; [done|].
  destruct l as [|y l]; [exact Hx|].
  change (JS.has_char c (x +:+ String sep (JS.join sep (y :: l))) = false).
  rewrite has_char_app, Hx. cbn [JS.has_char orb]. by rewrite Hsep, IH.
Qed.

(** ** Percent-encoding *)

Lemma unreserved_not_percent (a : ascii) :
  Percent.unreserved a = true → Ascii.eqb a "%" = false.
Proof. by destruct a as [[] [] [] [] [] [] [] []]. Qed.

Lemma unreserved_not_slash (a : ascii) :
  Percent.unreserved a = true → Ascii.eqb a "/" = false.
Proof. by destruct a as [[] [] [] [] [] [] [] []]. Qed.

Lemma unreserved_not_hash (a : ascii) :
  Percent.unreserved a = true → Ascii.eqb a "#" = false.
Proof. by destruct a as [[] [] [] [] [] [] [] []]. Qed.

Lemma hexdigit_not_sep (a : ascii) :
  Ascii.eqb (Percent.hexdigit (nat_of_ascii a / 16)) "/" = false
  ∧ Ascii.eqb (Percent.hexdigit (nat_of_ascii a mod 16)) "/" = false
  ∧ Ascii.eqb (Percent.hexdigit (nat_of_ascii a / 16)) "#" = false
  ∧ Ascii.eqb (Percent.hexdigit (nat_of_ascii a mod 16)) "#" = false.
Proof. by destruct a as [[] [] [] [] [] [] [] []]. Qed.

Lemma hexval_hexdigit (a : ascii) :
  Percent.hexval (Percent.hexdigit (nat_of_ascii a / 16))
    = Some (nat_of_ascii a / 16)
  ∧ Percent.hexval (Percent.hexdigit (nat_of_ascii a mod 16))
    = Some (nat_of_ascii a mod 16)
  ∧ ascii_of_nat (16 * (nat_of_ascii a / 16) + nat_of_ascii a mod 16) = a.
Proof. by destruct a as [[] [] [] [] [] [] [] []]. Qed.

Lemma decode_encode (s : string) :
  Percent.decodeURIComponent (Percent.encodeURIComponent s) = s.
Proof.
  induction s as [|a s IH]; [done|].
  cbn [Percent.encodeURIComponent].
  destruct (Percent.unreserved a) eqn:E.
  - cbn [Percent.decodeURIComponent].
    rewrite (unreserved_not_percent a E). by rewrite IH.
  - destruct (hexval_hexdigit a) as (Hh & Hl & Ha).
    cbn [Percent.decodeURIComponent]. rewrite Ascii.eqb_refl, Hh, Hl, Ha.
    by rewrite IH.
Qed.

Lemma encode_has_no (c : ascii) (s : string) :
  (∀ a, Percent.unreserved a = true → Ascii.eqb a c = false) →
  (∀ a, Ascii.eqb (Percent.hexdigit (nat_of_ascii a / 16)) c = false
        ∧ Ascii.eqb (Percent.hexdigit (nat_of_ascii a mod 16)) c = false) →
  Ascii.eqb "%" c = false →
  JS.has_char c (Percent.encodeURIComponent s) = false.
Proof.
  intros Hu Hh Hp. induction s as [|a s IH]; [done|].
  cbn [Percent.encodeURIComponent].
  destruct (Percent.unreserved a) eqn:E; cbn [JS.has_char].
  - by rewrite (Hu a E), IH.
  - destruct (Hh a) as [-> ->]. by rewrite Hp, IH.
Qed.

Lemma encode_no_slash (s : string) :
  JS.has_char "/" (Percent.encodeURIComponent s) = false.
Proof.
  apply encode_has_no; [apply unreserved_not_slash | | done].
  intros a. destruct (hexdigit_not_sep a) as (? & ? & _). done.
Qed.

Lemma encode_no_hash (s : string) :
  JS.has_char "#" (Percent.encodeURIComponent s) = false.
Proof.
  apply encode_has_no; [apply unreserved_not_hash | | done].
  intros a. destruct (hexdigit_not_sep a) as (_ & _ & ? & ?). done.
Qed.

Lemma or_else_empty (s : string) : JS.or_else s "" = s.
Proof. by destruct s. Qed.

(** ** The path codec *)

Section PathCodec.

Variable env : Env.

Lemma inZipPathToUrl_startsWith (p : option string) :
  JS.startsWith (inZipPathToUrl env p) (virtualBase env) = true.
Proof. apply prefix_app. Qed.

Lemma hrefToInZipPath_inZipPathToUrl (p : string) :
  hrefToInZipPath env (inZipPathToUrl env (Some p)) = p.
Proof.
  unfold hrefToInZipPath, inZipPathToUrl. rewrite slice_app_length.
  simpl. rewrite or_else_empty.
  rewrite split_join.
  - rewrite map_map.
    rewrite (map_ext _ id) by (intros; apply decode_encode).
    rewrite map_id. apply join_split.
  - pose proof (split_nonempty "/" p). by destruct (JS.split "/" p).
  - apply Forall_map, Forall_forall. intros; apply encode_no_slash.
Qed.

(** C3.  Round trip of the path codec: the virtual URL made of an archive
    path starts with the virtual base, and stripping the base and
    percent-decoding each segment, as [parseUrl] does, gives the path
    back.  This holds for every path, whatever bytes it contains (spaces,
    percent signs, bytes of non-ASCII characters). *)
Theorem inZipPath_roundtrip (p : string) :
  JS.startsWith (inZipPathToUrl env (Some p)) (virtualBase env) = true
  ∧ hrefToInZipPath env (inZipPathToUrl env (Some p)) = p.
Proof.
  split; [apply inZipPathToUrl_startsWith | apply hrefToInZipPath_inZipPathToUrl].
Qed.

End PathCodec.

Example roundtrip_of_a_path :
  inZipPathToUrl Example.env (Some "my files/100%/ça,b.html")
  = "chrome-extension://abcdefgh/viewer/!/my%20files/100%25/%C3%A7a%2Cb.html"
  ∧ hrefToInZipPath Example.env
      "chrome-extension://abcdefgh/viewer/!/my%20files/100%25/%C3%A7a%2Cb.html"
    = "my files/100%/ça,b.html".
Proof. by vm_compute. Qed.

(** ** Reasoning about computations *)

Lemma bind_Some {A B} (m : M A) (k : A → M B) (st : Viewer) b st' :
  bind m k st = Some (b, st')
  ↔ ∃ a st1, m st = Some (a, st1) ∧ k a st1 = Some (b, st').
Proof.
  unfold bind. split.
  - destruct (m st) as [[a st1]|]; [eauto | done].
  - intros (a & st1 & -> & H). done.
Qed.

Lemma bind_assoc {A B C} (m : M A) (f : A → M B) (g : B → M C) (st : Viewer) :
  bind (bind m f) g st = bind m (λ a, bind (f a) g) st.
Proof. unfold bind. by destruct (m st) as [[a st1]|]. Qed.

Lemma fmapM_Some {A B} (f : A → B) (m : M A) (st : Viewer) b st' :
  fmapM f m st = Some (b, st') ↔ ∃ a, m st = Some (a, st') ∧ b = f a.
Proof.
  unfold fmapM. rewrite bind_Some. unfold ret. split.
  - intros (a & st1 & H & [= <- <-]). eauto.
  - intros (a & H & ->). eauto.
Qed.

Lemma ret_Some {A} (a : A) (st : Viewer) b st' :
  ret a st = Some (b, st') ↔ a = b ∧ st = st'.
Proof. unfold ret. split; [by intros [= -> ->] | by intros [-> ->]]. Qed.

Lemma gets_Some {A} (f : Viewer → A) (st : Viewer) b st' :
  gets f st = Some (b, st') ↔ f st = b ∧ st = st'.
Proof. unfold gets. split; [by intros [= -> ->] | by intros [-> ->]]. Qed.

(** Splits a hypothesis that a sequence of steps returned into the
    steps' own. *)
Ltac run_in H :=
  repeat match type of H with
  | bind _ _ _ = Some _ =>
      let a := fresh "a" in let st := fresh "st" in
      let H1 := fresh "Hstep" in
      apply bind_Some in H as (a & st & H1 & H)
  | fmapM _ _ _ = Some _ =>
      let a := fresh "a" in
      let H1 := fresh "Heq" in
      apply fmapM_Some in H as (a & H & H1)
  | ret _ _ = Some _ => apply ret_Some in H as [? ?]; simplify_eq
  | gets _ _ = Some _ => apply gets_Some in H as [? ?]; simplify_eq
  | viewer_parseUrl _ _ _ _ = Some _ =>
      unfold viewer_parseUrl in H
  end.

(** ** Attributes *)

Lemma lookup_setAttribute_eq (attrs : Attrs) (name value : string) :
  lookupAttribute (setAttribute attrs name value) name = Some value.
Proof.
  induction attrs as [|[k v] attrs IH]; simpl.
  - by rewrite decide_True.
  - destruct (decide (k = name)) as [->|Hne]; simpl.
    + by rewrite decide_True.
    + by rewrite decide_False.
Qed.

Lemma lookup_setAttribute_ne (attrs : Attrs) (name name' value : string) :
  name ≠ name' →
  lookupAttribute (setAttribute attrs name value) name'
  = lookupAttribute attrs name'.
Proof.
  intros Hne. induction attrs as [|[k v] attrs IH]; simpl.
  - by rewrite decide_False.
  - destruct (decide (k = name)) as [->|Hk]; simpl.
    + by rewrite !decide_False.
    + by rewrite IH.
Qed.

Lemma hasAttribute_lookup (attrs : Attrs) (name v : string) :
  lookupAttribute attrs name = Some v →
  hasAttribute attrs name = true ∧ getAttribute attrs name = v.
Proof. unfold hasAttribute, getAttribute. by intros ->. Qed.

(** ** The URL resolver *)

Section Resolver.

Variable env : Env.

Lemma parseUrl_unparsable files url refUrl :
  URL_new env url (JS.or_undefined refUrl) = None →
  parseUrl env files url refUrl = notInZip url.
Proof. unfold parseUrl. by intros ->. Qed.

Lemma parseUrl_missing files url refUrl u :
  URL_new env url (JS.or_undefined refUrl) = Some u →
  JS.startsWith (Url.href u) (virtualBase env) = true →
  files !! hrefToInZipPath env (Url.href (Url.clear_search_hash u)) = None →
  parseUrl env files url refUrl = notInZip url.
Proof. unfold parseUrl. by intros -> -> ->. Qed.

Lemma parseUrl_found files url refUrl u f :
  URL_new env url (JS.or_undefined refUrl) = Some u →
  JS.startsWith (Url.href u) (virtualBase env) = true →
  files !! hrefToInZipPath env (Url.href (Url.clear_search_hash u)) = Some f →
  parseUrl env files url refUrl =
    {| info_url := file_url f +:+ Url.hash u;
       info_virtualUrl :=
         Some (Url.href (Url.clear_search_hash u) +:+ Url.hash u);
       info_inZip := true;
       info_inZipPath :=
         Some (hrefToInZipPath env (Url.href (Url.clear_search_hash u)));
       info_mime := Some (blob_type (file f));
       info_search := Some (Url.search u);
       info_hash := Some (Url.hash u) |}.
Proof. unfold parseUrl. by intros -> -> ->. Qed.

Lemma parseUrl_external files url refUrl u :
  URL_new env url (JS.or_undefined refUrl) = Some u →
  JS.startsWith (Url.href u) (virtualBase env) = false →
  parseUrl env files url refUrl = notInZip (Url.href u).
Proof. unfold parseUrl. by intros -> ->. Qed.

(** When [parseUrl] says a reference is in the archive, the file is
    there. *)
Lemma parseUrl_inZip files url refUrl :
  info_inZip (parseUrl env files url refUrl) = true →
  ∃ path f, info_inZipPath (parseUrl env files url refUrl) = Some path
            ∧ files !! path = Some f.
Proof.
  unfold parseUrl.
  destruct (URL_new env url _) as [u|]; [|done].
  destruct (JS.startsWith _ _); [|done].
  destruct (files !! _) as [f|] eqn:E; [|done].
  simpl. eauto.
Qed.

(** C2.  [parseUrl] is a total function: the one operation of it that can
    raise, [new URL], is caught.  When the URL cannot be parsed against the
    reference URL, and when it parses to a URL under the virtual base whose
    decoded path has no entry in the store, the result is not in the
    archive and carries the original string unchanged. *)
Theorem parseUrl_degrades files url refUrl :
  (URL_new env url (JS.or_undefined refUrl) = None
   ∨ ∃ u, URL_new env url (JS.or_undefined refUrl) = Some u
          ∧ JS.startsWith (Url.href u) (virtualBase env) = true
          ∧ files !! hrefToInZipPath env (Url.href (Url.clear_search_hash u))
            = None) →
  info_inZip (parseUrl env files url refUrl) = false
  ∧ info_url (parseUrl env files url refUrl) = url
  ∧ parseUrl env files url refUrl = notInZip url.
Proof.
  intros [H | (u & H1 & H2 & H3)].
  - by rewrite parseUrl_unparsable.
  - by rewrite (parseUrl_missing _ _ _ u).
Qed.

End Resolver.

Lemma parseUrl_degrades_witness :
  (let files := inZipFiles (Example.loaded Example.framesAB) in
   parseUrl Example.env files "C.html" None = notInZip "C.html"
   ∧ parseUrl Example.env files "C.html#x"
       (Some (inZipPathToUrl Example.env (Some "A.html")))
     = notInZip "C.html#x").
Proof.
  split.
  - apply (parseUrl_degrades Example.env). left. reflexivity.
  - apply (parseUrl_degrades Example.env). right.
    eexists. split; [reflexivity|]. split; [reflexivity|].
    vm_compute. reflexivity.
Defined.

(** ** What a run may change

    A run only adds to the viewer's state: the store of files stays as it
    is, the two tables of object URLs and the browser's blobs only grow,
    and an array that exists is never written to again. *)

(** The tables are well formed: every URL mapped to a path was issued by
    the browser and maps to a path of the store, and every URL marked as
    rewritten is mapped to a path. *)
Record issued (st : Viewer) : Prop := mkIssued {
  issued_url : ∀ u p, blobUrlToInZipPath st !! u = Some p →
      ∃ n, n < length (objectUrls st) ∧ u = objectUrl n;
  issued_path : ∀ u p, blobUrlToInZipPath st !! u = Some p →
      is_Some (inZipFiles st !! p);
  issued_rewritten : ∀ u, u ∈ rewrittenBlobUrl st →
      is_Some (blobUrlToInZipPath st !! u);
}.

Record extends (st0 st : Viewer) : Prop := mkExtends {
  ext_files : inZipFiles st = inZipFiles st0;
  ext_paths : blobUrlToInZipPath st0 ⊆ blobUrlToInZipPath st;
  ext_rewritten : rewrittenBlobUrl st0 ⊆ rewrittenBlobUrl st;
  ext_urls : objectUrls st0 `prefix_of` objectUrls st;
  ext_arrays : ∀ a, a < length (arrays st0) → arrays st !! a = arrays st0 !! a;
}.

Definition Inv (st0 st : Viewer) : Prop := issued st ∧ extends st0 st.

(** Partial correctness of a computation. *)
Definition hoare {A} (P : Viewer → Prop) (m : M A) (Q : A → Viewer → Prop)
    : Prop :=
  ∀ st a st', P st → m st = Some (a, st') → Q a st'.

(** A computation that only adds to the state. *)
Definition stable {A} (m : M A) : Prop :=
  ∀ st0, hoare (Inv st0) m (λ _, Inv st0).

Lemma extends_refl st : extends st st.
Proof. by split. Qed.

Lemma Inv_refl st : issued st → Inv st st.
Proof. intros. split; [done | apply extends_refl]. Qed.

Lemma ext_heap_grows st0 st :
  extends st0 st → length (arrays st0) ≤ length (arrays st).
Proof.
  intros He. destruct (decide (length (arrays st0) = 0)) as [|Hne]; [lia|].
  assert (Hlt : length (arrays st0) - 1 < length (arrays st0)) by lia.
  pose proof (ext_arrays _ _ He _ Hlt) as Heq.
  apply lookup_lt_is_Some_2 in Hlt as [l Hl]. rewrite Hl in Heq.
  apply lookup_lt_Some in Heq. lia.
Qed.

Lemma extends_trans st0 st1 st2 :
  extends st0 st1 → extends st1 st2 → extends st0 st2.
Proof.
  intros H1 H2. split.
  - by rewrite (ext_files _ _ H2), (ext_files _ _ H1).
  - etrans; [apply (ext_paths _ _ H1) | apply (ext_paths _ _ H2)].
  - etrans; [apply (ext_rewritten _ _ H1) | apply (ext_rewritten _ _ H2)].
  - etrans; [apply (ext_urls _ _ H1) | apply (ext_urls _ _ H2)].
  - intros a Ha. rewrite <- (ext_arrays _ _ H1 a Ha).
    apply (ext_arrays _ _ H2). pose proof (ext_heap_grows _ _ H1). lia.
Qed.

Lemma Inv_trans st0 st1 st2 : Inv st0 st1 → Inv st1 st2 → Inv st0 st2.
Proof.
  intros [_ H1] [Hi H2]. split; [done | by eapply extends_trans].
Qed.

Lemma objectUrl_inj n m : objectUrl n = objectUrl m → n = m.
Proof.
  unfold objectUrl. intros H. apply String.app_inj in H.
  by apply pretty_nat_inj in H.
Qed.

Lemma objectUrl_truthy n : JS.truthy (objectUrl n) = true.
Proof. done. Qed.

Lemma issued_fresh st :
  issued st →
  blobUrlToInZipPath st !! objectUrl (length (objectUrls st)) = None.
Proof.
  intros Hi. destruct (blobUrlToInZipPath st !! _) as [p|] eqn:E; [|done].
  apply (issued_url _ Hi) in E as (n & Hn & Heq).
  apply objectUrl_inj in Heq. lia.
Qed.

Lemma stable_ret {A} (a : A) : stable (ret a).
Proof. intros st0 st b st' HI [-> ->]%ret_Some. done. Qed.

Lemma stable_bind {A B} (m : M A) (k : A → M B) :
  stable m → (∀ a, stable (k a)) → stable (bind m k).
Proof.
  intros Hm Hk st0 st b st' HI (a & st1 & H1 & H2)%bind_Some.
  eapply Hk; [|exact H2]. eapply Hm; [|exact H1]. done.
Qed.

Lemma stable_fmapM {A B} (f : A → B) (m : M A) : stable m → stable (fmapM f m).
Proof. intros Hm. apply stable_bind; [done | intros; apply stable_ret]. Qed.

Lemma stable_gets {A} (f : Viewer → A) : stable (gets f).
Proof. intros st0 st b st' HI [_ ->]%gets_Some. done. Qed.

Lemma stable_unfinished {A} : stable (@unfinished A).
Proof. by intros st0 st b st' HI. Qed.

Lemma stable_readArray a : stable (readArray a).
Proof. apply stable_gets. Qed.

Lemma stable_parseUrl env url refUrl : stable (viewer_parseUrl env url refUrl).
Proof. apply stable_gets. Qed.

Lemma stable_createObjectURL b : stable (createObjectURL b).
Proof.
  intros st0 st u st' [Hi He] [= <- <-]. split.
  - destruct Hi as [H1 H2 H3]. split; simpl; [|done..].
    intros u p Hu. destruct (H1 u p Hu) as (n & Hn & ->).
    exists n. rewrite length_app. simpl. split; [lia | done].
  - destruct He. split; simpl; try done.
    by apply prefix_app_r.
Qed.

Lemma stable_newArray l : stable (newArray l).
Proof.
  intros st0 st a st' [Hi He] [= <- <-]. split.
  - by destruct Hi.
  - pose proof (ext_heap_grows _ _ He). destruct He. split; simpl; try done.
    intros a Ha. rewrite lookup_app_l by lia. auto.
Qed.

Lemma stable_JSON_clone a : stable (JSON_clone a).
Proof.
  apply stable_bind; [apply stable_readArray | intros; apply stable_newArray].
Qed.

Lemma stable_nextUuid env : stable (nextUuid env).
Proof.
  intros st0 st a st' [Hi He] [= <- <-].
  split; [by destruct Hi | by destruct He].
Qed.

Lemma stable_set_deApiScriptUrl u : stable (set_deApiScriptUrl u).
Proof.
  intros st0 st a st' [Hi He] [= _ <-].
  split; [by destruct Hi | by destruct He].
Qed.

(** Pushing onto an array made after [st0] leaves what [st0] had. *)
Lemma Inv_push st0 st a x :
  Inv st0 st → length (arrays st0) ≤ a →
  Inv st0 (set_arrays (alter (λ l, l ++ [x]) a) st).
Proof.
  intros [Hi He] Ha. split.
  - by destruct Hi.
  - destruct He. split; simpl; try done.
    intros b Hb. rewrite list_lookup_alter_ne by lia. auto.
Qed.

(** A child chain: a copy of the parent's array, then a [push] onto the
    copy. *)
Lemma stable_child_chain {B} (c : loc) (x : string) (k : loc → M B) :
  (∀ a, stable (k a)) →
  stable (a <- JSON_clone c ;; push a x ;;; k a).
Proof.
  intros Hk st0 st b st' HI H.
  unfold JSON_clone, readArray, newArray, push, modify, gets, bind in H.
  eapply Hk; [|exact H].
  apply Inv_push.
  - eapply (stable_newArray _ st0 st); [done | reflexivity].
  - apply ext_heap_grows. by destruct HI.
Qed.

Lemma childChain_run (c : loc) (x : string) (st : Viewer) :
  childChain c x st
  = Some (length (arrays st),
          set_arrays (λ h, h ++ [chainAt st c ++ [x]]) st).
Proof.
  unfold childChain, JSON_clone, readArray, newArray, push, modify, gets,
    bind, ret, chainAt, set_arrays. simpl. do 3 f_equal.
  by rewrite <- (Nat.add_0_r (length (arrays st))), alter_app_r.
Qed.

Lemma stable_childChain (c : loc) (x : string) : stable (childChain c x).
Proof. apply stable_child_chain. intros; apply stable_ret. Qed.

(** Registering a rewritten file: a fresh object URL, mapped to a path of
    the store and marked as rewritten. *)
Lemma Inv_register st0 st b path :
  Inv st0 st → is_Some (inZipFiles st !! path) →
  ∀ r st',
    (u <- createObjectURL b ;;
     blobUrlToInZipPath_set u path ;;;
     rewrittenBlobUrl_add u ;;;
     ret (Some u)) st = Some (r, st') →
    Inv st0 st'
    ∧ r = Some (objectUrl (length (objectUrls st)))
    ∧ blobUrlToInZipPath st' !! objectUrl (length (objectUrls st)) = Some path
    ∧ objectUrl (length (objectUrls st)) ∈ rewrittenBlobUrl st'
    ∧ objectUrls st' = objectUrls st ++ [b].
Proof.
  intros [Hi He] Hpath r st' H.
  unfold createObjectURL, blobUrlToInZipPath_set, rewrittenBlobUrl_add,
    modify, bind, ret in H.
  injection H as <- <-.
  pose proof (issued_fresh _ Hi) as Hfresh.
  split; [|split; [done|split; [|split]]]; simpl.
  - split.
    + destruct Hi as [H1 H2 H3]. split; simpl.
      * intros u p. rewrite lookup_insert. case_decide as Hu.
        -- intros _. exists (length (objectUrls st)). rewrite length_app.
           simpl. split; [lia | done].
        -- intros Hp. destruct (H1 u p Hp) as (n & Hn & ->).
           exists n. rewrite length_app. simpl. split; [lia | done].
      * intros u p. rewrite lookup_insert. case_decide as Hu.
        -- by intros [= <-].
        -- apply H2.
      * intros u. rewrite elem_of_union, elem_of_singleton.
        rewrite lookup_insert. case_decide as Hu; [by eauto|].
        intros [->|Hin]; [done | by apply H3].
    + destruct He. split; simpl; try done.
      * etrans; [done|]. by apply insert_subseteq.
      * set_solver.
      * by apply prefix_app_r.
  - by rewrite lookup_insert_eq.
  - set_solver.
  - done.
Qed.

Ltac stab_step :=
  first
    [ assumption
    | apply stable_ret | apply stable_gets | apply stable_unfinished
    | apply stable_readArray | apply stable_parseUrl
    | apply stable_createObjectURL | apply stable_newArray
    | apply stable_JSON_clone | apply stable_nextUuid
    | apply stable_set_deApiScriptUrl | apply stable_childChain
    | apply stable_child_chain; intros ?
    | apply stable_fmapM
    | apply stable_bind; [| intros ?]
    | match goal with
      | |- stable (if ?b then _ else _) => destruct b
      | |- stable (match ?x with _ => _ end) => destruct x
      | |- stable (let '(_, _) := ?x in _) => destruct x
      end ].

Ltac stab := repeat stab_step.

Section Stability.

Variable env : Env.

Lemma fetchFile_records inZipPath f chain st u st' :
  fetchFile env inZipPath (Some f) chain st = Some (Some u, st') →
  ∃ path, inZipPath = Some path
    ∧ is_Some (inZipFiles st !! path)
    ∧ blobUrlToInZipPath st' !! u = Some path
    ∧ u ∈ rewrittenBlobUrl st'
    ∧ ∃ n, u = objectUrl n.
Proof.
  unfold fetchFile. intros H. apply bind_Some in H as (files & st1 & H1 & H).
  apply gets_Some in H1 as [<- <-].
  destruct inZipPath as [path|]; [|done].
  destruct (inZipFiles st !! path) as [e|] eqn:E; [|done].
  apply bind_Some in H as (b & st2 & _ & H).
  unfold createObjectURL, blobUrlToInZipPath_set, rewrittenBlobUrl_add,
    modify, bind, ret in H.
  injection H as <- <-. exists path. simpl.
  split; [done|]. split; [done|]. split; [by rewrite lookup_insert_eq|].
  split; [set_solver | eauto].
Qed.

Lemma fetchFile_plain inZipPath chain st :
  fetchFile env inZipPath None chain st
  = Some (file_url <$> (inZipPath ≫= (inZipFiles st !!.)), st).
Proof.
  unfold fetchFile, bind, gets, ret.
  destruct inZipPath as [path|]; [|done]. simpl.
  by destruct (inZipFiles st !! path).
Qed.

Lemma stable_fetchFile inZipPath rewriteFunc chain :
  (∀ f, rewriteFunc = Some f → ∀ params, stable (f params)) →
  stable (fetchFile env inZipPath rewriteFunc chain).
Proof.
  intros Hrf st0 st r st' HI H. unfold fetchFile in H.
  apply bind_Some in H as (files & st1 & H1 & H).
  apply gets_Some in H1 as [<- <-].
  destruct inZipPath as [path|]; [|by apply ret_Some in H as [_ <-]].
  destruct (inZipFiles st !! path) as [e|] eqn:E;
    [|by apply ret_Some in H as [_ <-]].
  destruct rewriteFunc as [f|]; [|by apply ret_Some in H as [_ <-]].
  apply bind_Some in H as (b & st2 & H2 & H).
  assert (HI2 : Inv st0 st2) by (eapply (Hrf f eq_refl); [exact HI | exact H2]).
  eapply Inv_register; [exact HI2 | | exact H].
  rewrite (ext_files _ _ (proj2 HI2)), <- (ext_files _ _ (proj2 HI)), E. eauto.
Qed.

Lemma stable_ComplexUrlFetcher_new refUrl parent :
  stable (ComplexUrlFetcher_new refUrl parent).
Proof.
  intros st0 st r st' HI H. unfold ComplexUrlFetcher_new in H.
  destruct (JS.truthy refUrl).
  - destruct parent as [a|].
    + exact (stable_child_chain a _ _ (λ _, stable_ret _) st0 st r st' HI H).
    + rewrite bind_assoc in H.
      refine (stable_bind _ _ (stable_newArray _) _ st0 st r st' HI H).
      intros a. apply stable_child_chain. intros; apply stable_ret.
  - refine (stable_bind _ _ _ _ st0 st r st' HI H).
    + destruct parent; stab.
    + intros; stab.
Qed.

Lemma stable_getUrlHash this url import : stable (getUrlHash env this url import).
Proof. unfold getUrlHash. stab. Qed.

Lemma stable_rewriteCssText cssText this : stable (rewriteCssText env cssText this).
Proof.
  unfold rewriteCssText. generalize (cssParts env cssText). intros parts.
  revert this. induction parts as [|[s|k u] parts IH]; intros this; simpl.
  - stab.
  - apply stable_bind; [apply IH | intros; stab].
  - apply stable_bind; [apply stable_getUrlHash | intros].
    apply stable_bind; [apply IH | intros; stab].
Qed.

Section Stylesheet.

Variable processCssFile_rec : RewriteFunc.
Hypothesis stable_rec : ∀ params, stable (processCssFile_rec params).

Lemma stable_startFetch this key :
  stable (startFetch env processCssFile_rec this key).
Proof.
  unfold startFetch. apply stable_bind; [stab | intros chain].
  destruct (lookupKey _ _) as [e|]; [|stab].
  apply stable_bind; [stab | intros info].
  destruct (_ && _); [stab|].
  apply stable_bind; [|intros; stab].
  apply stable_fetchFile. intros f Hf params.
  destruct (entry_import e); [|done]. injection Hf as <-. apply stable_rec.
Qed.

Lemma stable_startFetches this :
  stable (startFetches env processCssFile_rec this).
Proof.
  unfold startFetches. generalize (map fst (urlHash this)). intros keys.
  revert this. induction keys as [|key keys IH]; intros this; simpl.
  - stab.
  - apply stable_bind; [apply stable_startFetch | intros].
    apply stable_bind; [apply IH | intros; stab].
Qed.

Lemma stable_processCssText cssText refUrl chain :
  stable (processCssText env processCssFile_rec cssText refUrl chain).
Proof.
  unfold processCssText.
  apply stable_bind; [apply stable_ComplexUrlFetcher_new | intros].
  apply stable_bind; [apply stable_rewriteCssText | intros].
  apply stable_bind; [apply stable_startFetches | intros; stab].
Qed.

Lemma stable_processCssFile_body params :
  stable (processCssFile_body env processCssFile_rec params).
Proof.
  unfold processCssFile_body, rewriteCssFile.
  apply stable_bind; [apply stable_processCssText | intros; stab].
Qed.

End Stylesheet.

Lemma stable_processCssFile fuel params : stable (processCssFile env fuel params).
Proof.
  revert params. induction fuel as [|n IH]; intros params; simpl.
  - apply stable_unfinished.
  - by apply stable_processCssFile_body.
Qed.

End Stability.

(** Induction on a node with the property known of its children. *)
Lemma Node_children_ind (P : Node → Prop) :
  (∀ s, P (Text s)) →
  (∀ name attrs cs, Forall P cs → P (Elem name attrs cs)) →
  ∀ n, P n.
Proof.
  intros HT HE. fix IH 1. intros [name attrs cs | s]; [|apply HT].
  apply HE. induction cs as [|c cs IHcs]; constructor; [apply IH | exact IHcs].
Qed.

Section DocumentStability.

Variable env : Env.
Variable fetchPage_rec : option string → string → loc → M (option string).
Variable processCssFile_rec : RewriteFunc.
Hypothesis stable_fetchPage_rec :
  ∀ inZipPath url chain, stable (fetchPage_rec inZipPath url chain).
Hypothesis stable_processCssFile_rec :
  ∀ params, stable (processCssFile_rec params).

Variable inZipPath : option string.
Variable recurseChain : loc.

Lemma stable_rewriteUrl url over : stable (rewriteUrl env inZipPath url over).
Proof. unfold rewriteUrl. stab. Qed.

Lemma stable_rewriteAttr attrs name :
  stable (rewriteAttr env inZipPath attrs name).
Proof.
  unfold rewriteAttr. destruct (hasAttribute _ _); [|stab].
  apply stable_bind; [apply stable_rewriteUrl | intros; stab].
Qed.

Lemma stable_rewriteSrcsetAttr attrs name :
  stable (rewriteSrcsetAttr env inZipPath attrs name).
Proof. unfold rewriteSrcsetAttr. stab. Qed.

Lemma stable_rewriteLink attrs name :
  stable (rewriteLink env inZipPath attrs name).
Proof. unfold rewriteLink. stab. Qed.

Lemma stable_rewriteMetaRefresh attrs :
  stable (rewriteMetaRefresh env fetchPage_rec inZipPath recurseChain attrs).
Proof.
  unfold rewriteMetaRefresh.
  destruct (refresh_url _) as [target|]; [|stab].
  destruct (JS.truthy target); [|stab].
  apply stable_bind; [stab | intros info].
  destruct (splitUrlByAnchor _) as [targetPage targetPageHash].
  destruct (bool_decide _); [|stab].
  apply stable_bind; [stab | intros chain].
  destruct (JS.includes _ _); [stab|].
  destruct (info_inZip info); [|stab].
  apply stable_bind; [apply stable_childChain | intros a].
  apply stable_bind; [apply stable_fetchPage_rec | intros; stab].
Qed.

Lemma stable_rewriteMeta attrs :
  stable (rewriteMeta env fetchPage_rec inZipPath recurseChain attrs).
Proof.
  unfold rewriteMeta. destruct (_ && _); [apply stable_rewriteMetaRefresh|].
  destruct (_ && _); [|stab]. destruct (JS.includes _ _); [|stab].
  apply stable_bind; [apply stable_rewriteUrl | intros; stab].
Qed.

Lemma stable_rewriteLinkElement attrs :
  stable (rewriteLinkElement env processCssFile_rec inZipPath attrs).
Proof.
  unfold rewriteLinkElement. destruct (hasAttribute _ _); [|stab].
  destruct (relStylesheet _).
  - apply stable_bind; [stab | intros info].
    apply stable_bind; [stab | intros chain].
    apply stable_bind; [|intros; stab].
    apply stable_fetchFile. intros f [= <-]. apply stable_processCssFile_rec.
  - apply stable_bind; [apply stable_rewriteUrl | intros; stab].
Qed.

Lemma stable_rewriteFrame attrs :
  stable (rewriteFrame env fetchPage_rec inZipPath recurseChain attrs).
Proof.
  unfold rewriteFrame. destruct (hasAttribute _ _); [|stab].
  apply stable_bind; [apply stable_childChain | intros a].
  apply stable_bind; [stab | intros info].
  apply stable_bind; [stab | intros chain].
  destruct (_ && _); [stab|].
  apply stable_bind; [apply stable_fetchPage_rec | intros; stab].
Qed.

Lemma stable_localize attrs name : stable (localize env attrs name).
Proof. unfold localize. stab. Qed.

Lemma stable_rewriteScript attrs text :
  stable (rewriteScript env inZipPath attrs text).
Proof.
  unfold rewriteScript. destruct (hasAttribute _ _); [|stab].
  apply stable_bind; [apply stable_rewriteUrl | intros url].
  apply stable_bind; [apply stable_localize | intros; stab].
Qed.

Lemma stable_rewritePlugin attrs name :
  stable (rewritePlugin env inZipPath attrs name).
Proof.
  unfold rewritePlugin. destruct (hasAttribute _ _); [|stab].
  apply stable_bind; [apply stable_rewriteAttr | intros; apply stable_localize].
Qed.

Lemma stable_rewriteStyleAttr r :
  stable (rewriteStyleAttr env processCssFile_rec inZipPath recurseChain r).
Proof.
  unfold rewriteStyleAttr. destruct (hasAttribute _ _); [|stab].
  apply stable_bind; [by apply stable_processCssText | intros; stab].
Qed.

Ltac stab_doc :=
  repeat first
    [ apply stable_rewriteMeta | apply stable_rewriteLinkElement
    | apply stable_rewriteScript | apply stable_rewriteAttr
    | apply stable_rewriteSrcsetAttr | apply stable_rewriteFrame
    | apply stable_rewriteLink | apply stable_rewritePlugin
    | apply stable_rewriteStyleAttr
    | by apply stable_processCssText
    | stab_step ].

Lemma stable_rewriteByName name attrs text :
  stable (rewriteByName env fetchPage_rec processCssFile_rec inZipPath
            recurseChain name attrs text).
Proof. unfold rewriteByName. stab_doc. Qed.

Lemma stable_rewriteNode nodeName attrs text rootName :
  stable (rewriteNode env fetchPage_rec processCssFile_rec inZipPath
            recurseChain nodeName attrs text rootName).
Proof.
  unfold rewriteNode. destruct (decide _); [stab_doc|].
  destruct (decide _); [stab_doc|].
  apply stable_bind; [apply stable_rewriteByName | intros].
  apply stable_rewriteStyleAttr.
Qed.

Lemma stable_rewriteRecursively elem :
  ∀ rootName,
    stable (rewriteRecursively env fetchPage_rec processCssFile_rec inZipPath
              recurseChain elem rootName).
Proof.
  induction elem as [s | name attrs cs IH] using Node_children_ind;
    intros rootName; simpl.
  - apply stable_ret.
  - apply stable_bind; [apply stable_rewriteNode | intros r].
    apply stable_bind; [|intros; stab].
    destruct (r_cleared r); [stab|].
    generalize (if bool_decide (JS.toLowerCase name ∈ ["svg"; "math"])
                then JS.toLowerCase name else rootName).
    intros root. induction IH as [|c cs Hc _ IHcs]; [stab|].
    apply stable_bind; [apply Hc | intros].
    apply stable_bind; [apply IHcs | intros; stab].
Qed.

Lemma stable_insertDeApiScript root : stable (insertDeApiScript env root).
Proof. unfold insertDeApiScript. stab. Qed.

Lemma stable_parseDocument doc :
  stable (parseDocument env fetchPage_rec processCssFile_rec inZipPath
            recurseChain doc).
Proof.
  unfold parseDocument.
  apply stable_bind; [apply stable_rewriteRecursively | intros root].
  destruct (JS.includes _ _); [|stab].
  apply stable_bind; [|intros; stab].
  destruct (hasCsp env); [apply stable_insertDeApiScript | stab].
Qed.

End DocumentStability.

Section PageStability.

Variable env : Env.

Lemma stable_pageRewriteFunc fetchPage_rec processCssFile_rec inZipPath params :
  (∀ inZipPath url chain, stable (fetchPage_rec inZipPath url chain)) →
  (∀ params, stable (processCssFile_rec params)) →
  stable (pageRewriteFunc env fetchPage_rec processCssFile_rec inZipPath params).
Proof.
  intros Hfp Hpcf. unfold pageRewriteFunc.
  destruct (JS.includes _ _); [|stab].
  destruct (readFileAsDocument _); [|stab].
  apply stable_bind; [by apply stable_parseDocument | intros; stab].
Qed.

Lemma stable_fetchPage_body fetchPage_rec processCssFile_rec inZipPath url chain :
  (∀ inZipPath url chain, stable (fetchPage_rec inZipPath url chain)) →
  (∀ params, stable (processCssFile_rec params)) →
  stable (fetchPage_body env fetchPage_rec processCssFile_rec inZipPath url
            chain).
Proof.
  intros Hfp Hpcf. unfold fetchPage_body.
  apply stable_bind; [|intros; stab].
  apply stable_fetchFile. intros f [= <-] params.
  by apply stable_pageRewriteFunc.
Qed.

(** Every run of [fetchPage] only adds to the state. *)
Lemma stable_fetchPage fuel :
  ∀ inZipPath url chain, stable (fetchPage env fuel inZipPath url chain).
Proof.
  induction fuel as [|n IH]; intros inZipPath url chain; simpl.
  - apply stable_unfinished.
  - apply stable_fetchPage_body; [exact IH | apply stable_processCssFile].
Qed.

End PageStability.

(** ** Loading the archive *)

Lemma issued_empty : issued emptyViewer.
Proof.
  split; simpl.
  - intros u p H. by rewrite lookup_empty in H.
  - intros u p H. by rewrite lookup_empty in H.
  - intros u H. set_solver.
Qed.

Lemma loadEntries_issued dir entries st :
  issued st →
  ∃ st', loadEntries dir entries st = Some (tt, st') ∧ issued st'.
Proof.
  revert st. induction entries as [|[path z] entries IH]; intros st Hi.
  - exists st. done.
  - cbn [loadEntries].
    set (skip := match dir with
                 | Some d => JS.truthy d && negb (JS.startsWith path (d +:+ "/"))
                 | None => false
                 end).
    destruct (zip_dir z).
    { destruct (IH st Hi) as (st' & H & Hi'). exists st'. by rewrite <- H. }
    destruct skip.
    { destruct (IH st Hi) as (st' & H & Hi'). exists st'. by rewrite <- H. }
    unfold createObjectURL, inZipFiles_set, blobUrlToInZipPath_set, modify,
      bind, ret. simpl.
    apply IH. pose proof (issued_fresh _ Hi) as Hfresh.
    destruct Hi as [H1 H2 H3]. split; simpl.
    + intros u p. rewrite lookup_insert. case_decide as Hu.
      * intros _. exists (length (objectUrls st)). rewrite length_app.
        simpl. split; [lia | done].
      * intros Hp. destruct (H1 u p Hp) as (n & Hn & ->).
        exists n. rewrite length_app. simpl. split; [lia | done].
    + intros u p. rewrite lookup_insert. case_decide as Hu.
      * intros [= <-]. rewrite lookup_insert_eq. eauto.
      * intros Hp. rewrite lookup_insert. case_decide; [eauto|]. by eapply H2.
    + intros u Hu. rewrite lookup_insert. case_decide; [eauto|]. by apply H3.
Qed.

Section Fetch.

Variable env : Env.

(** The states the viewer reaches are well formed. *)
Lemma init_issued fuel dir indexFile hash entries r st :
  init env fuel dir indexFile hash entries emptyViewer = Some (r, st) →
  issued st.
Proof.
  unfold init. intros H.
  apply bind_Some in H as ([] & st1 & H1 & H).
  apply bind_Some in H as (c & st2 & H2 & H).
  destruct (loadEntries_issued dir entries emptyViewer issued_empty)
    as (st1' & H1' & Hi1).
  rewrite H1 in H1'. injection H1' as <-.
  assert (HI2 : Inv st1 st2).
  { eapply stable_newArray; [apply Inv_refl; exact Hi1 | exact H2]. }
  assert (HI : Inv st1 st).
  { eapply stable_fetchPage; [exact HI2 | exact H]. }
  by destruct HI.
Qed.

(** A run of [fetchPage] keeps what the tables hold and what every array
    holds. *)
Lemma fetchPage_keeps fuel inZipPath url chain st r st' :
  issued st →
  fetchPage env fuel inZipPath url chain st = Some (r, st') →
  issued st' ∧ extends st st'.
Proof.
  intros Hi H. eapply stable_fetchPage; [apply Inv_refl; exact Hi | exact H].
Qed.

(** C8.  Locators are issued idempotently.  Without a rewrite function
    [fetchFile] returns the locator the store holds for the path, [null]
    for a path the store does not have, and leaves the state as it is; so
    two calls in a row return the same value.  A path absent from the
    store gives [null] whatever the rewrite function.  Since a run of
    [fetchPage] never changes the store, the locator is also the same
    after any such run. *)
Theorem fetchFile_idempotent (path : string) (c1 c2 : loc) (st : Viewer) :
  (a <- fetchFile env (Some path) None c1 ;;
   b <- fetchFile env (Some path) None c2 ;;
   ret (a, b)) st
  = Some ((file_url <$> inZipFiles st !! path,
           file_url <$> inZipFiles st !! path), st)
  ∧ (∀ rewriteFunc,
       inZipFiles st !! path = None →
       fetchFile env (Some path) rewriteFunc c1 st = Some (None, st))
  ∧ (∀ fuel inZipPath url chain r st',
       issued st →
       fetchPage env fuel inZipPath url chain st = Some (r, st') →
       fetchFile env (Some path) None c2 st'
       = Some (file_url <$> inZipFiles st !! path, st')).
Proof.
  split; [|split].
  - unfold bind. rewrite !fetchFile_plain. done.
  - intros rf Hnone. unfold fetchFile, bind, gets. by rewrite Hnone.
  - intros fuel ip url chain r st' Hi H.
    destruct (fetchPage_keeps _ _ _ _ _ _ _ Hi H) as [_ He].
    rewrite fetchFile_plain. simpl. by rewrite (ext_files _ _ He).
Qed.

(** C9.  Provenance of rewritten locators.  A locator that [fetchFile]
    issues for a rewritten file is the URL of a path of the store, is
    recorded in [blobUrlToInZipPath] with that path and is marked in
    [rewrittenBlobUrl]; and no later run of [fetchPage] removes or
    changes the record, so the path can always be recovered. *)
Theorem rewritten_locator_recorded inZipPath f chain st u st' :
  fetchFile env inZipPath (Some f) chain st = Some (Some u, st') →
  ∃ path, inZipPath = Some path
    ∧ is_Some (inZipFiles st !! path)
    ∧ blobUrlToInZipPath st' !! u = Some path
    ∧ u ∈ rewrittenBlobUrl st'
    ∧ ∀ fuel inZipPath' url chain' r st'',
        issued st' →
        fetchPage env fuel inZipPath' url chain' st' = Some (r, st'') →
        blobUrlToInZipPath st'' !! u = Some path ∧ u ∈ rewrittenBlobUrl st''.
Proof.
  intros H. apply fetchFile_records in H as (path & -> & Hp & Hu & Hr & _).
  exists path. repeat split; try done.
  - destruct (fetchPage_keeps _ _ _ _ _ _ _ H H0) as [_ He].
    eapply lookup_weaken; [exact Hu | apply (ext_paths _ _ He)].
  - destruct (fetchPage_keeps _ _ _ _ _ _ _ H H0) as [_ He].
    by apply (ext_rewritten _ _ He).
Qed.

(** The tables stay well formed when the rewrite function only adds to
    the state. *)
Lemma fetchFile_issued inZipPath rewriteFunc chain st r st' :
  (∀ f, rewriteFunc = Some f → ∀ params, stable (f params)) →
  issued st →
  fetchFile env inZipPath rewriteFunc chain st = Some (r, st') →
  issued st'.
Proof.
  intros Hf Hi H.
  by destruct (stable_fetchFile env _ _ _ Hf st st r st' (Inv_refl _ Hi) H).
Qed.

(** Every locator marked as rewritten in a state the viewer reaches maps
    to a path of the store. *)
Lemma rewritten_has_path fuel dir indexFile hash entries r st u :
  init env fuel dir indexFile hash entries emptyViewer = Some (r, st) →
  u ∈ rewrittenBlobUrl st →
  ∃ path, blobUrlToInZipPath st !! u = Some path
          ∧ is_Some (inZipFiles st !! path).
Proof.
  intros H Hu. apply init_issued in H as [H1 H2 H3].
  destruct (H3 u Hu) as [path Hp]. exists path. eauto.
Qed.

Lemma cut_no_sep (c : ascii) (s t : string) :
  JS.has_char c s = false →
  JS.cut c (s +:+ t)
  = match t with
    | EmptyString => (s, EmptyString)
    | String a t' => if Ascii.eqb a c then (s, t)
                     else let '(l, r) := JS.cut c t in (s +:+ l, r)
    end.
Proof.
  induction s as [|x s IH]; simpl.
  - intros _. destruct t as [|a t']; [done|]. simpl.
    destruct (Ascii.eqb a c); [done|]. by destruct (JS.cut c t').
  - intros [Hx Hs]%orb_false_iff. rewrite Hx, (IH Hs).
    destruct t as [|a t']; [done|].
    destruct (Ascii.eqb a c); [done|]. by destruct (JS.cut c (String a t')).
Qed.

Lemma cut_absent (c : ascii) (s : string) :
  JS.has_char c s = false → JS.cut c s = (s, EmptyString).
Proof.
  induction s as [|x s IH]; simpl; [done|].
  intros [Hx Hs]%orb_false_iff. by rewrite Hx, (IH Hs).
Qed.

(** A URL made of a main part, a query and a fragment is split into
    them. *)
Lemma splitUrl_parts (main search hash : string) :
  JS.has_char "?" main = false → JS.has_char "#" main = false →
  (search = "" ∨ ∃ q, search = "?" +:+ q) → JS.has_char "#" search = false →
  (hash = "" ∨ ∃ f, hash = "#" +:+ f) →
  splitUrl (main +:+ search +:+ hash) = (main, search, hash).
Proof.
  intros Hq Hh Hs Hsh Hf. unfold splitUrl.
  assert (Hcut : JS.cut "#" (main +:+ search +:+ hash)
                 = (main +:+ search, hash)).
  { rewrite <- append_assoc.
    rewrite cut_no_sep by (by rewrite has_char_app, Hh, Hsh).
    destruct Hf as [-> | [f ->]]; [done|]. done. }
  rewrite Hcut.
  rewrite cut_no_sep by done.
  destruct Hs as [-> | [q ->]]; done.
Qed.

(** C10.  [fetchPage] drops the query of the requested URL.  For a URL
    made of a main part, a query and a fragment (either possibly empty),
    the value returned is what [fetchFile] returned for the page: [null]
    as it is, a locator with the fragment, and nothing else, appended. *)
Theorem fetchPage_keeps_only_fragment fuel inZipPath (main search hash : string)
    chain st r st' :
  JS.has_char "?" main = false → JS.has_char "#" main = false →
  (search = "" ∨ ∃ q, search = "?" +:+ q) → JS.has_char "#" search = false →
  (hash = "" ∨ ∃ f, hash = "#" +:+ f) →
  fetchPage env fuel inZipPath (main +:+ search +:+ hash) chain st
    = Some (r, st') →
  ∃ n fetched,
    fuel = S n
    ∧ fetchFile env inZipPath
        (Some (pageRewriteFunc env (fetchPage env n) (processCssFile env n)
                 inZipPath))
        chain st = Some (fetched, st')
    ∧ r = (λ u, u +:+ hash) <$> fetched.
Proof.
  intros Hq Hh Hs Hsh Hf H. destruct fuel as [|n]; [done|].
  exists n. cbn [fetchPage] in H. unfold fetchPage_body in H.
  apply bind_Some in H as (fetched & st1 & H1 & H).
  apply ret_Some in H as [<- <-]. exists fetched. split; [done|].
  split; [done|].
  destruct fetched as [u|]; [|done].
  apply fetchFile_records in H1 as (path & _ & _ & _ & _ & k & ->).
  rewrite objectUrl_truthy. simpl. do 2 f_equal.
  rewrite (splitUrl_parts main search hash) by done. simpl.
  destruct (JS.truthy _) eqn:E; [done|].
  destruct main, search, hash; simpl in *; try done.
Qed.

End Fetch.

Lemma fetchPage_keeps_only_fragment_witness :
  (let st := Example.loaded Example.framesAB in
   let m := fetchPage Example.env 3 (Some "B.html")
              ("blob:1" +:+ "?q=1" +:+ "#top") 0 in
   ∃ n fetched,
     3 = S n
     ∧ fetchFile Example.env (Some "B.html")
         (Some (pageRewriteFunc Example.env (fetchPage Example.env n)
                  (processCssFile Example.env n) (Some "B.html")))
         0 st = Some (fetched, Example.after m st)
     ∧ Some "blob:3#top" = (λ u, u +:+ "#top") <$> fetched).
Proof.
  apply (fetchPage_keeps_only_fragment Example.env 3 (Some "B.html")
           "blob:1" "?q=1" "#top" 0 (Example.loaded Example.framesAB));
    [reflexivity | reflexivity | right; by eexists | reflexivity
    | right; by eexists | ].
  vm_compute. reflexivity.
Defined.

Lemma rewritten_locator_recorded_witness :
  (let st := Example.loaded Example.framesAB in
   let f := pageRewriteFunc Example.env (fetchPage Example.env 2)
              (processCssFile Example.env 2) (Some "A.html") in
   let st' := Example.after (fetchFile Example.env (Some "A.html") (Some f) 0) st in
   ∃ path, Some "A.html" = Some path
     ∧ is_Some (inZipFiles st !! path)
     ∧ blobUrlToInZipPath st' !! "blob:3" = Some path
     ∧ "blob:3" ∈ rewrittenBlobUrl st'
     ∧ ∀ fuel inZipPath' url chain' r st'',
         issued st' →
         fetchPage Example.env fuel inZipPath' url chain' st' = Some (r, st'') →
         blobUrlToInZipPath st'' !! "blob:3" = Some path
         ∧ "blob:3" ∈ rewrittenBlobUrl st'').
Proof.
  apply (rewritten_locator_recorded Example.env (Some "A.html")
           (pageRewriteFunc Example.env (fetchPage Example.env 2)
              (processCssFile Example.env 2) (Some "A.html"))
           0 (Example.loaded Example.framesAB)).
  vm_compute. reflexivity.
Defined.

(** ** Recursion chains *)

Lemma lookup_new_array (h : list (list string)) (l : list string) :
  (h ++ [l]) !! length h = Some l.
Proof. by rewrite lookup_app_r, Nat.sub_diag. Qed.

Lemma childChain_spec (parent : loc) (x : string) (st : Viewer) :
  ∃ child st',
    childChain parent x st = Some (child, st')
    ∧ child = length (arrays st)
    ∧ chainAt st' child = chainAt st parent ++ [x]
    ∧ ∀ a, a < length (arrays st) → arrays st' !! a = arrays st !! a.
Proof.
  eexists _, _. split; [apply childChain_run|]. split; [done|]. split.
  - unfold chainAt at 1. simpl. by rewrite lookup_new_array.
  - intros a Ha. simpl. by rewrite lookup_app_l.
Qed.

Lemma ComplexUrlFetcher_new_spec (refUrl : string) (parent : option loc)
    (st : Viewer) :
  ∃ this st',
    ComplexUrlFetcher_new refUrl parent st = Some (this, st')
    ∧ urlHash this = []
    ∧ length (arrays st) ≤ recurseChain this
    ∧ chainAt st' (recurseChain this)
      = from_option (chainAt st) [] parent
        ++ (if JS.truthy refUrl then [(splitUrlByAnchor refUrl).1] else [])
    ∧ ∀ a, a < length (arrays st) → arrays st' !! a = arrays st !! a.
Proof.
  unfold ComplexUrlFetcher_new.
  destruct parent as [p|]; destruct (JS.truthy refUrl);
    unfold JSON_clone, readArray, newArray, push, modify, gets, bind, ret;
    eexists _, _; (split; [reflexivity|]); simpl;
    (split; [done|]); (split; [rewrite ?length_app; simpl; lia|]).
  - split.
    + unfold chainAt at 1. simpl.
      rewrite <- (Nat.add_0_r (length (arrays st))), alter_app_r. simpl.
      by rewrite Nat.add_0_r, lookup_new_array.
    + intros a Ha. rewrite list_lookup_alter_ne by lia.
      by rewrite lookup_app_l.
  - split.
    + unfold chainAt at 1. simpl. by rewrite lookup_new_array, app_nil_r.
    + intros a Ha. by rewrite lookup_app_l.
  - split.
    + unfold chainAt at 1. simpl. rewrite length_app. simpl.
      replace (length (arrays st) + 1) with (length (arrays st ++ [[]]) + 0)
        by (rewrite length_app; simpl; lia).
      rewrite alter_app_r. simpl.
      rewrite Nat.add_0_r, lookup_new_array. simpl.
      unfold chainAt. by rewrite lookup_new_array.
    + intros a Ha. rewrite list_lookup_alter_ne
        by (rewrite length_app; simpl; lia).
      rewrite lookup_app_l by (rewrite length_app; simpl; lia).
      by rewrite lookup_app_l.
  - split.
    + unfold chainAt at 1. simpl. rewrite length_app. simpl.
      replace (length (arrays st) + 1) with (length (arrays st ++ [[]]))
        by (rewrite length_app; simpl; lia).
      rewrite lookup_new_array. unfold chainAt. by rewrite lookup_new_array.
    + intros a Ha.
      rewrite lookup_app_l by (rewrite length_app; simpl; lia).
      by rewrite lookup_app_l.
Qed.

Section Chains.

Variable env : Env.

(** A virtual URL has no fragment when the virtual base has none. *)
Lemma inZipPathToUrl_no_hash (p : option string) :
  JS.has_char "#" (virtualBase env) = false →
  JS.has_char "#" (inZipPathToUrl env p) = false.
Proof.
  intros Hb. unfold inZipPathToUrl. rewrite has_char_app, Hb. simpl.
  apply join_has_no; [done|].
  apply Forall_map, Forall_forall. intros; apply encode_no_hash.
Qed.

(** C7.  A child recursion chain is a new array.  Where [rewriteNode]
    makes the chain of a frame or of a meta refresh ([childChain]) and
    where a [ComplexUrlFetcher] is constructed, the chain made is an array
    that did not exist before, it holds the parent's elements followed by
    the appended URL (for the fetcher: the reference URL up to its
    fragment, which is the reference URL itself for the virtual URLs it is
    constructed with, and nothing for an empty reference URL), and every
    array that existed, the parent's among them, holds what it held.  The
    same is true of a whole run of [fetchPage]: no array that exists when
    it starts is changed by it, so no branch sees what another appends. *)
Theorem recursion_chain_immutable (parent : loc) (x refUrl : string)
    (st : Viewer) :
  (∃ child st',
     childChain parent x st = Some (child, st')
     ∧ child = length (arrays st)
     ∧ chainAt st' child = chainAt st parent ++ [x]
     ∧ ∀ a, a < length (arrays st) → arrays st' !! a = arrays st !! a)
  ∧ (∀ parentChain, ∃ this st',
       ComplexUrlFetcher_new refUrl parentChain st = Some (this, st')
       ∧ length (arrays st) ≤ recurseChain this
       ∧ chainAt st' (recurseChain this)
         = from_option (chainAt st) [] parentChain
           ++ (if JS.truthy refUrl then [(splitUrlByAnchor refUrl).1] else [])
       ∧ ∀ a, a < length (arrays st) → arrays st' !! a = arrays st !! a)
  ∧ (∀ p, JS.has_char "#" (virtualBase env) = false →
          (splitUrlByAnchor (inZipPathToUrl env p)).1 = inZipPathToUrl env p)
  ∧ (∀ fuel inZipPath url chain r st',
       issued st →
       fetchPage env fuel inZipPath url chain st = Some (r, st') →
       ∀ a, a < length (arrays st) → arrays st' !! a = arrays st !! a).
Proof.
  split; [apply childChain_spec|]. split; [|split].
  - intros parentChain.
    destruct (ComplexUrlFetcher_new_spec refUrl parentChain st)
      as (this & st' & H & _ & H1 & H2 & H3).
    exists this, st'. done.
  - intros p Hb. unfold splitUrlByAnchor.
    by rewrite cut_absent by (by apply inZipPathToUrl_no_hash).
  - intros fuel ip url chain r st' Hi H a Ha.
    destruct (fetchPage_keeps _ _ _ _ _ _ _ _ Hi H) as [_ He].
    by apply (ext_arrays _ _ He).
Qed.

End Chains.

(** ** Elements by their place in the tree *)

(** The node at a path of child indices. *)
Fixpoint nodeAt (n : Node) (path : list nat) : option Node :=
  match path with
  | [] => Some n
  | i :: path' =>
      match n with
      | Elem _ _ cs => cs !! i ≫= λ c, nodeAt c path'
      | Text _ => None
      end
  end.

(** The root name [rewriteRecursively] has when it reaches the node at a
    path: the name, in lower case, of the nearest [svg] or [math] element
    from the node up, and the root name the traversal was started with
    when there is none. *)
Fixpoint rootNameAt (rootName : string) (n : Node) (path : list nat)
    : string :=
  match n with
  | Text _ => rootName
  | Elem name _ cs =>
      let nodeName := JS.toLowerCase name in
      let rootName :=
        if bool_decide (nodeName ∈ ["svg"; "math"]) then nodeName
        else rootName in
      match path with
      | [] => rootName
      | i :: path' =>
          match cs !! i with
          | Some c => rootNameAt rootName c path'
          | None => rootName
          end
      end
  end.

Section Visits.

Variable env : Env.
Variable fetchPage_rec : option string → string → loc → M (option string).
Variable processCssFile_rec : RewriteFunc.
Variable inZipPath : option string.
Variable chain : loc.

(** What is known of the state from one call of [rewriteNode] to a later
    one. *)
Variable R : Viewer → Viewer → Prop.
Hypothesis R_refl : ∀ st, R st st.
Hypothesis R_trans : ∀ st1 st2 st3, R st1 st2 → R st2 st3 → R st1 st3.
Hypothesis R_node :
  ∀ nodeName attrs text rootName st r st',
    rewriteNode env fetchPage_rec processCssFile_rec inZipPath chain nodeName
      attrs text rootName st = Some (r, st') →
    R st st'.

Lemma rewriteRecursively_R elem :
  ∀ rootName st elem' st',
    rewriteRecursively env fetchPage_rec processCssFile_rec inZipPath chain
      elem rootName st = Some (elem', st') →
    R st st'.
Proof.
  induction elem as [s | name attrs cs IH] using Node_children_ind;
    intros rootName st elem' st' H.
  - apply ret_Some in H as [_ <-]. apply R_refl.
  - cbn [rewriteRecursively] in H.
    apply bind_Some in H as (r & st1 & Hnode & H).
    apply bind_Some in H as (cs' & st2 & Hcs & [_ <-]%ret_Some).
    eapply R_trans; [by eapply R_node|].
    destruct (r_cleared r); [apply ret_Some in Hcs as [_ <-]; apply R_refl|].
    revert Hcs.
    generalize (if bool_decide (JS.toLowerCase name ∈ ["svg"; "math"])
                then JS.toLowerCase name else rootName).
    intros root. clear Hnode. revert st1 cs'.
    induction IH as [|c cs Hc _ IHcs]; intros st1 cs' Hcs.
    + apply ret_Some in Hcs as [_ <-]. apply R_refl.
    + apply bind_Some in Hcs as (c' & st3 & Hc' & Hcs).
      apply bind_Some in Hcs as (cs'' & st4 & Hcs & [_ <-]%ret_Some).
      eapply R_trans; [by eapply Hc | by eapply IHcs].
Qed.

(** The element at a path of the tree [rewriteRecursively] returns is the
    element at that path of the tree it was given, with the attributes
    [rewriteNode] returned for it when called with the root name of the
    path. *)
Lemma rewriteRecursively_visits elem :
  ∀ path rootName st elem' st' name attrs' cs',
    rewriteRecursively env fetchPage_rec processCssFile_rec inZipPath chain
      elem rootName st = Some (elem', st') →
    nodeAt elem' path = Some (Elem name attrs' cs') →
    ∃ attrs cs st1 r st2,
      nodeAt elem path = Some (Elem name attrs cs)
      ∧ R st st1
      ∧ rewriteNode env fetchPage_rec processCssFile_rec inZipPath chain name
          attrs (textContent (Elem name attrs cs))
          (rootNameAt rootName elem path) st1 = Some (r, st2)
      ∧ attrs' = r_attrs r.
Proof.
  induction elem as [s | name0 attrs0 cs0 IH] using Node_children_ind;
    intros path rootName st elem' st' name attrs' cs' H Hat.
  - apply ret_Some in H as [<- _]. by destruct path.
  - cbn [rewriteRecursively] in H.
    apply bind_Some in H as (r & st1 & Hnode & H).
    apply bind_Some in H as (children' & st2 & Hcs & [<- _]%ret_Some).
    destruct path as [|i path].
    + injection Hat as <- <- <-.
      exists attrs0, cs0, st, r, st1. by repeat split.
    + cbn [nodeAt] in Hat.
      destruct (r_text r) as [t|].
      { destruct i as [|i]; [|done]. simpl in Hat. by destruct path. }
      destruct (r_cleared r).
      { apply ret_Some in Hcs as [<- _]. done. }
      destruct (children' !! i) as [c'|] eqn:Hi; [|done]. simpl in Hat.
      pose proof (R_node _ _ _ _ _ _ _ Hnode) as Hst1.
      cbn [rootNameAt nodeAt].
      revert Hcs Hnode.
      generalize (if bool_decide (JS.toLowerCase name0 ∈ ["svg"; "math"])
                  then JS.toLowerCase name0 else rootName).
      intros root Hcs _.
      assert (Hchild : ∃ c sta stb,
        cs0 !! i = Some c ∧ R st1 sta
        ∧ rewriteRecursively env fetchPage_rec processCssFile_rec inZipPath
            chain c root sta = Some (c', stb)).
      { clear Hat Hst1 IH. revert i st1 st2 children' Hi Hcs.
        induction cs0 as [|c cs0 IHcs]; intros i st1 st2 children' Hi Hcs.
        - apply ret_Some in Hcs as [<- _]. done.
        - apply bind_Some in Hcs as (d & st3 & Hd & Hcs).
          apply bind_Some in Hcs as (ds & st4 & Hds & [<- _]%ret_Some).
          destruct i as [|i].
          + injection Hi as ->. exists c, st1, st3. by repeat split.
          + simpl in Hi.
            destruct (IHcs i st3 st4 ds Hi Hds)
              as (c0 & sta & stb & ? & HR & ?).
            exists c0, sta, stb. repeat split; [done| |done].
            eapply R_trans; [|exact HR].
            by eapply rewriteRecursively_R. }
      destruct Hchild as (c & sta & stb & Hc & HR & Hrun).
      rewrite Forall_lookup in IH.
      destruct (IH i c Hc path root sta c' stb name attrs' cs' Hrun Hat)
        as (attrs & cs & st3 & r3 & st4 & Hnode3 & HR3 & Hrw & ->).
      exists attrs, cs, st3, r3, st4. rewrite Hc. simpl.
      repeat split; [done| |done].
      eapply R_trans; [exact Hst1|]. by eapply R_trans.
Qed.

End Visits.

(** What a later call of [rewriteNode] in a run of [fetchPage] finds: the
    tables are well formed, the store is the same and every array that
    existed holds what it held. *)
Definition later (st st' : Viewer) : Prop := issued st → Inv st st'.

Lemma later_refl st : later st st.
Proof. intros Hi. by apply Inv_refl. Qed.

Lemma later_trans st1 st2 st3 : later st1 st2 → later st2 st3 → later st1 st3.
Proof.
  intros H1 H2 Hi. pose proof (H1 Hi) as HI.
  eapply Inv_trans; [exact HI | apply H2; by destruct HI].
Qed.

Lemma rewriteNode_later env fuel inZipPath chain nodeName attrs text rootName
    st r st' :
  rewriteNode env (fetchPage env fuel) (processCssFile env fuel) inZipPath
    chain nodeName attrs text rootName st = Some (r, st') →
  later st st'.
Proof.
  intros H Hi.
  eapply (stable_rewriteNode env (fetchPage env fuel) (processCssFile env fuel));
    [apply stable_fetchPage | intros; apply stable_processCssFile
    | apply Inv_refl; exact Hi | exact H].
Qed.

(** The elements of a page are rewritten one by one, each with the root
    name of its place, in a state that has the store and the arrays of the
    state the traversal started in. *)
Lemma page_visits env fuel inZipPath chain elem path rootName st elem' st'
    name attrs' cs' :
  issued st →
  rewriteRecursively env (fetchPage env fuel) (processCssFile env fuel)
    inZipPath chain elem rootName st = Some (elem', st') →
  nodeAt elem' path = Some (Elem name attrs' cs') →
  ∃ attrs cs st1 r st2,
    nodeAt elem path = Some (Elem name attrs cs)
    ∧ Inv st st1
    ∧ rewriteNode env (fetchPage env fuel) (processCssFile env fuel)
        inZipPath chain name attrs (textContent (Elem name attrs cs))
        (rootNameAt rootName elem path) st1 = Some (r, st2)
    ∧ attrs' = r_attrs r.
Proof.
  intros Hi H Hat.
  destruct (rewriteRecursively_visits env (fetchPage env fuel)
              (processCssFile env fuel) inZipPath chain later later_refl
              later_trans
              (rewriteNode_later env fuel inZipPath chain)
              elem path rootName st elem' st' name attrs' cs' H Hat)
    as (attrs & cs & st1 & r & st2 & ? & HR & ? & ?).
  exists attrs, cs, st1, r, st2. repeat split; try done; by apply HR.
Qed.

(** ** Frames *)

Section Frames.

Variable env : Env.
Variable fetchPage_rec : option string → string → loc → M (option string).
Variable processCssFile_rec : RewriteFunc.
Variable inZipPath : option string.
Variable chain : loc.

(** What [rewriteFrame] does for an element that has a [src]: the child
    chain is made first, and the page is fetched unless the chain holds
    the target. *)
Lemma rewriteFrame_run attrs st :
  hasAttribute attrs "src" = true →
  rewriteFrame env fetchPage_rec inZipPath chain attrs st
  = let child := chainAt st chain ++ [refUrl env inZipPath] in
    let st1 := set_arrays (λ h, h ++ [child]) st in
    let info := parseUrl env (inZipFiles st) (getAttribute attrs "src")
                  (Some (refUrl env inZipPath)) in
    if info_inZip info
       && JS.includes child (inZipPathToUrl env (info_inZipPath info))
    then Some (setAttribute attrs "src" "about:blank", st1)
    else (fetchedUrl <- fetchPage_rec (info_inZipPath info) (info_url info)
                          (length (arrays st)) ;;
          ret (setAttribute attrs "src"
                 (JS.opt_or fetchedUrl (info_url info)))) st1.
Proof.
  intros Hsrc. unfold rewriteFrame. rewrite Hsrc.
  unfold bind at 1. rewrite childChain_run.
  unfold bind at 1, viewer_parseUrl, gets.
  unfold bind at 1, readArray, gets.
  cbn [arrays set_arrays inZipFiles]. rewrite lookup_new_array. simpl.
  by destruct (_ && _).
Qed.

Lemma rewriteByName_frame name attrs text :
  name = "frame" ∨ name = "iframe" →
  rewriteByName env fetchPage_rec processCssFile_rec inZipPath chain name
    attrs text
  = kept <$$> rewriteFrame env fetchPage_rec inZipPath chain attrs.
Proof. by intros [-> | ->]. Qed.

Lemma frame_cycle name attrs text src st :
  name = "frame" ∨ name = "iframe" →
  lookupAttribute attrs "src" = Some src →
  info_inZip (parseUrl env (inZipFiles st) src
                (Some (refUrl env inZipPath))) = true →
  inZipPathToUrl env
    (info_inZipPath (parseUrl env (inZipFiles st) src
                       (Some (refUrl env inZipPath))))
    ∈ chainAt st chain ++ [refUrl env inZipPath] →
  rewriteByName env fetchPage_rec processCssFile_rec inZipPath chain name
    attrs text st
  = Some (kept (setAttribute attrs "src" "about:blank"),
          set_arrays (λ h, h ++ [chainAt st chain ++ [refUrl env inZipPath]])
            st).
Proof.
  intros Hname Hsrc Hin Hcyc.
  rewrite rewriteByName_frame by done.
  apply hasAttribute_lookup in Hsrc as [Hhas Hget].
  unfold fmapM, bind. rewrite rewriteFrame_run by done.
  cbv zeta. rewrite Hget, Hin. unfold JS.includes.
  by rewrite bool_decide_eq_true_2.
Qed.

End Frames.

(** ** Links *)

(** Where the self-link rule applies: [href] and [xlink:href] of any
    element under an SVG root, [href] of any element under a MathML root,
    and [href] of [a] and [area] elsewhere.  [name] is the element's name
    in lower case, [rootName] the root name [rewriteNode] is called
    with. *)
Definition selfLinkContext (name rootName attr : string) : Prop :=
  (rootName = "svg" ∧ (attr = "href" ∨ attr = "xlink:href"))
  ∨ (rootName ≠ "svg" ∧ rootName = "math" ∧ attr = "href")
  ∨ (rootName ≠ "svg" ∧ rootName ≠ "math"
     ∧ (name = "a" ∨ name = "area") ∧ attr = "href").

Section Links.

Variable env : Env.
Variable fetchPage_rec : option string → string → loc → M (option string).
Variable processCssFile_rec : RewriteFunc.
Variable inZipPath : option string.
Variable chain : loc.

(** The value the rule gives an attribute that holds [v]. *)
Definition linkValue (st : Viewer) (v : string) : string :=
  let info := parseUrl env (inZipFiles st) v (Some (refUrl env inZipPath)) in
  if info_inZip info && bool_decide (info_inZipPath info = inZipPath)
  then JS.opt_or (info_hash info) "#"
  else info_url info.

Lemma rewriteLink_run attrs name st :
  rewriteLink env inZipPath attrs name st
  = Some (match lookupAttribute attrs name with
          | Some v => setAttribute attrs name (linkValue st v)
          | None => attrs
          end, st).
Proof.
  unfold rewriteLink, hasAttribute, getAttribute, linkValue.
  destruct (lookupAttribute attrs name) as [v|]; [|done]. simpl.
  unfold bind, viewer_parseUrl, gets.
  destruct (info_inZip _); [|done]. simpl.
  destruct (decide (info_inZipPath (parseUrl env (inZipFiles st) v
                      (Some (refUrl env inZipPath))) = inZipPath)) as [E|E].
  - by rewrite bool_decide_eq_false_2, bool_decide_eq_true_2 by auto.
  - by rewrite bool_decide_eq_true_2, bool_decide_eq_false_2 by auto.
Qed.

Lemma rewriteByName_anchor name attrs text :
  name = "a" ∨ name = "area" →
  rewriteByName env fetchPage_rec processCssFile_rec inZipPath chain name
    attrs text
  = kept <$$> rewriteLink env inZipPath attrs "href".
Proof. by intros [-> | ->]. Qed.

Lemma rewriteStyleAttr_keeps r st r' st' name :
  name ≠ "style" →
  rewriteStyleAttr env processCssFile_rec inZipPath chain r st = Some (r', st') →
  lookupAttribute (r_attrs r') name = lookupAttribute (r_attrs r) name.
Proof.
  intros Hne. unfold rewriteStyleAttr.
  destruct (hasAttribute _ _).
  - intros (response & st1 & _ & [<- _]%ret_Some)%bind_Some. simpl.
    by rewrite lookup_setAttribute_ne.
  - by intros [<- _]%ret_Some.
Qed.

(** The attribute the rule applies to holds the rule's value after
    [rewriteNode]. *)
Lemma rewriteNode_link nodeName attrs text rootName attr v st r st' :
  selfLinkContext (JS.toLowerCase nodeName) rootName attr →
  lookupAttribute attrs attr = Some v →
  rewriteNode env fetchPage_rec processCssFile_rec inZipPath chain nodeName
    attrs text rootName st = Some (r, st') →
  lookupAttribute (r_attrs r) attr = Some (linkValue st v).
Proof.
  intros Hctx Hv. unfold rewriteNode.
  destruct Hctx as [[-> Hattr] | [(Hsvg & -> & ->) | (Hsvg & Hmath & Hname & ->)]].
  - rewrite decide_True by done.
    intros (attrs1 & st1 & H1 & H2)%bind_Some.
    rewrite rewriteLink_run in H1. injection H1 as <- <-.
    apply fmapM_Some in H2 as (attrs2 & H2 & ->).
    rewrite rewriteLink_run in H2. injection H2 as <- <-. simpl.
    destruct Hattr as [-> | ->].
    + rewrite Hv.
      destruct (lookupAttribute (setAttribute attrs "href" _) "xlink:href").
      * rewrite lookup_setAttribute_ne by done.
        apply lookup_setAttribute_eq.
      * apply lookup_setAttribute_eq.
    + assert (Hx : lookupAttribute
                     (match lookupAttribute attrs "href" with
                      | Some v0 => setAttribute attrs "href" (linkValue st v0)
                      | None => attrs
                      end) "xlink:href" = Some v).
      { destruct (lookupAttribute attrs "href"); [|done].
        by rewrite lookup_setAttribute_ne. }
      rewrite Hx. apply lookup_setAttribute_eq.
  - rewrite decide_False, decide_True by done.
    intros (attrs1 & H1 & ->)%fmapM_Some.
    rewrite rewriteLink_run in H1. injection H1 as <- <-. simpl.
    rewrite Hv. apply lookup_setAttribute_eq.
  - rewrite !decide_False by done.
    intros (r0 & st1 & H1 & H2)%bind_Some.
    rewrite rewriteByName_anchor in H1 by done.
    apply fmapM_Some in H1 as (attrs1 & H1 & ->).
    rewrite rewriteLink_run in H1. injection H1 as <- <-.
    rewrite (rewriteStyleAttr_keeps _ _ _ _ "href" ltac:(done) H2). simpl.
    rewrite Hv. apply lookup_setAttribute_eq.
Qed.

(** The value is [#] followed by the fragment the parser gives when the
    file is the document being rewritten, and the file's locator followed
    by that fragment when it is another file. *)
Lemma rewriteNode_self_link nodeName attrs text rootName attr v u f st r st' :
  selfLinkContext (JS.toLowerCase nodeName) rootName attr →
  lookupAttribute attrs attr = Some v →
  URL_new env v (JS.or_undefined (Some (refUrl env inZipPath))) = Some u →
  JS.startsWith (Url.href u) (virtualBase env) = true →
  inZipFiles st !! hrefToInZipPath env (Url.href (Url.clear_search_hash u))
    = Some f →
  rewriteNode env fetchPage_rec processCssFile_rec inZipPath chain nodeName
    attrs text rootName st = Some (r, st') →
  lookupAttribute (r_attrs r) attr
  = Some (if decide (Some (hrefToInZipPath env
                             (Url.href (Url.clear_search_hash u)))
                     = inZipPath)
          then "#" +:+ default "" (url_fragment u)
          else file_url f +:+ Url.hash u).
Proof.
  intros Hctx Hv Hu Hbase Hf H.
  rewrite (rewriteNode_link _ _ _ _ _ _ _ _ _ Hctx Hv H). f_equal.
  unfold linkValue. rewrite (parseUrl_found env _ _ _ u f) by done. simpl.
  destruct (decide _) as [E|E].
  - rewrite bool_decide_eq_true_2 by done.
    unfold Url.hash. destruct (url_fragment u) as [[|a fr]|]; done.
  - by rewrite bool_decide_eq_false_2.
Qed.

End Links.

(** Outside SVG, [rewriteNode] leaves [xlink:href] as it is. *)
Definition keepsXlink {A} (proj : A → Attrs) (m : M A) (attrs : Attrs)
    : Prop :=
  ∀ st a st', m st = Some (a, st') →
    lookupAttribute (proj a) "xlink:href" = lookupAttribute attrs "xlink:href".

Lemma xlink_ret attrs : keepsXlink id (ret attrs) attrs.
Proof. by intros st a st' [<- _]%ret_Some. Qed.

Lemma xlink_set attrs name v :
  name ≠ "xlink:href" → keepsXlink id (ret (setAttribute attrs name v)) attrs.
Proof.
  intros Hne st a st' [<- _]%ret_Some. by apply lookup_setAttribute_ne.
Qed.

Lemma xlink_bind {A B} (proj : B → Attrs) (m : M A) (k : A → M B) attrs :
  (∀ x, keepsXlink proj (k x) attrs) → keepsXlink proj (bind m k) attrs.
Proof. intros Hk st b st' (a & st1 & _ & H)%bind_Some. by eapply Hk. Qed.

Lemma xlink_trans {B} (proj : B → Attrs) (m : M Attrs) (k : Attrs → M B) attrs :
  keepsXlink id m attrs → (∀ a, keepsXlink proj (k a) a) →
  keepsXlink proj (bind m k) attrs.
Proof.
  intros Hm Hk st b st' (a & st1 & H1 & H)%bind_Some.
  rewrite (Hk a _ _ _ H). by apply (Hm _ _ _ H1).
Qed.

Lemma xlink_kept (m : M Attrs) attrs :
  keepsXlink id m attrs → keepsXlink r_attrs (kept <$$> m) attrs.
Proof. intros Hm st r st' (a & H & ->)%fmapM_Some. by apply (Hm _ _ _ H). Qed.

Lemma xlink_ret_kept attrs : keepsXlink r_attrs (ret (kept attrs)) attrs.
Proof. by intros st a st' [<- _]%ret_Some. Qed.

Ltac xlink_step :=
  first
    [ apply xlink_ret | apply xlink_ret_kept
    | apply xlink_set; done
    | apply xlink_bind; intros ?
    | match goal with
      | |- keepsXlink _ (if ?b then _ else _) _ => destruct b
      | |- keepsXlink _ (match ?x with _ => _ end) _ => destruct x
      | |- keepsXlink _ (let '(_, _) := ?x in _) _ => destruct x
      end ].

Section Xlink.

Variable env : Env.
Variable fetchPage_rec : option string → string → loc → M (option string).
Variable processCssFile_rec : RewriteFunc.
Variable inZipPath : option string.
Variable chain : loc.

Lemma xlink_rewriteAttr attrs name :
  name ≠ "xlink:href" →
  keepsXlink id (rewriteAttr env inZipPath attrs name) attrs.
Proof. intros. unfold rewriteAttr. repeat xlink_step. Qed.

Lemma xlink_rewriteSrcsetAttr attrs name :
  name ≠ "xlink:href" →
  keepsXlink id (rewriteSrcsetAttr env inZipPath attrs name) attrs.
Proof. intros. unfold rewriteSrcsetAttr. repeat xlink_step. Qed.

Lemma xlink_rewriteLink attrs name :
  name ≠ "xlink:href" →
  keepsXlink id (rewriteLink env inZipPath attrs name) attrs.
Proof. intros. unfold rewriteLink. repeat xlink_step. Qed.

Lemma xlink_rewriteMeta attrs :
  keepsXlink id (rewriteMeta env fetchPage_rec inZipPath chain attrs) attrs.
Proof. unfold rewriteMeta, rewriteMetaRefresh. repeat xlink_step. Qed.

Lemma xlink_rewriteLinkElement attrs :
  keepsXlink id (rewriteLinkElement env processCssFile_rec inZipPath attrs)
    attrs.
Proof. unfold rewriteLinkElement. repeat xlink_step. Qed.

Lemma xlink_rewriteFrame attrs :
  keepsXlink id (rewriteFrame env fetchPage_rec inZipPath chain attrs) attrs.
Proof. unfold rewriteFrame. repeat xlink_step. Qed.

Lemma xlink_localize attrs name :
  name ≠ "xlink:href" → keepsXlink id (localize env attrs name) attrs.
Proof. intros. unfold localize. repeat xlink_step. Qed.

Lemma xlink_rewritePlugin attrs name :
  name ≠ "xlink:href" →
  keepsXlink id (rewritePlugin env inZipPath attrs name) attrs.
Proof.
  intros. unfold rewritePlugin. destruct (hasAttribute _ _); [|xlink_step].
  apply xlink_trans; [by apply xlink_rewriteAttr|].
  intros. by apply xlink_localize.
Qed.

Lemma xlink_rewriteScript attrs text :
  keepsXlink r_attrs (rewriteScript env inZipPath attrs text) attrs.
Proof.
  unfold rewriteScript. destruct (hasAttribute _ _).
  - apply xlink_bind. intros url.
    intros st r st' (a & st1 & H1 & H)%bind_Some.
    apply (xlink_localize _ "src" ltac:(done)) in H1. simpl in H1.
    rewrite lookup_setAttribute_ne in H1 by done. rewrite <- H1.
    destruct (_ && _); apply ret_Some in H as [<- _]; simpl;
      [by rewrite lookup_setAttribute_ne | done].
  - destruct (hasCsp env); [|xlink_step].
    destruct (JS.truthy text); [|xlink_step].
    apply xlink_bind. intros u st r st' [<- _]%ret_Some. simpl.
    by rewrite lookup_setAttribute_ne.
Qed.

Lemma xlink_rewriteByName name attrs text :
  keepsXlink r_attrs
    (rewriteByName env fetchPage_rec processCssFile_rec inZipPath chain name
       attrs text) attrs.
Proof.
  unfold rewriteByName.
  repeat first
    [ apply xlink_rewriteScript
    | apply xlink_kept
    | apply xlink_rewriteMeta | apply xlink_rewriteLinkElement
    | apply xlink_rewriteFrame
    | apply xlink_rewriteAttr; done
    | apply xlink_rewriteSrcsetAttr; done
    | apply xlink_rewriteLink; done
    | apply xlink_rewritePlugin; done
    | apply xlink_trans; [| intros ?]
    | match goal with
      | |- keepsXlink _ (if ?b then _ else _) _ => destruct b
      end
    | apply xlink_ret_kept
    | apply xlink_bind; intros ?
    | by intros ??? [<- _]%ret_Some ].
Qed.

Lemma rewriteNode_xlink nodeName attrs text rootName st r st' :
  rootName ≠ "svg" →
  rewriteNode env fetchPage_rec processCssFile_rec inZipPath chain nodeName
    attrs text rootName st = Some (r, st') →
  lookupAttribute (r_attrs r) "xlink:href"
  = lookupAttribute attrs "xlink:href".
Proof.
  intros Hsvg. unfold rewriteNode. rewrite decide_False by done.
  destruct (decide (rootName = "math")).
  - intros (attrs1 & H1 & ->)%fmapM_Some.
    by apply (xlink_rewriteLink attrs "href" ltac:(done)) in H1.
  - intros (r0 & st1 & H1 & H2)%bind_Some.
    rewrite (rewriteStyleAttr_keeps _ _ _ _ _ _ _ _ "xlink:href"
               ltac:(done) H2).
    by apply xlink_rewriteByName in H1.
Qed.

End Xlink.

(** ** Links and frames by their place in the tree *)

Section Places.

Variable env : Env.

(** The value the self-link rule writes for a reference that resolves to
    a file of the archive. *)
Lemma linkValue_found inZipPath st v u f :
  URL_new env v (JS.or_undefined (Some (refUrl env inZipPath))) = Some u →
  JS.startsWith (Url.href u) (virtualBase env) = true →
  inZipFiles st !! hrefToInZipPath env (Url.href (Url.clear_search_hash u))
    = Some f →
  linkValue env inZipPath st v
  = (if decide (Some (hrefToInZipPath env
                        (Url.href (Url.clear_search_hash u)))
                = inZipPath)
     then "#" +:+ default "" (url_fragment u)
     else file_url f +:+ Url.hash u).
Proof.
  intros Hu Hbase Hf.
  unfold linkValue. rewrite (parseUrl_found env _ _ _ u f) by done. simpl.
  destruct (decide _) as [E|E].
  - rewrite bool_decide_eq_true_2 by done.
    unfold Url.hash. destruct (url_fragment u) as [[|a fr]|]; done.
  - by rewrite bool_decide_eq_false_2.
Qed.

Lemma linkValue_files inZipPath st st' v :
  inZipFiles st' = inZipFiles st →
  linkValue env inZipPath st' v = linkValue env inZipPath st v.
Proof. unfold linkValue. by intros ->. Qed.

(** A frame whose target is in the chain, outside SVG and MathML:
    [fetchPage] is not called. *)
Lemma rewriteNode_frame_cycle fetchPage_rec processCssFile_rec inZipPath chain
    nodeName attrs text rootName src st :
  rootName ≠ "svg" → rootName ≠ "math" →
  JS.toLowerCase nodeName = "frame" ∨ JS.toLowerCase nodeName = "iframe" →
  lookupAttribute attrs "src" = Some src →
  info_inZip (parseUrl env (inZipFiles st) src
                (Some (refUrl env inZipPath))) = true →
  inZipPathToUrl env
    (info_inZipPath (parseUrl env (inZipFiles st) src
                       (Some (refUrl env inZipPath))))
    ∈ chainAt st chain ++ [refUrl env inZipPath] →
  rewriteNode env fetchPage_rec processCssFile_rec inZipPath chain nodeName
    attrs text rootName st
  = rewriteStyleAttr env processCssFile_rec inZipPath chain
      (kept (setAttribute attrs "src" "about:blank"))
      (set_arrays (λ h, h ++ [chainAt st chain ++ [refUrl env inZipPath]]) st).
Proof.
  intros Hsvg Hmath Hname Hsrc Hin Hcyc. unfold rewriteNode.
  rewrite !decide_False by done. unfold bind at 1.
  by rewrite (frame_cycle env fetchPage_rec processCssFile_rec inZipPath chain
                _ attrs text src st Hname Hsrc Hin Hcyc).
Qed.

(** Any element under an SVG or MathML root: only the links are
    rewritten, nothing is fetched and the state is left as it is. *)
Lemma rewriteNode_foreign fetchPage_rec processCssFile_rec inZipPath chain
    nodeName attrs text rootName st :
  rootName = "svg" ∨ rootName = "math" →
  ∃ attrs',
    rewriteNode env fetchPage_rec processCssFile_rec inZipPath chain nodeName
      attrs text rootName st = Some (kept attrs', st)
    ∧ ∀ name, name ≠ "href" → name ≠ "xlink:href" →
        lookupAttribute attrs' name = lookupAttribute attrs name.
Proof.
  intros [-> | ->]; unfold rewriteNode.
  - rewrite decide_True by done. unfold bind, fmapM, bind, ret.
    rewrite !rewriteLink_run. eexists. split; [reflexivity|].
    intros name Hh Hx.
    destruct (lookupAttribute attrs "href") as [v|];
      [destruct (lookupAttribute (setAttribute attrs "href" _) "xlink:href")
      | destruct (lookupAttribute attrs "xlink:href")];
      by rewrite ?lookup_setAttribute_ne by done.
  - rewrite decide_False, decide_True by done. unfold fmapM, bind, ret.
    rewrite rewriteLink_run. eexists. split; [reflexivity|].
    intros name Hh Hx.
    destruct (lookupAttribute attrs "href");
      by rewrite ?lookup_setAttribute_ne by done.
Qed.

(** Self-links, by the place of the element in the page. *)
Lemma page_self_link fuel inZipPath chain elem path rootName st elem' st'
    name attrs' cs' :
  issued st →
  rewriteRecursively env (fetchPage env fuel) (processCssFile env fuel)
    inZipPath chain elem rootName st = Some (elem', st') →
  nodeAt elem' path = Some (Elem name attrs' cs') →
  ∃ attrs cs,
    nodeAt elem path = Some (Elem name attrs cs)
    ∧ (∀ attr v u f,
         selfLinkContext (JS.toLowerCase name)
           (rootNameAt rootName elem path) attr →
         lookupAttribute attrs attr = Some v →
         URL_new env v (JS.or_undefined (Some (refUrl env inZipPath)))
           = Some u →
         JS.startsWith (Url.href u) (virtualBase env) = true →
         inZipFiles st !! hrefToInZipPath env
                            (Url.href (Url.clear_search_hash u)) = Some f →
         lookupAttribute attrs' attr
         = Some (if decide (Some (hrefToInZipPath env
                                    (Url.href (Url.clear_search_hash u)))
                            = inZipPath)
                 then "#" +:+ default "" (url_fragment u)
                 else file_url f +:+ Url.hash u))
    ∧ (rootNameAt rootName elem path ≠ "svg" →
       lookupAttribute attrs' "xlink:href"
       = lookupAttribute attrs "xlink:href").
Proof.
  intros Hi H Hat.
  destruct (page_visits env fuel inZipPath chain elem path rootName st elem'
              st' name attrs' cs' Hi H Hat)
    as (attrs & cs & st1 & r & st2 & Hnode & HI & Hrw & ->).
  exists attrs, cs. split; [done|]. split.
  - intros attr v u f Hctx Hv Hu Hbase Hf.
    rewrite (rewriteNode_link _ _ _ _ _ _ _ _ _ _ _ _ _ _ Hctx Hv Hrw).
    f_equal. rewrite (linkValue_files _ st) by apply (ext_files _ _ (proj2 HI)).
    by apply linkValue_found.
  - intros Hroot. by eapply rewriteNode_xlink.
Qed.

(** Frames, by the place of the element in the page. *)
Lemma page_frame fuel inZipPath chain elem path rootName st elem' st'
    name attrs' cs' :
  issued st → chain < length (arrays st) →
  rewriteRecursively env (fetchPage env fuel) (processCssFile env fuel)
    inZipPath chain elem rootName st = Some (elem', st') →
  nodeAt elem' path = Some (Elem name attrs' cs') →
  ∃ attrs cs,
    nodeAt elem path = Some (Elem name attrs cs)
    ∧ (∀ src,
         rootNameAt rootName elem path ≠ "svg" →
         rootNameAt rootName elem path ≠ "math" →
         JS.toLowerCase name = "frame" ∨ JS.toLowerCase name = "iframe" →
         lookupAttribute attrs "src" = Some src →
         info_inZip (parseUrl env (inZipFiles st) src
                       (Some (refUrl env inZipPath))) = true →
         inZipPathToUrl env
           (info_inZipPath (parseUrl env (inZipFiles st) src
                              (Some (refUrl env inZipPath))))
           ∈ chainAt st chain ++ [refUrl env inZipPath] →
         lookupAttribute attrs' "src" = Some "about:blank")
    ∧ (rootNameAt rootName elem path = "svg"
       ∨ rootNameAt rootName elem path = "math" →
       lookupAttribute attrs' "src" = lookupAttribute attrs "src").
Proof.
  intros Hi Hc H Hat.
  destruct (page_visits env fuel inZipPath chain elem path rootName st elem'
              st' name attrs' cs' Hi H Hat)
    as (attrs & cs & st1 & r & st2 & Hnode & HI & Hrw & ->).
  exists attrs, cs. split; [done|]. split.
  - intros src Hsvg Hmath Hname Hsrc Hin Hcyc.
    assert (Hchain : chainAt st1 chain = chainAt st chain).
    { unfold chainAt. by rewrite (ext_arrays _ _ (proj2 HI)). }
    rewrite rewriteNode_frame_cycle with (src := src) in Hrw; try done.
    + rewrite (rewriteStyleAttr_keeps _ _ _ _ _ _ _ _ "src" ltac:(done) Hrw).
      simpl. apply lookup_setAttribute_eq.
    + by rewrite (ext_files _ _ (proj2 HI)).
    + by rewrite (ext_files _ _ (proj2 HI)), Hchain.
  - intros Hroot.
    destruct (rewriteNode_foreign (fetchPage env fuel) (processCssFile env fuel)
                inZipPath chain name attrs (textContent (Elem name attrs cs))
                _ st1 Hroot) as (attrs1 & Hrun & Hkeep).
    rewrite Hrun in Hrw. injection Hrw as <- _. simpl. by apply Hkeep.
Qed.

End Places.

(** C4, amended.  Self-links are preserved.  The root name of an element
    is the name of the nearest [svg] or [math] element from the element
    up, and the name of the document element when there is none.  An
    [href] of an [a] or [area] whose root name is neither [svg] nor
    [math], an [href] of an element whose root name is [svg] or [math],
    and an [xlink:href] of an element whose root name is [svg], that
    resolves to a file of the archive, is rewritten to [#] followed by the
    fragment of the resolved URL, as the URL parser gives it, when the
    file is the document being rewritten, and to the file's locator
    followed by that fragment when it is another file.  An [xlink:href]
    of an element whose root name is not [svg] is left as written.  The
    first two parts are of [rewriteNode], for any root name it is called
    with; the third is of a page: for the element at any place of the
    tree [rewriteRecursively] returns, the root name is the one of that
    place. *)
Theorem self_link_preserved :
  (∀ env fetchPage_rec processCssFile_rec inZipPath chain nodeName attrs
     text rootName attr v u f st r st',
     selfLinkContext (JS.toLowerCase nodeName) rootName attr →
     lookupAttribute attrs attr = Some v →
     URL_new env v (JS.or_undefined (Some (refUrl env inZipPath))) = Some u →
     JS.startsWith (Url.href u) (virtualBase env) = true →
     inZipFiles st !! hrefToInZipPath env (Url.href (Url.clear_search_hash u))
       = Some f →
     rewriteNode env fetchPage_rec processCssFile_rec inZipPath chain nodeName
       attrs text rootName st = Some (r, st') →
     lookupAttribute (r_attrs r) attr
     = Some (if decide (Some (hrefToInZipPath env
                                (Url.href (Url.clear_search_hash u)))
                        = inZipPath)
             then "#" +:+ default "" (url_fragment u)
             else file_url f +:+ Url.hash u))
  ∧ (∀ env fetchPage_rec processCssFile_rec inZipPath chain nodeName attrs
       text rootName st r st',
       rootName ≠ "svg" →
       rewriteNode env fetchPage_rec processCssFile_rec inZipPath chain
         nodeName attrs text rootName st = Some (r, st') →
       lookupAttribute (r_attrs r) "xlink:href"
       = lookupAttribute attrs "xlink:href")
  ∧ (∀ env fuel inZipPath chain elem path rootName st elem' st' name attrs'
       cs',
       issued st →
       rewriteRecursively env (fetchPage env fuel) (processCssFile env fuel)
         inZipPath chain elem rootName st = Some (elem', st') →
       nodeAt elem' path = Some (Elem name attrs' cs') →
       ∃ attrs cs,
         nodeAt elem path = Some (Elem name attrs cs)
         ∧ (∀ attr v u f,
              selfLinkContext (JS.toLowerCase name)
                (rootNameAt rootName elem path) attr →
              lookupAttribute attrs attr = Some v →
              URL_new env v (JS.or_undefined (Some (refUrl env inZipPath)))
                = Some u →
              JS.startsWith (Url.href u) (virtualBase env) = true →
              inZipFiles st !! hrefToInZipPath env
                                 (Url.href (Url.clear_search_hash u))
                = Some f →
              lookupAttribute attrs' attr
              = Some (if decide (Some (hrefToInZipPath env
                                         (Url.href (Url.clear_search_hash u)))
                                 = inZipPath)
                      then "#" +:+ default "" (url_fragment u)
                      else file_url f +:+ Url.hash u))
         ∧ (rootNameAt rootName elem path ≠ "svg" →
            lookupAttribute attrs' "xlink:href"
            = lookupAttribute attrs "xlink:href")).
Proof.
  split; [|split].
  - intros. by eapply rewriteNode_self_link.
  - intros. by eapply rewriteNode_xlink.
  - intros. by eapply page_self_link.
Qed.

Lemma self_link_preserved_witness :
  (let st := Example.loaded Example.framesAB in
   let r := kept [("href", "#top")] in
   lookupAttribute (r_attrs r) "href" = Some "#top").
Proof.
  apply (proj1 self_link_preserved Example.env (λ _ _ _, unfinished)
           (λ _, unfinished) (Some "A.html") 0 "a" [("href", "A.html#top")]
           "" "html" "href" "A.html#top"
           {| url_main := inZipPathToUrl Example.env (Some "A.html");
              url_query := None; url_fragment := Some "top" |}
           {| file := zip_file (Example.html Example.pageA);
              file_url := "blob:0" |}
           (Example.loaded Example.framesAB) (kept [("href", "#top")])
           (Example.loaded Example.framesAB)).
  - right. right. split; [done|]. split; [done|]. split; [by left | done].
  - reflexivity.
  - reflexivity.
  - reflexivity.
  - vm_compute. reflexivity.
  - vm_compute. reflexivity.
Defined.

(** C4 as stated does not hold.  Under a MathML root only [href] is
    rewritten: an [xlink:href] that resolves to the document itself is left
    as it is.  A link to another file of the archive gets that file's
    locator with the reference's fragment, not the bare locator.  And what
    counts is the nearest [svg] or [math] element from the element up, not
    any such ancestor: the [xlink:href] of an element of a MathML subtree
    inside an SVG subtree is left as it is, that of an element of an SVG
    subtree inside a MathML subtree is rewritten. *)
Lemma self_link_counterexample :
  (let st := Example.loaded Example.framesAB in
   let self := Some "A.html" in
   let rewrite name attrs root :=
     rewriteNode Example.env (λ _ _ _, unfinished) (λ _, unfinished) self 0
       name attrs "" root st in
   let visit tree :=
     rewriteRecursively Example.env (λ _ _ _, unfinished) (λ _, unfinished)
       self 0 tree "html" st in
   info_inZipPath (parseUrl Example.env (inZipFiles st) "A.html#x"
                     (Some (refUrl Example.env self))) = self
   ∧ rewrite "mi" [("xlink:href", "A.html#x")] "math"
     = Some (kept [("xlink:href", "A.html#x")], st)
   ∧ file_url <$> inZipFiles st !! "B.html" = Some "blob:1"
   ∧ rewrite "a" [("href", "B.html#x")] "html"
     = Some (kept [("href", "blob:1#x")], st)
   ∧ visit (Elem "svg" []
              [Elem "foreignObject" []
                 [Elem "math" []
                    [Elem "mi" [("xlink:href", "A.html#x")] []]]])
     = Some (Elem "svg" []
               [Elem "foreignObject" []
                  [Elem "math" []
                     [Elem "mi" [("xlink:href", "A.html#x")] []]]], st)
   ∧ visit (Elem "math" []
              [Elem "annotation-xml" []
                 [Elem "svg" []
                    [Elem "a" [("xlink:href", "A.html#x")] []]]])
     = Some (Elem "math" []
               [Elem "annotation-xml" []
                  [Elem "svg" []
                     [Elem "a" [("xlink:href", "#x")] []]]], st)).
Proof. vm_compute. done. Qed.

(** ** Placeholders of a style sheet *)

Section Placeholders.

Variable env : Env.
Variable processCssFile_rec : RewriteFunc.

(** The task of a reference that points back into the chain returns
    [about:blank] and records nothing: the entry's [newUrl] stays as it
    was. *)
Lemma startFetch_cycle this key e st :
  lookupKey (urlHash this) key = Some e →
  info_inZip (parseUrl env (inZipFiles st) (entry_url e)
                (last (chainAt st (recurseChain this)))) = true →
  (splitUrlByAnchor
     (inZipPathToUrl env
        (info_inZipPath (parseUrl env (inZipFiles st) (entry_url e)
                           (last (chainAt st (recurseChain this))))))).1
    ∈ chainAt st (recurseChain this) →
  startFetch env processCssFile_rec this key st
  = Some (("about:blank", this), st).
Proof.
  intros He Hin Hcyc. unfold chainAt in Hin, Hcyc.
  unfold startFetch, viewer_parseUrl, readArray, bind, gets.
  rewrite He. cbv beta. rewrite Hin. unfold JS.includes.
  by rewrite bool_decide_eq_true_2.
Qed.

(** A recorded token whose [newUrl] was never set is replaced by the
    text [null]. *)
Lemma replacement_unset this key e :
  lookupKey (urlHash this) key = Some e → newUrl e = None →
  replacement this key = "null".
Proof. unfold replacement. by intros -> ->. Qed.

End Placeholders.

(** C1 fails on the code.  The task that [startFetches] runs for a
    reference pointing back into the recursion chain returns [about:blank]
    without recording it in the token's entry; [finalRewrite] then
    substitutes the entry's [newUrl], still [null], and the marker becomes
    the text [null].  In the archive where [a.css] imports [b.css] and
    [b.css] imports [a.css], the rewritten [b.css] (object URL 3) reads
    [@import url(null)], not [@import url(about:blank)]. *)
Theorem cyclic_placeholder_becomes_null :
  (∀ env processCssFile_rec this key e st,
     lookupKey (urlHash this) key = Some e →
     newUrl e = None →
     info_inZip (parseUrl env (inZipFiles st) (entry_url e)
                   (last (chainAt st (recurseChain this)))) = true →
     (splitUrlByAnchor
        (inZipPathToUrl env
           (info_inZipPath (parseUrl env (inZipFiles st) (entry_url e)
                              (last (chainAt st (recurseChain this))))))).1
       ∈ chainAt st (recurseChain this) →
     startFetch env processCssFile_rec this key st
     = Some (("about:blank", this), st)
     ∧ replacement this key = "null")
  ∧ (let run := init Example.env 4 None "index.html" "" Example.importsAB in
     let st := Example.after run emptyViewer in
     Example.result run emptyViewer = Some (Some "blob:5")
     ∧ blobUrlToInZipPath st !! "blob:3" = Some "b.css"
     ∧ Example.textAt st 3 = Some "@import url(null); p{color:red}").
Proof.
  split.
  - intros env pcf this key e st He Hnew Hin Hcyc.
    split; [by eapply startFetch_cycle|].
    by eapply replacement_unset.
  - vm_compute. done.
Qed.

(** ** Meta refresh *)

Section MetaRefresh.
Variable env : Env.
Variable fetchPage_rec : option string → string → loc → M (option string).
Variable inZipPath : option string.
Variable chain : loc.

Lemma rewriteMetaRefresh_run attrs st :
  rewriteMetaRefresh env fetchPage_rec inZipPath chain attrs st
  = let metaRefresh := parseHeaderRefresh env (getAttribute attrs "content") in
    match refresh_url metaRefresh with
    | Some target =>
        if JS.truthy target then
          let info := parseUrl env (inZipFiles st) target
                        (Some (refUrl env inZipPath)) in
          let sourcePage := (splitUrlByAnchor (refUrl env inZipPath)).1 in
          let tp := splitUrlByAnchor
                      (JS.opt_or (info_virtualUrl info) (info_url info)) in
          if bool_decide (tp.1 ≠ sourcePage) then
            if JS.includes (chainAt st chain) tp.1 then
              Some (setAttribute attrs "content"
                      (refresh_time metaRefresh +:+ ";url=about:blank"), st)
            else if info_inZip info then
              (fetchedUrl <- fetchPage_rec (info_inZipPath info)
                               (info_url info) (length (arrays st)) ;;
               ret (setAttribute attrs "content"
                      (refresh_time metaRefresh +:+ ";url="
                       +:+ JS.opt_or fetchedUrl (info_url info))))
                (set_arrays
                   (λ h, h ++ [chainAt st chain ++ [refUrl env inZipPath]]) st)
            else
              (blobUrl <- createObjectURL
                            {| blob_type := "text/html";
                               blob_body :=
                                 Bytes (redirectNotice env (info_url info)) |} ;;
               ret (setAttribute attrs "content"
                      (refresh_time metaRefresh +:+ ";url="
                       +:+ (blobUrl +:+ tp.2)))) st
          else
            Some (setAttribute attrs "content"
                    (refresh_time metaRefresh
                     +:+ (if JS.truthy tp.2 then ";url=" +:+ tp.2 else "")),
                  st)
        else Some (attrs, st)
    | None => Some (attrs, st)
    end.
Proof.
  unfold rewriteMetaRefresh. cbv zeta.
  destruct (refresh_url _) as [target|]; [|done].
  destruct (JS.truthy target); [|done].
  unfold bind at 1, viewer_parseUrl, gets.
  destruct (splitUrlByAnchor _) as [tp tph]. simpl.
  destruct (bool_decide _); [|done].
  unfold bind at 1, readArray, gets. fold (chainAt st chain).
  destruct (JS.includes _ _); [done|].
  destruct (info_inZip _); [|done].
  unfold bind at 1. rewrite childChain_run. done.
Qed.

(** The target is the page itself, by its URL without the fragment: the
    delay is kept and only the fragment is carried. *)
Lemma refresh_same_page attrs st target :
  refresh_url (parseHeaderRefresh env (getAttribute attrs "content"))
    = Some target →
  JS.truthy target = true →
  (splitUrlByAnchor
     (JS.opt_or
        (info_virtualUrl (parseUrl env (inZipFiles st) target
                            (Some (refUrl env inZipPath))))
        (info_url (parseUrl env (inZipFiles st) target
                     (Some (refUrl env inZipPath)))))).1
    = (splitUrlByAnchor (refUrl env inZipPath)).1 →
  rewriteMetaRefresh env fetchPage_rec inZipPath chain attrs st
  = Some (setAttribute attrs "content"
            (refresh_time (parseHeaderRefresh env (getAttribute attrs "content"))
             +:+ (let hash :=
                    (splitUrlByAnchor
                       (JS.opt_or
                          (info_virtualUrl
                             (parseUrl env (inZipFiles st) target
                                (Some (refUrl env inZipPath))))
                          (info_url
                             (parseUrl env (inZipFiles st) target
                                (Some (refUrl env inZipPath)))))).2 in
                  if JS.truthy hash then ";url=" +:+ hash else "")),
          st).
Proof.
  intros Hurl Htruthy Hsame. rewrite rewriteMetaRefresh_run. cbv zeta.
  rewrite Hurl, Htruthy. by rewrite bool_decide_eq_false_2 by auto.
Qed.

(** The target is another file of the archive, not in the chain: the page
    is fetched with the child chain and its locator substituted. *)
Lemma refresh_other_page attrs st target :
  refresh_url (parseHeaderRefresh env (getAttribute attrs "content"))
    = Some target →
  JS.truthy target = true →
  let info := parseUrl env (inZipFiles st) target
                (Some (refUrl env inZipPath)) in
  let targetPage :=
    (splitUrlByAnchor (JS.opt_or (info_virtualUrl info) (info_url info))).1 in
  targetPage ≠ (splitUrlByAnchor (refUrl env inZipPath)).1 →
  targetPage ∉ chainAt st chain →
  info_inZip info = true →
  rewriteMetaRefresh env fetchPage_rec inZipPath chain attrs st
  = (fetchedUrl <- fetchPage_rec (info_inZipPath info) (info_url info)
                     (length (arrays st)) ;;
     ret (setAttribute attrs "content"
            (refresh_time (parseHeaderRefresh env (getAttribute attrs "content"))
             +:+ ";url=" +:+ JS.opt_or fetchedUrl (info_url info))))
      (set_arrays (λ h, h ++ [chainAt st chain ++ [refUrl env inZipPath]]) st).
Proof.
  intros Hurl Htruthy info targetPage Hdiff Hnot Hin.
  rewrite rewriteMetaRefresh_run. cbv zeta.
  rewrite Hurl, Htruthy. fold info. fold targetPage.
  rewrite bool_decide_eq_true_2 by done.
  unfold JS.includes. rewrite bool_decide_eq_false_2 by done.
  by rewrite Hin.
Qed.

(** The target is outside the archive: the refresh is pointed at a new
    blob holding the redirect notice for the URL, with the target's
    fragment appended to the blob's URL. *)
Lemma refresh_external attrs st target :
  refresh_url (parseHeaderRefresh env (getAttribute attrs "content"))
    = Some target →
  JS.truthy target = true →
  let info := parseUrl env (inZipFiles st) target
                (Some (refUrl env inZipPath)) in
  let tp := splitUrlByAnchor (info_url info) in
  info_inZip info = false →
  info_virtualUrl info = None →
  tp.1 ≠ (splitUrlByAnchor (refUrl env inZipPath)).1 →
  tp.1 ∉ chainAt st chain →
  rewriteMetaRefresh env fetchPage_rec inZipPath chain attrs st
  = (blobUrl <- createObjectURL
                  {| blob_type := "text/html";
                     blob_body := Bytes (redirectNotice env (info_url info)) |} ;;
     ret (setAttribute attrs "content"
            (refresh_time (parseHeaderRefresh env (getAttribute attrs "content"))
             +:+ ";url=" +:+ (blobUrl +:+ tp.2)))) st.
Proof.
  intros Hurl Htruthy info tp Hin Hv Hdiff Hnot.
  rewrite rewriteMetaRefresh_run. cbv zeta.
  rewrite Hurl, Htruthy. fold info. rewrite Hv. cbn [JS.opt_or]. fold tp.
  rewrite bool_decide_eq_true_2 by done.
  unfold JS.includes. rewrite bool_decide_eq_false_2 by done.
  by rewrite Hin.
Qed.

End MetaRefresh.


(** *** A page that refreshes to itself *)

Module SelfRefresh.

Definition self : option string := Some "a,b.html".
Definition target : string := Example.base +:+ "a,b.html".
Definition metaAttrs : Attrs :=
  [("http-equiv", "refresh"); ("content", "5;url=a,b.html#top")].

(** The store holds the page, and the chain does not hold the URL the
    refresh resolves to. *)
Definition looping (st : Viewer) (c : loc) : Prop :=
  inZipFiles st = inZipFiles (Example.loaded Example.refreshSelf) ∧ target ∉ chainAt st c.

Lemma refresh_recurses fp c st :
  looping st c →
  rewriteMetaRefresh Example.env fp self c metaAttrs st
  = (fetchedUrl <- fp self "blob:0#top" (length (arrays st)) ;;
     ret (setAttribute metaAttrs "content"
            ("5;url=" +:+ JS.opt_or fetchedUrl "blob:0#top")))
      (set_arrays (λ h, h ++ [chainAt st c ++ [refUrl Example.env self]]) st).
Proof.
  intros [Hfiles Hnot]. rewrite rewriteMetaRefresh_run. rewrite Hfiles.
  cbv zeta.
  change (parseHeaderRefresh Example.env (getAttribute metaAttrs "content"))
    with {| refresh_time := "5"; refresh_url := Some "a,b.html#top" |}.
  cbn [refresh_url refresh_time].
  change (JS.truthy "a,b.html#top") with true. cbv iota.
  set (info := parseUrl Example.env (inZipFiles (Example.loaded Example.refreshSelf)) _ _).
  assert (Hinfo : info = {| info_url := "blob:0#top";
       info_virtualUrl := Some (target +:+ "#top");
       info_inZip := true;
       info_inZipPath := self;
       info_mime := Some "text/html";
       info_search := Some "";
       info_hash := Some "#top" |}) by (vm_compute; reflexivity).
  rewrite Hinfo. cbn [info_url info_virtualUrl info_inZip info_inZipPath].
  change (splitUrlByAnchor (JS.opt_or (Some (target +:+ "#top")) "blob:0#top"))
    with (target, "#top").
  cbn [fst snd].
  rewrite bool_decide_eq_true_2 by (vm_compute; congruence).
  unfold JS.includes. rewrite bool_decide_eq_false_2 by done.
  reflexivity.
Qed.

Lemma refresh_loops fp c st :
  (∀ url st1 c1, looping st1 c1 → fp self url c1 st1 = None) →
  looping st c →
  rewriteMetaRefresh Example.env fp self c metaAttrs st = None.
Proof.
  intros Hfp Hloop. rewrite refresh_recurses by done.
  unfold bind. rewrite Hfp; [done|].
  destruct Hloop as [Hfiles Hnot]. split; [done|].
  unfold chainAt at 1. simpl. rewrite lookup_new_array. simpl.
  rewrite elem_of_app, list_elem_of_singleton.
  intros [H | H]; [done|]. vm_compute in H. congruence.
Qed.

Lemma plain_node env fp pcf ip c name text :
  name = "html" ∨ name = "head" ∨ name = "body" →
  rewriteNode env fp pcf ip c name [] text "html" = ret (kept []).
Proof. by intros [-> | [-> | ->]]. Qed.

Lemma meta_node_refresh env fp pcf ip c text :
  rewriteNode env fp pcf ip c "meta" metaAttrs text "html"
  = (r <- kept <$$> rewriteMetaRefresh env fp ip c metaAttrs ;;
     rewriteStyleAttr env pcf ip c r).
Proof. reflexivity. Qed.

(** Evaluates the conditions and texts of [H] that have no variable. *)
Ltac eval_closed H :=
  repeat match type of H with
  | context [if bool_decide ?P then ?a else ?b] =>
      let v := eval vm_compute in (if bool_decide P then a else b) in
      change (if bool_decide P then a else b) with v in H
  | context [textContent ?n] =>
      let v := eval vm_compute in (textContent n) in
      change (textContent n) with v in H
  end.

Lemma page_loops fp pcf c st :
  (∀ url st1 c1, looping st1 c1 → fp self url c1 st1 = None) →
  looping st c →
  rewriteRecursively Example.env fp pcf self c Example.refreshPage "html" st = None.
Proof.
  intros Hfp Hloop.
  destruct (rewriteRecursively _ _ _ _ _ _ _ _) as [[r st']|] eqn:H; [|done].
  exfalso. unfold Example.refreshPage in H. cbn [rewriteRecursively] in H.
  eval_closed H.
  rewrite !plain_node in H by tauto.
  rewrite meta_node_refresh in H.
  apply bind_Some in H as (r0 & st0 & [<- <-]%ret_Some & H).
  cbn [r_cleared kept] in H.
  apply bind_Some in H as (cs & st1 & H & _).
  apply bind_Some in H as (hd & st2 & H & _).
  apply bind_Some in H as (r1 & st3 & [<- <-]%ret_Some & H).
  cbn [r_cleared kept] in H.
  apply bind_Some in H as (cs1 & st4 & H & _).
  apply bind_Some in H as (m & st5 & H & _).
  apply bind_Some in H as (r2 & st6 & H & _).
  apply bind_Some in H as (r3 & st7 & H & _).
  apply fmapM_Some in H as (a & H & _).
  by rewrite refresh_loops in H.
Qed.

Lemma fetchPage_loops fuel : ∀ url c st,
  looping st c → fetchPage Example.env fuel self url c st = None.
Proof.
  induction fuel as [|n IH]; intros url c st Hloop; [done|].
  cbn [fetchPage]. unfold fetchPage_body.
  destruct (bind _ _ st) as [[r st']|] eqn:H; [|done]. exfalso.
  apply bind_Some in H as (fetched & st1 & H & _).
  unfold fetchFile in H.
  apply bind_Some in H as (files & st2 & [<- <-]%gets_Some & H).
  unfold self in H at 1. rewrite (proj1 Hloop) in H.
  change (inZipFiles (Example.loaded Example.refreshSelf) !! "a,b.html")
    with (Some {| file := zip_file (Example.html Example.refreshPage);
                  file_url := "blob:0" |}) in H.
  apply bind_Some in H as (b & st3 & H & _).
  unfold pageRewriteFunc in H. cbn [rp_data rp_recurseChain file] in H.
  change (JS.includes pageTypes
            (blob_type (zip_file (Example.html Example.refreshPage))))
    with true in H.
  change (readFileAsDocument (zip_file (Example.html Example.refreshPage)))
    with (Some {| contentType := "text/html"; doctype := "<!DOCTYPE html>";
                  documentElement := Example.refreshPage |}) in H.
  cbv iota in H.
  apply bind_Some in H as (x & st4 & H & _).
  unfold parseDocument in H. cbn [documentElement] in H.
  apply bind_Some in H as (root & st5 & H & _).
  change (JS.toLowerCase _) with "html" in H.
  rewrite page_loops in H; [done | | done].
  intros. by apply IH.
Qed.

(** The target of the refresh is the page itself. *)
Lemma refresh_targets_self :
  info_inZipPath
    (parseUrl Example.env (inZipFiles (Example.loaded Example.refreshSelf))
       "a,b.html#top" (Some (refUrl Example.env self))) = self.
Proof. vm_compute. reflexivity. Qed.

(** C6 fails on the code.  The page [a,b.html] refreshes to
    [a,b.html#top], which resolves to the page itself.  The test for the
    same page compares the resolved URL, where the comma stands as it is,
    with the page's virtual URL, where [inZipPathToUrl] has encoded it;
    they differ, the target is not found in the chain either, and the
    page is fetched and rewritten again, with the same outcome at every
    depth: the viewer never finishes, whatever the recursion bound. *)
Theorem meta_refresh_self_diverges :
  info_inZipPath
    (parseUrl Example.env (inZipFiles (Example.loaded Example.refreshSelf))
       "a,b.html#top" (Some (inZipPathToUrl Example.env (Some "a,b.html"))))
  = Some "a,b.html"
  ∧ ∀ fuel,
      init Example.env fuel None "a,b.html" "" Example.refreshSelf emptyViewer
      = None.
Proof.
  split; [vm_compute; reflexivity|].
  intros fuel. unfold init.
  destruct (bind _ _ emptyViewer) as [[r st]|] eqn:H; [|done]. exfalso.
  apply bind_Some in H as ([] & st1 & H1 & H).
  apply bind_Some in H as (c & st2 & H2 & H).
  vm_compute in H1. injection H1 as <-.
  vm_compute in H2. injection H2 as <- <-.
  change (JS.or_else "a,b.html" "index.html") with "a,b.html" in H.
  fold self in H. rewrite fetchPage_loops in H; [done|].
  split; [vm_compute; reflexivity|].
  vm_compute. by intros ?%elem_of_nil.
Qed.
End SelfRefresh.

(** ** Termination on archives whose pages recurse through frames only *)

(** [meta] with [http-equiv=refresh] *)
Definition refreshes (attrs : Attrs) : bool :=
  hasAttribute attrs "http-equiv" && hasAttribute attrs "content"
  && bool_decide (JS.toLowerCase (getAttribute attrs "http-equiv") = "refresh").

(** An element that [rewriteNode] handles without a style sheet and
    without a meta refresh. *)
Definition plainElement (nodeName : string) (attrs : Attrs) : bool :=
  negb (bool_decide (nodeName = "meta") && refreshes attrs)
  && negb (bool_decide (nodeName = "link") && hasAttribute attrs "href"
           && relStylesheet attrs)
  && negb (bool_decide (nodeName = "style"))
  && negb (hasAttribute attrs "style").

(** A tree all of whose elements outside SVG and MathML are plain;
    [rootName] is the root name the traversal enters the node with. *)
Fixpoint framesOnly (rootName : string) (n : Node) : bool :=
  match n with
  | Text _ => true
  | Elem name attrs cs =>
      let nodeName := JS.toLowerCase name in
      let rootName :=
        if bool_decide (nodeName ∈ ["svg"; "math"]) then nodeName
        else rootName in
      (bool_decide (rootName ∈ ["svg"; "math"]) || plainElement nodeName attrs)
      && forallb (framesOnly rootName) cs
  end.

(** Every markup file of the store is such a tree. *)
Definition framesOnlyStore (files : gmap string ZipEntry) : Prop :=
  ∀ path e dt root,
    files !! path = Some e → blob_body (file e) = Markup dt root →
    framesOnly (JS.toLowerCase (match root with
                                | Elem name _ _ => name
                                | Text _ => ""
                                end)) root = true.

Lemma filter_length_le {A} (P Q : A → Prop)
    `{∀ x, Decision (P x)} `{∀ x, Decision (Q x)} (l : list A) :
  (∀ x, Q x → P x) → length (filter Q l) ≤ length (filter P l).
Proof.
  intros HQP. induction l as [|y l IH]; [done|].
  rewrite !filter_cons. destruct (decide (Q y)) as [Hq|Hq].
  - rewrite decide_True by auto. simpl. lia.
  - destruct (decide (P y)); simpl; lia.
Qed.

Lemma filter_length_lt {A} (P Q : A → Prop)
    `{∀ x, Decision (P x)} `{∀ x, Decision (Q x)} (l : list A) (x : A) :
  x ∈ l → P x → ¬ Q x → (∀ y, Q y → P y) →
  length (filter Q l) < length (filter P l).
Proof.
  intros Hx HP HQ HQP. induction l as [|y l IH]; [by apply elem_of_nil in Hx|].
  rewrite !filter_cons. apply elem_of_cons in Hx as [<- | Hx].
  - rewrite decide_False, decide_True by done. simpl.
    pose proof (filter_length_le P Q l HQP). lia.
  - specialize (IH Hx). destruct (decide (Q y)) as [Hq|Hq].
    + rewrite decide_True by auto. simpl. lia.
    + destruct (decide (P y)); simpl; lia.
Qed.

(** A computation whose result has the [style] attribute, if any, that
    [attrs] has. *)
Definition keepsStyle {A} (proj : A → Attrs) (m : M A) (attrs : Attrs) : Prop :=
  ∀ st a st', m st = Some (a, st') →
    lookupAttribute (proj a) "style" = lookupAttribute attrs "style".

Lemma keeps_ret attrs : keepsStyle id (ret attrs) attrs.
Proof. by intros st a st' [<- _]%ret_Some. Qed.

Lemma keeps_set attrs name v :
  name ≠ "style" → keepsStyle id (ret (setAttribute attrs name v)) attrs.
Proof.
  intros Hne st a st' [<- _]%ret_Some. by apply lookup_setAttribute_ne.
Qed.

Lemma keeps_bind {A B} (proj : B → Attrs) (m : M A) (k : A → M B) attrs :
  (∀ x, keepsStyle proj (k x) attrs) → keepsStyle proj (bind m k) attrs.
Proof. intros Hk st b st' (a & st1 & _ & H)%bind_Some. by eapply Hk. Qed.

Lemma keeps_trans {B} (proj : B → Attrs) (m : M Attrs) (k : Attrs → M B) attrs :
  keepsStyle id m attrs → (∀ a, keepsStyle proj (k a) a) →
  keepsStyle proj (bind m k) attrs.
Proof.
  intros Hm Hk st b st' (a & st1 & H1 & H)%bind_Some.
  rewrite (Hk a _ _ _ H). by apply (Hm _ _ _ H1).
Qed.

Lemma keeps_kept (m : M Attrs) attrs :
  keepsStyle id m attrs → keepsStyle r_attrs (kept <$$> m) attrs.
Proof. intros Hm st r st' (a & H & ->)%fmapM_Some. by apply (Hm _ _ _ H). Qed.

Lemma keeps_ret_kept attrs : keepsStyle r_attrs (ret (kept attrs)) attrs.
Proof. by intros st a st' [<- _]%ret_Some. Qed.

Ltac keeps_step :=
  first
    [ apply keeps_ret | apply keeps_ret_kept
    | apply keeps_set; done
    | apply keeps_bind; intros ?
    | match goal with
      | |- keepsStyle _ (if ?b then _ else _) _ => destruct b
      | |- keepsStyle _ (match ?x with _ => _ end) _ => destruct x
      | |- keepsStyle _ (let '(_, _) := ?x in _) _ => destruct x
      end ].

Section Termination.

Variable env : Env.

Section KeepsStyle.

Variable fetchPage_rec : option string → string → loc → M (option string).
Variable processCssFile_rec : RewriteFunc.
Variable inZipPath : option string.
Variable chain : loc.

Lemma keeps_rewriteAttr attrs name :
  name ≠ "style" → keepsStyle id (rewriteAttr env inZipPath attrs name) attrs.
Proof. intros. unfold rewriteAttr. repeat keeps_step. Qed.

Lemma keeps_rewriteSrcsetAttr attrs name :
  name ≠ "style" →
  keepsStyle id (rewriteSrcsetAttr env inZipPath attrs name) attrs.
Proof. intros. unfold rewriteSrcsetAttr. repeat keeps_step. Qed.

Lemma keeps_rewriteLink attrs name :
  name ≠ "style" → keepsStyle id (rewriteLink env inZipPath attrs name) attrs.
Proof. intros. unfold rewriteLink. repeat keeps_step. Qed.

Lemma keeps_rewriteMeta attrs :
  keepsStyle id (rewriteMeta env fetchPage_rec inZipPath chain attrs) attrs.
Proof. unfold rewriteMeta, rewriteMetaRefresh. repeat keeps_step. Qed.

Lemma keeps_rewriteLinkElement attrs :
  keepsStyle id (rewriteLinkElement env processCssFile_rec inZipPath attrs)
    attrs.
Proof. unfold rewriteLinkElement. repeat keeps_step. Qed.

Lemma keeps_rewriteFrame attrs :
  keepsStyle id (rewriteFrame env fetchPage_rec inZipPath chain attrs) attrs.
Proof. unfold rewriteFrame. repeat keeps_step. Qed.

Lemma keeps_localize attrs name :
  name ≠ "style" → keepsStyle id (localize env attrs name) attrs.
Proof. intros. unfold localize. repeat keeps_step. Qed.

Lemma keeps_rewritePlugin attrs name :
  name ≠ "style" → keepsStyle id (rewritePlugin env inZipPath attrs name) attrs.
Proof.
  intros. unfold rewritePlugin. destruct (hasAttribute _ _); [|keeps_step].
  apply keeps_trans; [by apply keeps_rewriteAttr|].
  intros. by apply keeps_localize.
Qed.

Lemma keeps_rewriteScript attrs text :
  keepsStyle r_attrs (rewriteScript env inZipPath attrs text) attrs.
Proof.
  unfold rewriteScript. destruct (hasAttribute _ _).
  - apply keeps_bind. intros url.
    intros st r st' (a & st1 & H1 & H)%bind_Some.
    apply (keeps_localize _ "src" ltac:(done)) in H1. simpl in H1.
    rewrite lookup_setAttribute_ne in H1 by done. rewrite <- H1.
    destruct (_ && _); apply ret_Some in H as [<- _]; simpl;
      [by rewrite lookup_setAttribute_ne | done].
  - destruct (hasCsp env); [|keeps_step].
    destruct (JS.truthy text); [|keeps_step].
    apply keeps_bind. intros u st r st' [<- _]%ret_Some. simpl.
    by rewrite lookup_setAttribute_ne.
Qed.

Lemma keeps_rewriteByName name attrs text :
  keepsStyle r_attrs
    (rewriteByName env fetchPage_rec processCssFile_rec inZipPath chain name
       attrs text) attrs.
Proof.
  unfold rewriteByName.
  repeat first
    [ apply keeps_rewriteScript
    | apply keeps_kept
    | apply keeps_rewriteMeta | apply keeps_rewriteLinkElement
    | apply keeps_rewriteFrame
    | apply keeps_rewriteAttr; done
    | apply keeps_rewriteSrcsetAttr; done
    | apply keeps_rewriteLink; done
    | apply keeps_rewritePlugin; done
    | apply keeps_trans; [| intros ?]
    | match goal with
      | |- keepsStyle _ (if ?b then _ else _) _ => destruct b
      end
    | apply keeps_ret_kept
    | apply keeps_bind; intros ?
    | by intros ??? [<- _]%ret_Some ].
Qed.

(** [rewriteNode] outside SVG and MathML hands [rewriteStyleAttr] the
    [style] attribute the element has. *)
Lemma rewriteStyleAttr_plain r st :
  hasAttribute (r_attrs r) "style" = false →
  rewriteStyleAttr env processCssFile_rec inZipPath chain r st = Some (r, st).
Proof. unfold rewriteStyleAttr. by intros ->. Qed.

End KeepsStyle.

(** A computation that returns from every state reached since [st0], and
    leaves such a state. *)
Definition good {A} (st0 : Viewer) (m : M A) : Prop :=
  ∀ st, Inv st0 st → ∃ a st', m st = Some (a, st') ∧ Inv st0 st'.

Lemma good_of_stable {A} st0 (m : M A) :
  stable m → (∀ st, Inv st0 st → is_Some (m st)) → good st0 m.
Proof.
  intros Hs Ht st HI. destruct (Ht st HI) as [[a st'] H].
  exists a, st'. split; [done|]. by eapply Hs.
Qed.

Lemma good_ret {A} st0 (a : A) : good st0 (ret a).
Proof. intros st HI. by exists a, st. Qed.

Lemma good_bind {A B} st0 (m : M A) (k : A → M B) :
  good st0 m → (∀ a, good st0 (k a)) → good st0 (bind m k).
Proof.
  intros Hm Hk st HI. destruct (Hm st HI) as (a & st1 & H1 & HI1).
  destruct (Hk a st1 HI1) as (b & st2 & H2 & HI2).
  exists b, st2. split; [|done]. unfold bind. by rewrite H1.
Qed.

Lemma good_fmapM {A B} st0 (f : A → B) (m : M A) :
  good st0 m → good st0 (fmapM f m).
Proof. intros. apply good_bind; [done | intros; apply good_ret]. Qed.

Lemma good_gets {A} st0 (f : Viewer → A) : good st0 (gets f).
Proof. intros st HI. by exists (f st), st. Qed.

Lemma good_createObjectURL st0 b : good st0 (createObjectURL b).
Proof.
  apply good_of_stable; [apply stable_createObjectURL | by eauto].
Qed.

Lemma good_set_deApiScriptUrl st0 u : good st0 (set_deApiScriptUrl u).
Proof.
  apply good_of_stable; [apply stable_set_deApiScriptUrl | by eauto].
Qed.

Ltac good_step :=
  first
    [ assumption
    | apply good_ret | apply good_gets | apply good_createObjectURL
    | apply good_set_deApiScriptUrl
    | apply good_fmapM
    | apply good_bind; [| intros ?]
    | match goal with
      | |- good _ (if ?b then _ else _) => destruct b
      | |- good _ (match ?x with _ => _ end) => destruct x
      end ].

Ltac goodness := repeat good_step.

Lemma parseUrl_not_inZip files url ref :
  info_inZip (parseUrl env files url ref) = false →
  info_inZipPath (parseUrl env files url ref) = None.
Proof.
  unfold parseUrl. destruct (URL_new env url _); [|done].
  destruct (JS.startsWith _ _); [|done].
  by destruct (files !! _).
Qed.

Section Elements.

Variable st0 : Viewer.
Variable fetchPage_rec : option string → string → loc → M (option string).
Variable processCssFile_rec : RewriteFunc.
Variable inZipPath : option string.
Variable chain : loc.

Hypothesis chain_valid : chain < length (arrays st0).

(** The recursive calls a frame can make return. *)
Hypothesis frames_return :
  ∀ st target url child,
    Inv st0 st →
    child < length (arrays st) →
    chainAt st child = chainAt st0 chain ++ [refUrl env inZipPath] →
    (target = None ∨ inZipPathToUrl env target ∉ chainAt st child) →
    ∃ r st', fetchPage_rec target url child st = Some (r, st') ∧ Inv st0 st'.

Lemma good_parseUrl url ref : good st0 (viewer_parseUrl env url ref).
Proof. apply good_gets. Qed.

Lemma good_rewriteUrl url over : good st0 (rewriteUrl env inZipPath url over).
Proof.
  unfold rewriteUrl. apply good_bind; [apply good_parseUrl | intros; goodness].
Qed.

Lemma good_rewriteAttr attrs name :
  good st0 (rewriteAttr env inZipPath attrs name).
Proof.
  unfold rewriteAttr. destruct (hasAttribute _ _); [|goodness].
  apply good_bind; [apply good_rewriteUrl | intros; goodness].
Qed.

Lemma good_rewriteSrcsetAttr attrs name :
  good st0 (rewriteSrcsetAttr env inZipPath attrs name).
Proof. unfold rewriteSrcsetAttr. goodness. Qed.

Lemma good_rewriteLink attrs name :
  good st0 (rewriteLink env inZipPath attrs name).
Proof. intros st HI. rewrite rewriteLink_run. eauto. Qed.

Lemma good_localize attrs name : good st0 (localize env attrs name).
Proof. unfold localize. goodness. Qed.

Lemma good_rewriteScript attrs text :
  good st0 (rewriteScript env inZipPath attrs text).
Proof.
  unfold rewriteScript. destruct (hasAttribute _ _); [|goodness].
  apply good_bind; [apply good_rewriteUrl | intros url].
  apply good_bind; [apply good_localize | intros; goodness].
Qed.

Lemma good_rewritePlugin attrs name :
  good st0 (rewritePlugin env inZipPath attrs name).
Proof.
  unfold rewritePlugin. destruct (hasAttribute _ _); [|goodness].
  apply good_bind; [apply good_rewriteAttr | intros; apply good_localize].
Qed.

Lemma good_rewriteFrame attrs :
  good st0 (rewriteFrame env fetchPage_rec inZipPath chain attrs).
Proof.
  intros st HI. destruct (hasAttribute attrs "src") eqn:Hsrc.
  2:{ unfold rewriteFrame. rewrite Hsrc. by exists attrs, st. }
  rewrite rewriteFrame_run by done. cbv zeta.
  assert (Hchain : chainAt st chain = chainAt st0 chain).
  { unfold chainAt. by rewrite (ext_arrays _ _ (proj2 HI)). }
  assert (HI1 : Inv st0 (set_arrays
            (λ h, h ++ [chainAt st chain ++ [refUrl env inZipPath]]) st)).
  { eapply (stable_childChain chain (refUrl env inZipPath)); [exact HI|].
    apply childChain_run. }
  destruct (info_inZip _ && _) eqn:Hcyc; [by eauto|].
  unfold bind.
  destruct (frames_return
              (set_arrays (λ h, h ++ [chainAt st chain ++ [refUrl env inZipPath]]) st)
              (info_inZipPath (parseUrl env (inZipFiles st)
                                 (getAttribute attrs "src")
                                 (Some (refUrl env inZipPath))))
              (info_url (parseUrl env (inZipFiles st)
                                 (getAttribute attrs "src")
                                 (Some (refUrl env inZipPath))))
              (length (arrays st)) HI1) as (r & st' & H & HI').
  - simpl. rewrite length_app. simpl. lia.
  - unfold chainAt at 1. simpl. rewrite lookup_new_array. simpl.
    by rewrite Hchain.
  - unfold chainAt at 1. simpl. rewrite lookup_new_array. simpl.
    apply andb_false_iff in Hcyc as [Hz | Hinc].
    + left. by apply parseUrl_not_inZip.
    + right. unfold JS.includes in Hinc.
      by apply bool_decide_eq_false in Hinc.
  - rewrite H. by eauto.
Qed.

Lemma good_rewriteMeta attrs :
  refreshes attrs = false →
  good st0 (rewriteMeta env fetchPage_rec inZipPath chain attrs).
Proof.
  unfold refreshes, rewriteMeta. intros ->.
  destruct (_ && _); [|goodness]. destruct (JS.includes _ _); [|goodness].
  apply good_bind; [apply good_rewriteUrl | intros; goodness].
Qed.

Lemma good_rewriteLinkElement attrs :
  hasAttribute attrs "href" && relStylesheet attrs = false →
  good st0 (rewriteLinkElement env processCssFile_rec inZipPath attrs).
Proof.
  unfold rewriteLinkElement. intros H.
  destruct (hasAttribute attrs "href"); [|goodness].
  simpl in H. rewrite H.
  apply good_bind; [apply good_rewriteUrl | intros; goodness].
Qed.

Ltac good_doc :=
  repeat first
    [ apply good_rewriteScript | apply good_rewriteAttr
    | apply good_rewriteSrcsetAttr | apply good_rewriteFrame
    | apply good_rewriteLink | apply good_rewritePlugin
    | good_step ].

Lemma good_rewriteByName name attrs text :
  plainElement name attrs = true →
  good st0 (rewriteByName env fetchPage_rec processCssFile_rec inZipPath
              chain name attrs text).
Proof.
  unfold plainElement. intros H.
  apply andb_true_iff in H as [H _].
  apply andb_true_iff in H as [H Hstyle].
  apply andb_true_iff in H as [Hmeta Hlink].
  unfold rewriteByName.
  destruct (decide (name = "meta")) as [->|].
  { apply good_fmapM, good_rewriteMeta.
    rewrite bool_decide_eq_true_2 in Hmeta by done. simpl in Hmeta.
    by apply negb_true_iff in Hmeta. }
  destruct (decide (name = "link")) as [->|].
  { apply good_fmapM, good_rewriteLinkElement.
    rewrite bool_decide_eq_true_2 in Hlink by done. simpl in Hlink.
    by apply negb_true_iff in Hlink. }
  destruct (decide (name = "style")) as [->|]; [done|].
  good_doc.
Qed.

Lemma good_rewriteNode nodeName attrs text rootName :
  bool_decide (rootName ∈ ["svg"; "math"])
  || plainElement (JS.toLowerCase nodeName) attrs = true →
  good st0 (rewriteNode env fetchPage_rec processCssFile_rec inZipPath chain
              nodeName attrs text rootName).
Proof.
  intros H. unfold rewriteNode.
  destruct (decide (rootName = "svg")); [good_doc|].
  destruct (decide (rootName = "math")); [good_doc|].
  rewrite bool_decide_eq_false_2 in H
    by (by intros [->|[->|?%elem_of_nil]%elem_of_cons]%elem_of_cons).
  simpl in H.
  intros st HI.
  destruct (good_rewriteByName _ _ text H st HI) as (r & st1 & H1 & HI1).
  exists r, st1. split; [|done]. unfold bind. rewrite H1.
  apply rewriteStyleAttr_plain.
  pose proof (keeps_rewriteByName _ _ _ _ _ _ _ _ _ _ H1) as Hk.
  unfold hasAttribute. rewrite Hk.
  unfold plainElement in H. apply andb_true_iff in H as [_ H].
  apply negb_true_iff in H. exact H.
Qed.

Lemma good_rewriteRecursively elem :
  ∀ rootName,
    framesOnly rootName elem = true →
    good st0 (rewriteRecursively env fetchPage_rec processCssFile_rec
                inZipPath chain elem rootName).
Proof.
  induction elem as [s | name attrs cs IH] using Node_children_ind;
    intros rootName Hf.
  - apply good_ret.
  - cbn [rewriteRecursively]. cbn [framesOnly] in Hf.
    apply andb_true_iff in Hf as [Hnode Hcs].
    apply good_bind; [by apply good_rewriteNode | intros r].
    apply good_bind; [|intros; goodness].
    destruct (r_cleared r); [goodness|].
    revert Hcs.
    generalize (if bool_decide (JS.toLowerCase name ∈ ["svg"; "math"])
                then JS.toLowerCase name else rootName).
    intros root Hcs. induction IH as [|c cs Hc _ IHcs]; [goodness|].
    cbn [forallb] in Hcs. apply andb_true_iff in Hcs as [Hc1 Hcs].
    apply good_bind; [by apply Hc | intros].
    apply good_bind; [by apply IHcs | intros; goodness].
Qed.

Lemma good_insertDeApiScript root : good st0 (insertDeApiScript env root).
Proof. unfold insertDeApiScript. goodness. Qed.

Lemma good_parseDocument doc :
  framesOnly (JS.toLowerCase (match documentElement doc with
                              | Elem name _ _ => name
                              | Text _ => ""
                              end)) (documentElement doc) = true →
  good st0 (parseDocument env fetchPage_rec processCssFile_rec inZipPath
              chain doc).
Proof.
  intros Hf. unfold parseDocument.
  apply good_bind; [by apply good_rewriteRecursively | intros root].
  destruct (JS.includes _ _); [|goodness].
  apply good_bind; [|intros; goodness].
  destruct (hasCsp env); [apply good_insertDeApiScript | goodness].
Qed.

End Elements.

(** The files of the store whose virtual URL is not in a chain. *)
Definition unvisited (files : gmap string ZipEntry) (chain : list string)
    : list string :=
  filter (λ p, inZipPathToUrl env (Some p) ∉ chain) (elements (dom files)).

Lemma unvisited_app files chain x :
  length (unvisited files (chain ++ [x])) ≤ length (unvisited files chain).
Proof.
  apply filter_length_le. intros p Hp Hin. apply Hp, elem_of_app. by left.
Qed.

Lemma unvisited_visit files chain path :
  is_Some (files !! path) →
  inZipPathToUrl env (Some path) ∉ chain →
  length (unvisited files (chain ++ [inZipPathToUrl env (Some path)]))
  < length (unvisited files chain).
Proof.
  intros Hin Hnot. apply (filter_length_lt _ _ _ path).
  - by apply elem_of_elements, elem_of_dom.
  - done.
  - intros Hp. apply Hp, elem_of_app. right. apply list_elem_of_here.
  - intros p Hp Hc. apply Hp, elem_of_app. by left.
Qed.

(** The rewrite function of [fetchPage] returns on a page of frames when
    the recursive calls of its frames do. *)
Lemma good_pageRewriteFunc st0 fetchPage_rec processCssFile_rec inZipPath
    params :
  rp_recurseChain params < length (arrays st0) →
  (∀ dt root, blob_body (rp_data params) = Markup dt root →
     framesOnly (JS.toLowerCase (match root with
                                 | Elem name _ _ => name
                                 | Text _ => ""
                                 end)) root = true) →
  (∀ st target url child,
     Inv st0 st →
     child < length (arrays st) →
     chainAt st child
       = chainAt st0 (rp_recurseChain params) ++ [refUrl env inZipPath] →
     (target = None ∨ inZipPathToUrl env target ∉ chainAt st child) →
     ∃ r st', fetchPage_rec target url child st = Some (r, st') ∧ Inv st0 st') →
  good st0 (pageRewriteFunc env fetchPage_rec processCssFile_rec inZipPath
              params).
Proof.
  intros Hc Hdoc Hrec. unfold pageRewriteFunc.
  destruct (JS.includes _ _); [|apply good_ret].
  destruct (readFileAsDocument _) as [doc|] eqn:Hread; [|apply good_ret].
  apply good_bind; [|intros; apply good_ret].
  apply good_parseDocument; [done | done |].
  unfold readFileAsDocument in Hread.
  destruct (blob_body (rp_data params)) as [|dt root] eqn:Hb; [done|].
  injection Hread as <-. simpl. by eapply Hdoc.
Qed.

(** Frames terminate.  In a store whose markup files recurse through
    frames only, [fetchPage] returns as soon as the recursion bound exceeds
    the number of files whose virtual URL is not yet in the chain. *)
Lemma fetchPage_returns fuel : ∀ inZipPath url chain st,
  issued st → framesOnlyStore (inZipFiles st) →
  chain < length (arrays st) →
  (inZipPath = None ∨ inZipPathToUrl env inZipPath ∉ chainAt st chain) →
  length (unvisited (inZipFiles st) (chainAt st chain)) < fuel →
  ∃ r st', fetchPage env fuel inZipPath url chain st = Some (r, st').
Proof.
  induction fuel as [|n IH]; intros ip url c st Hi Hstore Hc Hip Hm; [lia|].
  cbn [fetchPage]. unfold fetchPage_body.
  assert (Hfetch : ∃ r st',
    fetchFile env ip
      (Some (pageRewriteFunc env (fetchPage env n) (processCssFile env n) ip))
      c st = Some (r, st')).
  { unfold fetchFile. unfold bind at 1, gets.
    destruct ip as [path|]; [|by eauto].
    destruct (inZipFiles st !! path) as [e|] eqn:E; [|by eauto].
    destruct Hip as [|Hip]; [done|].
    assert (Hgood : good st
      (pageRewriteFunc env (fetchPage env n) (processCssFile env n)
         (Some path)
         {| rp_data := file e; rp_charset := None;
            rp_url := inZipPathToUrl env (Some path);
            rp_recurseChain := c |})).
    { apply good_pageRewriteFunc; [done | |].
      - intros dt root Hb. by eapply Hstore.
      - intros st1 target url1 child HI1 Hchild Hcontent Htarget. simpl in *.
        destruct (IH target url1 child st1) as (r & st' & H); try done.
        + by destruct HI1.
        + by rewrite (ext_files _ _ (proj2 HI1)).
        + rewrite (ext_files _ _ (proj2 HI1)), Hcontent.
          pose proof (unvisited_visit (inZipFiles st) (chainAt st c) path
                        ltac:(eauto) Hip) as Hlt.
          unfold refUrl. lia.
        + exists r, st'. split; [done|].
          eapply stable_fetchPage; [exact HI1 | exact H]. }
    destruct (Hgood st (Inv_refl _ Hi)) as (b & st1 & H1 & HI1).
    unfold bind at 1. rewrite H1.
    unfold createObjectURL, blobUrlToInZipPath_set, rewrittenBlobUrl_add,
      modify, bind, ret. by eauto. }
  destruct Hfetch as (r & st' & H). unfold bind. rewrite H.
  unfold ret. by eauto.
Qed.

End Termination.

(** The store after loading holds files of the entries. *)
Lemma loadEntries_files dir entries st st' path e :
  loadEntries dir entries st = Some (tt, st') →
  inZipFiles st' !! path = Some e →
  inZipFiles st !! path = Some e
  ∨ ∃ z, (path, z) ∈ entries ∧ file e = zip_file z.
Proof.
  revert st. induction entries as [|[p z] entries IH]; intros st H He.
  - injection H as <-. by left.
  - cbn [loadEntries] in H.
    apply bind_Some in H as ([] & st1 & H1 & H).
    destruct (IH st1 H He) as [Hold | (z' & Hin & Hz)].
    + destruct (zip_dir z).
      { apply ret_Some in H1 as [_ <-]. by left. }
      destruct (match dir with Some d => _ | None => false end).
      { apply ret_Some in H1 as [_ <-]. by left. }
      unfold createObjectURL, inZipFiles_set, blobUrlToInZipPath_set, modify,
        bind in H1. injection H1 as <-. simpl in Hold.
      rewrite lookup_insert in Hold. case_decide as Hp.
      * injection Hold as <-. subst. right. exists z. split; [left|done].
      * by left.
    + right. exists z'. split; [by right | done].
Qed.

Lemma loadEntries_size dir entries st st' :
  loadEntries dir entries st = Some (tt, st') →
  size (dom (inZipFiles st')) ≤ size (dom (inZipFiles st)) + length entries
  ∧ arrays st' = arrays st.
Proof.
  revert st. induction entries as [|[p z] entries IH]; intros st H.
  - injection H as <-. simpl. split; [lia | done].
  - cbn [loadEntries] in H.
    apply bind_Some in H as ([] & st1 & H1 & H).
    destruct (IH st1 H) as [Hsize Harr]. rewrite Harr. simpl.
    destruct (zip_dir z).
    { apply ret_Some in H1 as [_ <-]. split; [lia | done]. }
    destruct (match dir with Some d => _ | None => false end).
    { apply ret_Some in H1 as [_ <-]. split; [lia | done]. }
    unfold createObjectURL, inZipFiles_set, blobUrlToInZipPath_set, modify,
      bind in H1. injection H1 as <-. simpl in *. split; [|done].
    rewrite dom_insert_L in Hsize.
    pose proof (size_union_alt {[p]} (dom (inZipFiles st))) as Hu.
    rewrite size_singleton in Hu.
    pose proof (subseteq_size (dom (inZipFiles st) ∖ {[p]}) (dom (inZipFiles st))
                  (subseteq_difference_l _ _ _ (reflexivity _))).
    lia.
Qed.

(** The viewer finishes on every archive whose pages recurse through
    frames only, within a recursion depth of the number of entries plus
    one. *)
Lemma frames_terminate env dir indexFile hash entries :
  Forall (λ pz, ∀ dt root,
            blob_body (zip_file pz.2) = Markup dt root →
            framesOnly (JS.toLowerCase (match root with
                                        | Elem name _ _ => name
                                        | Text _ => ""
                                        end)) root = true) entries →
  ∃ r st,
    init env (S (length entries)) dir indexFile hash entries emptyViewer
    = Some (r, st).
Proof.
  intros Hentries. unfold init.
  destruct (loadEntries_issued dir entries emptyViewer issued_empty)
    as (st1 & H1 & Hi1).
  unfold bind at 1. rewrite H1.
  unfold bind at 1, newArray.
  destruct (loadEntries_size _ _ _ _ H1) as [Hsize Harr].
  apply fetchPage_returns.
  - by destruct Hi1.
  - intros path e dt root He Hb. simpl in He.
    destruct (loadEntries_files _ _ _ _ _ _ H1 He) as [Hold | (z & Hin & Hz)].
    { unfold emptyViewer in Hold. simpl in Hold.
      by rewrite lookup_empty in Hold. }
    rewrite Forall_forall in Hentries.
    apply (Hentries _ Hin dt). simpl. by rewrite <- Hz.
  - simpl. rewrite length_app. simpl. lia.
  - right. unfold chainAt. simpl. rewrite Harr. simpl. apply not_elem_of_nil.
  - simpl. unfold unvisited.
    pose proof (length_filter
                  (λ p, inZipPathToUrl env (Some p)
                        ∉ chainAt (set_arrays (λ h, h ++ [[]]) st1)
                            (length (arrays st1)))
                  (elements (dom (inZipFiles st1)))) as Hf.
    change (length (elements (dom (inZipFiles st1))))
      with (size (dom (inZipFiles st1))) in Hf.
    unfold emptyViewer in Hsize. simpl in Hsize.
    rewrite dom_empty_L, size_empty in Hsize. lia.
Qed.

(** * Further properties of the viewer *)

Lemma unreserved_not_question (a : ascii) :
  Percent.unreserved a = true → Ascii.eqb a "?" = false.
Proof. by destruct a as [[] [] [] [] [] [] [] []]. Qed.

Lemma hexdigit_not_question (a : ascii) :
  Ascii.eqb (Percent.hexdigit (nat_of_ascii a / 16)) "?" = false
  ∧ Ascii.eqb (Percent.hexdigit (nat_of_ascii a mod 16)) "?" = false.
Proof. by destruct a as [[] [] [] [] [] [] [] []]. Qed.

Lemma encode_no_question (s : string) :
  JS.has_char "?" (Percent.encodeURIComponent s) = false.
Proof.
  apply encode_has_no; [apply unreserved_not_question | | done].
  apply hexdigit_not_question.
Qed.

(** ** More on the path codec and the resolver *)

Section PathCodecMore.

Variable env : Env.

(** X1.  Two archive paths have the same virtual URL only when they are
    the same path: no two files of an archive are confused, whatever
    characters their names hold. *)
Theorem inZipPathToUrl_injective (p q : string) :
  inZipPathToUrl env (Some p) = inZipPathToUrl env (Some q) ↔ p = q.
Proof.
  split; [|by intros ->].
  intros H. rewrite <- (hrefToInZipPath_inZipPathToUrl env p), H.
  apply hrefToInZipPath_inZipPathToUrl.
Qed.

(** X2.  The virtual URL keeps the directory structure of the path: what
    follows the virtual base has the segments of the path, each one
    percent-encoded, in the same order, and no segment holds a slash, a
    question mark or a number sign, so that a path is never read as a
    query or a fragment and relative references between files resolve as
    they did. *)
Theorem inZipPathToUrl_segments (p : string) :
  JS.split "/" (JS.slice (inZipPathToUrl env (Some p))
                  (String.length (virtualBase env)))
  = map Percent.encodeURIComponent (JS.split "/" p)
  ∧ Forall (λ seg, JS.has_char "/" seg = false
                   ∧ JS.has_char "?" seg = false
                   ∧ JS.has_char "#" seg = false)
      (map Percent.encodeURIComponent (JS.split "/" p)).
Proof.
  split.
  - unfold inZipPathToUrl. rewrite slice_app_length. simpl.
    rewrite or_else_empty. apply split_join.
    + pose proof (split_nonempty "/" p). by destruct (JS.split "/" p).
    + apply Forall_map, Forall_forall. intros; apply encode_no_slash.
  - apply Forall_map, Forall_forall. intros x _.
    repeat split; [apply encode_no_slash | apply encode_no_question
                  | apply encode_no_hash].
Qed.

(** X3.  The resolver inverts the path codec.  A reference that resolves
    to the virtual URL of a stored path, with any query and fragment, is
    in the archive: the path is recovered, the URL returned is the stored
    locator followed by the fragment (the query is dropped), and the
    virtual URL returned is the canonical one followed by the fragment. *)
Theorem parseUrl_of_virtual_url files url refUrl u p f :
  URL_new env url (JS.or_undefined refUrl) = Some u →
  url_main u = inZipPathToUrl env (Some p) →
  files !! p = Some f →
  parseUrl env files url refUrl
  = {| info_url := file_url f +:+ Url.hash u;
       info_inZip := true;
       info_virtualUrl := Some (inZipPathToUrl env (Some p) +:+ Url.hash u);
       info_inZipPath := Some p;
       info_mime := Some (blob_type (file f));
       info_search := Some (Url.search u);
       info_hash := Some (Url.hash u) |}.
Proof.
  intros Hu Hmain Hf.
  assert (Hhref : Url.href (Url.clear_search_hash u) = inZipPathToUrl env (Some p)).
  { unfold Url.href, Url.clear_search_hash. simpl.
    by rewrite !append_empty_r. }
  rewrite (parseUrl_found env files url refUrl u f Hu).
  - by rewrite Hhref, hrefToInZipPath_inZipPathToUrl.
  - unfold Url.href. rewrite Hmain. unfold inZipPathToUrl.
    rewrite !append_assoc. apply prefix_app.
  - by rewrite Hhref, hrefToInZipPath_inZipPathToUrl.
Qed.

End PathCodecMore.

(** ** Pages that are served as they are stored *)

(** The state once [fetchFile] has recorded the blob [b] as the rewritten
    file of [path]. *)
Definition recorded (b : Blob) (path : string) (st : Viewer) : Viewer :=
  {| inZipFiles := inZipFiles st;
     blobUrlToInZipPath :=
       <[objectUrl (length (objectUrls st)) := path]> (blobUrlToInZipPath st);
     rewrittenBlobUrl :=
       {[objectUrl (length (objectUrls st))]} ∪ rewrittenBlobUrl st;
     objectUrls := objectUrls st ++ [b];
     arrays := arrays st;
     uuids := uuids st;
     deApiScriptUrl := deApiScriptUrl st |}.

Section FetchPageEdges.

Variable env : Env.

Lemma fetchFile_rewritten path f rewrite chain st b st1 :
  inZipFiles st !! path = Some f →
  rewrite {| rp_data := file f; rp_charset := None;
             rp_url := inZipPathToUrl env (Some path);
             rp_recurseChain := chain |} st = Some (b, st1) →
  fetchFile env (Some path) (Some rewrite) chain st
  = Some (Some (objectUrl (length (objectUrls st1))), recorded b path st1).
Proof.
  intros Hf Hr. unfold fetchFile. unfold bind at 1, gets. rewrite Hf.
  unfold bind at 1. rewrite Hr. done.
Qed.

(** X4.  A file that is not a page (not HTML, XHTML or SVG by its type) or
    whose content cannot be read as a document is not rewritten:
    [fetchPage] issues a new locator for the stored blob itself, records it
    as rewritten for the path and returns it with the fragment of the
    requested URL, at any recursion bound. *)
Theorem fetchPage_serves_as_is n path f url chain st :
  inZipFiles st !! path = Some f →
  JS.includes pageTypes (blob_type (file f)) = false
  ∨ readFileAsDocument (file f) = None →
  fetchPage env (S n) (Some path) url chain st
  = Some (Some (objectUrl (length (objectUrls st))
                +:+ (if JS.truthy url then (splitUrl url).2 else "")),
          recorded (file f) path st).
Proof.
  intros Hf Hplain. cbn [fetchPage]. unfold fetchPage_body.
  unfold bind at 1.
  rewrite (fetchFile_rewritten path f _ chain st (file f) st Hf).
  - done.
  - unfold pageRewriteFunc. simpl.
    destruct (JS.includes pageTypes _); [|done].
    destruct Hplain as [Hp|Hp]; [done|]. by rewrite Hp.
Qed.

(** A path the store does not hold, or no path at all: [fetchPage] returns
    [null] and changes nothing. *)
Lemma fetchPage_missing n inZipPath url chain st :
  inZipPath ≫= (inZipFiles st !!.) = None →
  fetchPage env (S n) inZipPath url chain st = Some (None, st).
Proof.
  intros Hnone. cbn [fetchPage]. unfold fetchPage_body, fetchFile.
  unfold bind, gets, ret.
  destruct inZipPath as [path|]; [|done]. simpl in Hnone. by rewrite Hnone.
Qed.

End FetchPageEdges.

(** ** The updates a run is made of

    Whatever a run does to the viewer's state is one of five updates: a
    blob gets an object URL; a rewritten file of a stored path is recorded
    under the next object URL; arrays are written; an identifier is drawn;
    the URL of the script that removes the privileged APIs is kept, once. *)

Definition withBlob (b : Blob) (st : Viewer) : Viewer :=
  {| inZipFiles := inZipFiles st;
     blobUrlToInZipPath := blobUrlToInZipPath st;
     rewrittenBlobUrl := rewrittenBlobUrl st;
     objectUrls := objectUrls st ++ [b];
     arrays := arrays st;
     uuids := uuids st;
     deApiScriptUrl := deApiScriptUrl st |}.

Definition withUuid (st : Viewer) : Viewer :=
  {| inZipFiles := inZipFiles st;
     blobUrlToInZipPath := blobUrlToInZipPath st;
     rewrittenBlobUrl := rewrittenBlobUrl st;
     objectUrls := objectUrls st;
     arrays := arrays st;
     uuids := S (uuids st);
     deApiScriptUrl := deApiScriptUrl st |}.

Definition withScript (u : string) (st : Viewer) : Viewer :=
  {| inZipFiles := inZipFiles st;
     blobUrlToInZipPath := blobUrlToInZipPath st;
     rewrittenBlobUrl := rewrittenBlobUrl st;
     objectUrls := objectUrls st;
     arrays := arrays st;
     uuids := uuids st;
     deApiScriptUrl := Some u |}.

Inductive update : Viewer → Viewer → Prop :=
  | update_blob st b : update st (withBlob b st)
  | update_record st b path :
      is_Some (inZipFiles st !! path) → update st (recorded b path st)
  | update_arrays st f : update st (set_arrays f st)
  | update_uuid st : update st (withUuid st)
  | update_script st u :
      deApiScriptUrl st = None → update st (withScript u st).

Definition traces {A} (m : M A) : Prop :=
  ∀ st a st', m st = Some (a, st') → rtc update st st'.

Lemma updates_files st st' : rtc update st st' → inZipFiles st' = inZipFiles st.
Proof.
  induction 1 as [|st st1 st2 H _ IH]; [done|].
  rewrite IH. by destruct H.
Qed.

Lemma traces_ret {A} (a : A) : traces (ret a).
Proof. by intros st b st' [_ ->]%ret_Some. Qed.

Lemma traces_bind {A B} (m : M A) (k : A → M B) :
  traces m → (∀ a, traces (k a)) → traces (bind m k).
Proof.
  intros Hm Hk st b st' (a & st1 & H1 & H2)%bind_Some.
  etrans; [by eapply Hm | by eapply Hk].
Qed.

Lemma traces_fmapM {A B} (f : A → B) (m : M A) : traces m → traces (fmapM f m).
Proof. intros. apply traces_bind; [done | intros; apply traces_ret]. Qed.

Lemma traces_gets {A} (f : Viewer → A) : traces (gets f).
Proof. by intros st b st' [_ ->]%gets_Some. Qed.

Lemma traces_unfinished {A} : traces (@unfinished A).
Proof. by intros st b st'. Qed.

Lemma traces_modify_arrays f : traces (modify (set_arrays f)).
Proof. intros st [] st' [= <-]. apply rtc_once, update_arrays. Qed.

Lemma traces_createObjectURL b : traces (createObjectURL b).
Proof. intros st u st' [= _ <-]. apply rtc_once, (update_blob st b). Qed.

Lemma traces_newArray l : traces (newArray l).
Proof. intros st a st' [= _ <-]. apply rtc_once, update_arrays. Qed.

Lemma traces_push a x : traces (push a x).
Proof. apply traces_modify_arrays. Qed.

Lemma traces_nextUuid env : traces (nextUuid env).
Proof. intros st a st' [= _ <-]. apply rtc_once, (update_uuid st). Qed.

Ltac tr_step :=
  first
    [ assumption
    | apply traces_ret | apply traces_gets | apply traces_unfinished
    | apply traces_createObjectURL | apply traces_newArray
    | apply traces_push | apply traces_nextUuid
    | apply traces_fmapM
    | apply traces_bind; [| intros ?]
    | match goal with
      | |- traces (if ?b then _ else _) => destruct b
      | |- traces (match ?x with _ => _ end) => destruct x
      | |- traces (let '(_, _) := ?x in _) => destruct x
      end ].

Ltac tr := repeat tr_step.

Lemma traces_readArray a : traces (readArray a).
Proof. apply traces_gets. Qed.

Lemma traces_JSON_clone a : traces (JSON_clone a).
Proof. unfold JSON_clone, readArray. tr. Qed.

Lemma traces_childChain c x : traces (childChain c x).
Proof. unfold childChain, JSON_clone, readArray. tr. Qed.

Section Traces.

Variable env : Env.

Lemma traces_parseUrl url refUrl : traces (viewer_parseUrl env url refUrl).
Proof. apply traces_gets. Qed.

Lemma traces_fetchFile inZipPath rewriteFunc chain :
  (∀ f, rewriteFunc = Some f → ∀ params, traces (f params)) →
  traces (fetchFile env inZipPath rewriteFunc chain).
Proof.
  intros Hrf st r st' H. unfold fetchFile in H.
  apply bind_Some in H as (files & st1 & H1 & H).
  apply gets_Some in H1 as [<- <-].
  destruct inZipPath as [path|]; [|by apply ret_Some in H as [_ <-]].
  destruct (inZipFiles st !! path) as [e|] eqn:E;
    [|by apply ret_Some in H as [_ <-]].
  destruct rewriteFunc as [f|]; [|by apply ret_Some in H as [_ <-]].
  apply bind_Some in H as (b & st2 & H2 & H).
  pose proof (Hrf f eq_refl _ _ _ _ H2) as Hrun.
  injection H as _ <-.
  eapply rtc_r; [exact Hrun|].
  apply (update_record st2 b path).
  rewrite (updates_files _ _ Hrun), E. eauto.
Qed.

Lemma traces_ComplexUrlFetcher_new refUrl parent :
  traces (ComplexUrlFetcher_new refUrl parent).
Proof.
  unfold ComplexUrlFetcher_new.
  apply traces_bind; [destruct parent; [apply traces_JSON_clone|] |].
  - apply traces_bind; [apply traces_newArray | intros; apply traces_JSON_clone].
  - intros. tr.
Qed.

Lemma traces_getUrlHash this url import : traces (getUrlHash env this url import).
Proof. unfold getUrlHash. tr. Qed.

Lemma traces_rewriteCssText cssText this : traces (rewriteCssText env cssText this).
Proof.
  unfold rewriteCssText. generalize (cssParts env cssText). intros parts.
  revert this. induction parts as [|[s|k u] parts IH]; intros this; simpl.
  - tr.
  - apply traces_bind; [apply IH | intros; tr].
  - apply traces_bind; [apply traces_getUrlHash | intros].
    apply traces_bind; [apply IH | intros; tr].
Qed.

Section Stylesheet.

Variable processCssFile_rec : RewriteFunc.
Hypothesis traces_rec : ∀ params, traces (processCssFile_rec params).

Lemma traces_startFetch this key :
  traces (startFetch env processCssFile_rec this key).
Proof.
  unfold startFetch. apply traces_bind; [apply traces_readArray | intros chain].
  destruct (lookupKey _ _) as [e|]; [|tr].
  apply traces_bind; [apply traces_parseUrl | intros info].
  destruct (_ && _); [tr|].
  apply traces_bind; [|intros; tr].
  apply traces_fetchFile. intros f Hf params.
  destruct (entry_import e); [|done]. injection Hf as <-. apply traces_rec.
Qed.

Lemma traces_startFetches this :
  traces (startFetches env processCssFile_rec this).
Proof.
  unfold startFetches. generalize (map fst (urlHash this)). intros keys.
  revert this. induction keys as [|key keys IH]; intros this; simpl.
  - tr.
  - apply traces_bind; [apply traces_startFetch | intros].
    apply traces_bind; [apply IH | intros; tr].
Qed.

Lemma traces_processCssText cssText refUrl chain :
  traces (processCssText env processCssFile_rec cssText refUrl chain).
Proof.
  unfold processCssText.
  apply traces_bind; [apply traces_ComplexUrlFetcher_new | intros].
  apply traces_bind; [apply traces_rewriteCssText | intros].
  apply traces_bind; [apply traces_startFetches | intros; tr].
Qed.

Lemma traces_processCssFile_body params :
  traces (processCssFile_body env processCssFile_rec params).
Proof.
  unfold processCssFile_body, rewriteCssFile.
  apply traces_bind; [apply traces_processCssText | intros; tr].
Qed.

End Stylesheet.

Lemma traces_processCssFile fuel params : traces (processCssFile env fuel params).
Proof.
  revert params. induction fuel as [|n IH]; intros params; simpl.
  - apply traces_unfinished.
  - by apply traces_processCssFile_body.
Qed.

Section Document.

Variable fetchPage_rec : option string → string → loc → M (option string).
Variable processCssFile_rec : RewriteFunc.
Hypothesis traces_fetchPage_rec :
  ∀ inZipPath url chain, traces (fetchPage_rec inZipPath url chain).
Hypothesis traces_processCssFile_rec :
  ∀ params, traces (processCssFile_rec params).

Variable inZipPath : option string.
Variable recurseChain : loc.

Lemma traces_rewriteUrl url over : traces (rewriteUrl env inZipPath url over).
Proof. unfold rewriteUrl. apply traces_bind; [apply traces_parseUrl | intros; tr]. Qed.

Lemma traces_rewriteAttr attrs name :
  traces (rewriteAttr env inZipPath attrs name).
Proof.
  unfold rewriteAttr. destruct (hasAttribute _ _); [|tr].
  apply traces_bind; [apply traces_rewriteUrl | intros; tr].
Qed.

Lemma traces_rewriteSrcsetAttr attrs name :
  traces (rewriteSrcsetAttr env inZipPath attrs name).
Proof. unfold rewriteSrcsetAttr. tr. Qed.

Lemma traces_rewriteLink attrs name :
  traces (rewriteLink env inZipPath attrs name).
Proof.
  unfold rewriteLink. destruct (hasAttribute _ _); [|tr].
  apply traces_bind; [apply traces_parseUrl | intros; tr].
Qed.

Lemma traces_rewriteMetaRefresh attrs :
  traces (rewriteMetaRefresh env fetchPage_rec inZipPath recurseChain attrs).
Proof.
  unfold rewriteMetaRefresh.
  destruct (refresh_url _) as [target|]; [|tr].
  destruct (JS.truthy target); [|tr].
  apply traces_bind; [apply traces_parseUrl | intros info].
  destruct (splitUrlByAnchor _) as [targetPage targetPageHash].
  destruct (bool_decide _); [|tr].
  apply traces_bind; [apply traces_readArray | intros chain].
  destruct (JS.includes _ _); [tr|].
  destruct (info_inZip info); [|tr].
  apply traces_bind; [apply traces_childChain | intros a].
  apply traces_bind; [apply traces_fetchPage_rec | intros; tr].
Qed.

Lemma traces_rewriteMeta attrs :
  traces (rewriteMeta env fetchPage_rec inZipPath recurseChain attrs).
Proof.
  unfold rewriteMeta. destruct (_ && _); [apply traces_rewriteMetaRefresh|].
  destruct (_ && _); [|tr]. destruct (JS.includes _ _); [|tr].
  apply traces_bind; [apply traces_rewriteUrl | intros; tr].
Qed.

Lemma traces_rewriteLinkElement attrs :
  traces (rewriteLinkElement env processCssFile_rec inZipPath attrs).
Proof.
  unfold rewriteLinkElement. destruct (hasAttribute _ _); [|tr].
  destruct (relStylesheet _).
  - apply traces_bind; [apply traces_parseUrl | intros info].
    apply traces_bind; [tr | intros chain].
    apply traces_bind; [|intros; tr].
    apply traces_fetchFile. intros f [= <-]. apply traces_processCssFile_rec.
  - apply traces_bind; [apply traces_rewriteUrl | intros; tr].
Qed.

Lemma traces_rewriteFrame attrs :
  traces (rewriteFrame env fetchPage_rec inZipPath recurseChain attrs).
Proof.
  unfold rewriteFrame. destruct (hasAttribute _ _); [|tr].
  apply traces_bind; [apply traces_childChain | intros a].
  apply traces_bind; [apply traces_parseUrl | intros info].
  apply traces_bind; [apply traces_readArray | intros chain].
  destruct (_ && _); [tr|].
  apply traces_bind; [apply traces_fetchPage_rec | intros; tr].
Qed.

Lemma traces_localize attrs name : traces (localize env attrs name).
Proof. unfold localize. tr. Qed.

Lemma traces_rewriteScript attrs text :
  traces (rewriteScript env inZipPath attrs text).
Proof.
  unfold rewriteScript. destruct (hasAttribute _ _); [|tr].
  apply traces_bind; [apply traces_rewriteUrl | intros url].
  apply traces_bind; [apply traces_localize | intros; tr].
Qed.

Lemma traces_rewritePlugin attrs name :
  traces (rewritePlugin env inZipPath attrs name).
Proof.
  unfold rewritePlugin. destruct (hasAttribute _ _); [|tr].
  apply traces_bind; [apply traces_rewriteAttr | intros; apply traces_localize].
Qed.

Lemma traces_rewriteStyleAttr r :
  traces (rewriteStyleAttr env processCssFile_rec inZipPath recurseChain r).
Proof.
  unfold rewriteStyleAttr. destruct (hasAttribute _ _); [|tr].
  apply traces_bind; [by apply traces_processCssText | intros; tr].
Qed.

Ltac tr_doc :=
  repeat first
    [ apply traces_rewriteMeta | apply traces_rewriteLinkElement
    | apply traces_rewriteScript | apply traces_rewriteAttr
    | apply traces_rewriteSrcsetAttr | apply traces_rewriteFrame
    | apply traces_rewriteLink | apply traces_rewritePlugin
    | apply traces_rewriteStyleAttr
    | by apply traces_processCssText
    | tr_step ].

Lemma traces_rewriteByName name attrs text :
  traces (rewriteByName env fetchPage_rec processCssFile_rec inZipPath
            recurseChain name attrs text).
Proof. unfold rewriteByName. tr_doc. Qed.

Lemma traces_rewriteNode nodeName attrs text rootName :
  traces (rewriteNode env fetchPage_rec processCssFile_rec inZipPath
            recurseChain nodeName attrs text rootName).
Proof.
  unfold rewriteNode. destruct (decide _); [tr_doc|].
  destruct (decide _); [tr_doc|].
  apply traces_bind; [apply traces_rewriteByName | intros].
  apply traces_rewriteStyleAttr.
Qed.

Lemma traces_rewriteRecursively elem :
  ∀ rootName,
    traces (rewriteRecursively env fetchPage_rec processCssFile_rec inZipPath
              recurseChain elem rootName).
Proof.
  induction elem as [s | name attrs cs IH] using Node_children_ind;
    intros rootName; simpl.
  - apply traces_ret.
  - apply traces_bind; [apply traces_rewriteNode | intros r].
    apply traces_bind; [|intros; tr].
    destruct (r_cleared r); [tr|].
    generalize (if bool_decide (JS.toLowerCase name ∈ ["svg"; "math"])
                then JS.toLowerCase name else rootName).
    intros root. induction IH as [|c cs Hc _ IHcs]; [tr|].
    apply traces_bind; [apply Hc | intros].
    apply traces_bind; [apply IHcs | intros; tr].
Qed.

Lemma traces_insertDeApiScript root : traces (insertDeApiScript env root).
Proof.
  intros st r st' H. unfold insertDeApiScript in H.
  apply bind_Some in H as (cached & st1 & H1 & H).
  apply gets_Some in H1 as [<- <-].
  destruct (deApiScriptUrl st) as [u|] eqn:E.
  { by apply ret_Some in H as [_ <-]. }
  destruct (deApiScript env) as [text|]; [|by apply ret_Some in H as [_ <-]].
  injection H as _ <-.
  eapply rtc_l; [apply (update_blob st)|].
  apply rtc_once. by apply (update_script (withBlob _ st)).
Qed.

Lemma traces_parseDocument doc :
  traces (parseDocument env fetchPage_rec processCssFile_rec inZipPath
            recurseChain doc).
Proof.
  unfold parseDocument.
  apply traces_bind; [apply traces_rewriteRecursively | intros root].
  destruct (JS.includes _ _); [|tr].
  apply traces_bind; [|intros; tr].
  destruct (hasCsp env); [apply traces_insertDeApiScript | tr].
Qed.

End Document.

Lemma traces_pageRewriteFunc fetchPage_rec processCssFile_rec inZipPath params :
  (∀ inZipPath url chain, traces (fetchPage_rec inZipPath url chain)) →
  (∀ params, traces (processCssFile_rec params)) →
  traces (pageRewriteFunc env fetchPage_rec processCssFile_rec inZipPath params).
Proof.
  intros Hfp Hpcf. unfold pageRewriteFunc.
  destruct (JS.includes _ _); [|tr].
  destruct (readFileAsDocument _); [|tr].
  apply traces_bind; [by apply traces_parseDocument | intros; tr].
Qed.

Lemma traces_fetchPage fuel :
  ∀ inZipPath url chain, traces (fetchPage env fuel inZipPath url chain).
Proof.
  induction fuel as [|n IH]; intros inZipPath url chain; simpl.
  - apply traces_unfinished.
  - unfold fetchPage_body. apply traces_bind; [|intros; tr].
    apply traces_fetchFile. intros f [= <-] params.
    apply traces_pageRewriteFunc; [exact IH | apply traces_processCssFile].
Qed.

End Traces.

(** ** Stored locators and rewritten locators *)

(** The tables are well formed, the locator of every stored file maps back
    to its path, and no stored locator is marked as rewritten. *)

Record consistent (st : Viewer) : Prop := mkConsistent {
  cons_issued : issued st;
  cons_stored : ∀ p f, inZipFiles st !! p = Some f →
      blobUrlToInZipPath st !! file_url f = Some p;
  cons_unrewritten : ∀ p f, inZipFiles st !! p = Some f →
      file_url f ∉ rewrittenBlobUrl st;
}.

Lemma consistent_empty : consistent emptyViewer.
Proof.
  split; [apply issued_empty | |]; intros p f H;
    unfold emptyViewer in H; simpl in H; by rewrite lookup_empty in H.
Qed.

Lemma issued_recorded st b path :
  issued st → is_Some (inZipFiles st !! path) → issued (recorded b path st).
Proof.
  intros Hi Hp.
  destruct (Inv_register st st b path (Inv_refl _ Hi) Hp
              (Some (objectUrl (length (objectUrls st)))) (recorded b path st))
    as [[H _] _]; done.
Qed.

Lemma update_consistent st st' : update st st' → consistent st → consistent st'.
Proof.
  intros Hu [Hi Hs Hr]. destruct Hu as [st b|st b path Hp|st f|st|st u Hnone].
  - split; [|done..].
    by destruct (stable_createObjectURL b st st _ _ (Inv_refl _ Hi) eq_refl).
  - pose proof (issued_fresh _ Hi) as Hfresh.
    split; [by apply issued_recorded | |]; simpl.
    + intros p f Hf. rewrite lookup_insert_ne; [by apply Hs|].
      intros Heq. rewrite Heq, (Hs p f Hf) in Hfresh. done.
    + intros p f Hf. rewrite elem_of_union, elem_of_singleton.
      intros [Heq | Hin]; [|by eapply Hr].
      rewrite <- Heq, (Hs p f Hf) in Hfresh. done.
  - split; [by destruct Hi | done..].
  - split; [by destruct Hi | done..].
  - split; [by destruct Hi | done..].
Qed.

Lemma updates_consistent st st' :
  rtc update st st' → consistent st → consistent st'.
Proof. induction 1; eauto using update_consistent. Qed.

(** An update of well-formed tables leaves them well formed. *)
Lemma update_issued st st' : update st st' → issued st → issued st'.
Proof.
  intros Hu Hi. destruct Hu as [st b|st b path Hp|st f|st|st u Hnone].
  - by destruct (stable_createObjectURL b st st _ _ (Inv_refl _ Hi) eq_refl).
  - by apply issued_recorded.
  - by destruct Hi.
  - by destruct Hi.
  - by destruct Hi.
Qed.

(** What a sequence of updates adds to the table of locators, from
    well-formed tables: entries under object URLs issued since, each
    marked as rewritten. *)
Lemma updates_added st st' :
  issued st → rtc update st st' →
  issued st'
  ∧ length (objectUrls st) ≤ length (objectUrls st')
  ∧ rewrittenBlobUrl st ⊆ rewrittenBlobUrl st'
  ∧ ∀ u p, blobUrlToInZipPath st' !! u = Some p →
           blobUrlToInZipPath st !! u = None →
           u ∈ rewrittenBlobUrl st'
           ∧ ∃ n, length (objectUrls st) ≤ n < length (objectUrls st')
                  ∧ u = objectUrl n.
Proof.
  intros Hi Hrun. revert st' Hrun. apply rtc_ind_r.
  - split; [done|]. split; [done|]. split; [done|].
    intros u p Hu Hn. congruence.
  - intros st1 st2 Hrun Hu IH.
    destruct IH as (Hi1 & Hlen & Hsub & Hadd).
    split; [by eapply update_issued|].
    destruct Hu as [st1 b|st1 b path Hp|st1 f|st1|st1 u0 Hnone]; simpl.
    + rewrite length_app. simpl. split; [lia|]. split; [done|].
      intros u p Hu Hn. destruct (Hadd u p Hu Hn) as (? & n & ? & ?).
      split; [done|]. exists n. split; [lia | done].
    + rewrite length_app. simpl. split; [lia|].
      split; [intros x Hx; apply elem_of_union; right; by apply Hsub|].
      intros u p Hu Hn.
      destruct (decide (u = objectUrl (length (objectUrls st1)))) as [->|Hne].
      * split; [apply elem_of_union; left; by apply elem_of_singleton|].
        exists (length (objectUrls st1)). split; [lia | done].
      * rewrite lookup_insert_ne in Hu by done.
        destruct (Hadd u p Hu Hn) as (? & n & ? & ?).
        split; [apply elem_of_union; by right|].
        exists n. split; [lia | done].
    + done.
    + done.
    + done.
Qed.

Section Updates.

Variable env : Env.

(** X7.  A run of [fetchPage], whatever it rewrites, changes the viewer's
    state by a sequence of these updates only.  From tables that are well
    formed, as [init] makes them, it leaves them well formed, never
    changes [inZipFiles], never removes or changes an entry of
    [blobUrlToInZipPath] or of [rewrittenBlobUrl] or an object URL, and
    the only entries it adds to [blobUrlToInZipPath] are for stored paths,
    under object URLs that were issued during the run, each marked as
    rewritten. *)
Theorem fetchPage_updates fuel inZipPath url chain st r st' :
  issued st →
  fetchPage env fuel inZipPath url chain st = Some (r, st') →
  rtc update st st'
  ∧ issued st'
  ∧ inZipFiles st' = inZipFiles st
  ∧ blobUrlToInZipPath st ⊆ blobUrlToInZipPath st'
  ∧ rewrittenBlobUrl st ⊆ rewrittenBlobUrl st'
  ∧ objectUrls st `prefix_of` objectUrls st'
  ∧ ∀ u p, blobUrlToInZipPath st' !! u = Some p →
           blobUrlToInZipPath st !! u = None →
           is_Some (inZipFiles st !! p)
           ∧ u ∈ rewrittenBlobUrl st'
           ∧ ∃ n, length (objectUrls st) ≤ n < length (objectUrls st')
                  ∧ u = objectUrl n.
Proof.
  intros Hi H. pose proof (traces_fetchPage _ _ _ _ _ _ _ _ H) as Hrun.
  destruct (fetchPage_keeps _ _ _ _ _ _ _ _ Hi H) as [Hi' He].
  destruct (updates_added _ _ Hi Hrun) as (_ & _ & _ & Hadd).
  split; [done|]. split; [done|]. split; [apply (ext_files _ _ He)|].
  split; [apply (ext_paths _ _ He)|].
  split; [apply (ext_rewritten _ _ He)|].
  split; [apply (ext_urls _ _ He)|].
  intros u p Hu Hn. destruct (Hadd u p Hu Hn) as [Hr Hissued].
  split; [|done].
  rewrite <- (ext_files _ _ He). by eapply issued_path.
Qed.

End Updates.

Lemma loadEntries_consistent dir entries st :
  consistent st →
  ∃ st', loadEntries dir entries st = Some (tt, st') ∧ consistent st'.
Proof.
  revert st. induction entries as [|[path z] entries IH]; intros st Hc.
  - exists st. done.
  - destruct (loadEntries_issued dir [(path, z)] st (cons_issued _ Hc))
      as (st1 & H1 & Hi1).
    cbn [loadEntries] in *.
    set (skip := match dir with
                 | Some d => JS.truthy d && negb (JS.startsWith path (d +:+ "/"))
                 | None => false
                 end) in *.
    apply bind_Some in H1 as ([] & st2 & H1 & [_ ->]%ret_Some).
    unfold bind at 1. rewrite H1. apply IH.
    destruct (zip_dir z); [by apply ret_Some in H1 as [_ <-]|].
    destruct skip; [by apply ret_Some in H1 as [_ <-]|].
    pose proof (issued_fresh _ (cons_issued _ Hc)) as Hfresh.
    unfold createObjectURL, inZipFiles_set, blobUrlToInZipPath_set, modify,
      bind in H1. injection H1 as <-.
    destruct Hc as [Hi Hs Hr]. split; [done | |]; simpl.
    + intros p f. rewrite lookup_insert. case_decide as Hp.
      * intros [= <-]. subst p. simpl. by rewrite lookup_insert_eq.
      * intros Hf. rewrite lookup_insert_ne; [by apply Hs|].
        intros Heq. rewrite Heq, (Hs p f Hf) in Hfresh. done.
    + intros p f. rewrite lookup_insert. case_decide as Hp.
      * intros [= <-]. simpl. intros Hin.
        destruct (issued_rewritten _ Hi _ Hin) as [q Hq].
        by rewrite Hq in Hfresh.
      * intros Hf. by eapply Hr.
Qed.

Section Consistency.

Variable env : Env.

Lemma init_consistent fuel dir indexFile hash entries r st :
  init env fuel dir indexFile hash entries emptyViewer = Some (r, st) →
  consistent st.
Proof.
  unfold init. intros H.
  apply bind_Some in H as ([] & st1 & H1 & H).
  destruct (loadEntries_consistent dir entries emptyViewer consistent_empty)
    as (st1' & H1' & Hc1).
  rewrite H1 in H1'. injection H1' as <-.
  apply bind_Some in H as (c & st2 & H2 & H).
  eapply updates_consistent; [|exact Hc1].
  etrans; [by eapply traces_newArray | by eapply traces_fetchPage].
Qed.

Lemma fetchPage_consistent fuel inZipPath url chain st r st' :
  consistent st →
  fetchPage env fuel inZipPath url chain st = Some (r, st') →
  consistent st'.
Proof.
  intros Hc H. eapply updates_consistent; [|exact Hc].
  by eapply traces_fetchPage.
Qed.

(** X8.  Stored and rewritten locators never mix.  In every state the
    viewer reaches, by [init] and by any later run of [fetchPage], the
    locator of each stored file maps back to the file's path in
    [blobUrlToInZipPath] and is not in [rewrittenBlobUrl]: the listener of
    clicks can tell a page that still has to be rewritten from one that
    was. *)
Theorem stored_locators_never_rewritten :
  (∀ fuel dir indexFile hash entries r st,
     init env fuel dir indexFile hash entries emptyViewer = Some (r, st) →
     consistent st)
  ∧ (∀ fuel inZipPath url chain st r st',
       consistent st →
       fetchPage env fuel inZipPath url chain st = Some (r, st') →
       consistent st').
Proof.
  split.
  - intros. by eapply init_consistent.
  - intros. by eapply fetchPage_consistent.
Qed.

End Consistency.

(** Object URLs have no query and no fragment. *)
Lemma pretty_N_go_has_no (c : ascii) (x : N) (s : string) :
  (∀ d, Ascii.eqb (pretty_N_char d) c = false) →
  JS.has_char c (pretty_N_go x s) = JS.has_char c s.
Proof.
  intros Hc. revert s. induction (N.lt_wf_0 x) as [x _ IH]; intros s.
  destruct (decide (x = 0)%N) as [->|Hx]; [done|].
  rewrite pretty_N_go_step by lia.
  rewrite IH by (apply N.div_lt; lia). simpl. by rewrite Hc.
Qed.

Lemma pretty_nat_has_no (c : ascii) (n : nat) :
  (∀ d, Ascii.eqb (pretty_N_char d) c = false) →
  JS.has_char c (pretty n) = false.
Proof.
  intros Hc. unfold pretty, pretty_nat, pretty, pretty_N.
  case_decide; [|by rewrite pretty_N_go_has_no].
  simpl. specialize (Hc 0%N). simpl in Hc. by rewrite Hc.
Qed.

Lemma digit_not_hash d : Ascii.eqb (pretty_N_char d) "#" = false.
Proof. unfold pretty_N_char. by repeat case_match. Qed.

Lemma digit_not_question d : Ascii.eqb (pretty_N_char d) "?" = false.
Proof. unfold pretty_N_char. by repeat case_match. Qed.

Lemma objectUrl_plain n :
  JS.has_char "#" (objectUrl n) = false ∧ JS.has_char "?" (objectUrl n) = false.
Proof.
  unfold objectUrl. rewrite !has_char_app.
  rewrite !pretty_nat_has_no; [done | apply digit_not_question | apply digit_not_hash].
Qed.

Lemma objectUrl_blob n : JS.startsWith (objectUrl n) "blob:" = true.
Proof. apply prefix_app. Qed.

(** ** Loading the archive, again *)

(** The test of [init]'s loop on the directory: [dir] is absent or empty,
    or the path starts with [dir + '/']. *)
Definition inDirectory (dir : option string) (path : string) : bool :=
  match dir with
  | Some d => negb (JS.truthy d && negb (JS.startsWith path (d +:+ "/")))
  | None => true
  end.

Lemma loadEntries_step dir path z entries st :
  loadEntries dir ((path, z) :: entries) st
  = loadEntries dir entries
      (if zip_dir z then st
       else if inDirectory dir path then
         {| inZipFiles :=
              <[path := {| file := zip_file z;
                           file_url := objectUrl (length (objectUrls st)) |}]>
                (inZipFiles st);
            blobUrlToInZipPath :=
              <[objectUrl (length (objectUrls st)) := path]>
                (blobUrlToInZipPath st);
            rewrittenBlobUrl := rewrittenBlobUrl st;
            objectUrls := objectUrls st ++ [zip_file z];
            arrays := arrays st;
            uuids := uuids st;
            deApiScriptUrl := deApiScriptUrl st |}
       else st).
Proof.
  cbn [loadEntries]. unfold inDirectory.
  destruct (zip_dir z); [done|].
  destruct dir as [d|]; [|done].
  by destruct (JS.truthy d && negb (JS.startsWith path (d +:+ "/"))).
Qed.

Lemma loadEntries_spec dir entries : ∀ st st',
  loadEntries dir entries st = Some (tt, st') →
  rewrittenBlobUrl st' = rewrittenBlobUrl st
  ∧ (∀ p e, inZipFiles st' !! p = Some e →
       inZipFiles st !! p = Some e
       ∨ ∃ z, (p, z) ∈ entries ∧ zip_dir z = false
              ∧ inDirectory dir p = true ∧ file e = zip_file z)
  ∧ (∀ p, is_Some (inZipFiles st !! p) → is_Some (inZipFiles st' !! p))
  ∧ (∀ p z, (p, z) ∈ entries → zip_dir z = false →
       inDirectory dir p = true → is_Some (inZipFiles st' !! p)).
Proof.
  induction entries as [|[path z] entries IH]; intros st st' H.
  - injection H as <-. repeat split; [by left | done |].
    intros p z Hin. by apply elem_of_nil in Hin.
  - rewrite loadEntries_step in H.
    destruct (IH _ _ H) as (Hr & Hfrom & Hkeep & Hall). clear IH H.
    destruct (zip_dir z) eqn:Hd; [|destruct (inDirectory dir path) eqn:Hin].
    + repeat split; [done | | done |].
      * intros p e He. destruct (Hfrom p e He) as [|(z' & ? & ?)]; [by left|].
        right. exists z'. split; [by right | done].
      * intros p z' [[= -> ->]|Hz]%elem_of_cons; [congruence|]. by eapply Hall.
    + simpl in *. repeat split; [done | | |].
      * intros p e He. destruct (Hfrom p e He) as [Hold|(z' & ? & ?)].
        -- rewrite lookup_insert in Hold. case_decide as Hp.
           ++ injection Hold as <-. subst p. right. exists z.
              split; [left | done].
           ++ by left.
        -- right. exists z'. split; [by right | done].
      * intros p Hp. apply Hkeep. rewrite lookup_insert.
        case_decide; [eauto | done].
      * intros p z' [[= -> ->]|Hz]%elem_of_cons; [|by eapply Hall].
        intros _ _. apply Hkeep. rewrite lookup_insert_eq. eauto.
    + repeat split; [done | | done |].
      * intros p e He. destruct (Hfrom p e He) as [|(z' & ? & ?)]; [by left|].
        right. exists z'. split; [by right | done].
      * intros p z' [[= -> ->]|Hz]%elem_of_cons; [congruence|]. by eapply Hall.
Qed.

(** What the viewer holds once the archive is loaded. *)
Lemma loadEntries_loaded dir entries :
  ∃ st,
    loadEntries dir entries emptyViewer = Some (tt, st)
    ∧ consistent st
    ∧ rewrittenBlobUrl st = ∅
    ∧ (∀ p, is_Some (inZipFiles st !! p)
            ↔ ∃ z, (p, z) ∈ entries ∧ zip_dir z = false
                   ∧ inDirectory dir p = true)
    ∧ (∀ p e, inZipFiles st !! p = Some e →
         blobUrlToInZipPath st !! file_url e = Some p
         ∧ ∃ z, (p, z) ∈ entries ∧ zip_dir z = false ∧ file e = zip_file z).
Proof.
  destruct (loadEntries_consistent dir entries emptyViewer consistent_empty)
    as (st & H & Hc).
  exists st. split; [done|]. split; [done|].
  destruct (loadEntries_spec _ _ _ _ H) as (Hr & Hfrom & _ & Hall).
  assert (Hempty : ∀ p e, inZipFiles emptyViewer !! p = Some e → False).
  { intros p e. unfold emptyViewer. simpl. by rewrite lookup_empty. }
  split; [done|]. split.
  - intros p. split.
    + intros [e He]. destruct (Hfrom p e He) as [Hold|(z & ? & ? & ? & ?)].
      * by destruct (Hempty _ _ Hold).
      * by exists z.
    + intros (z & ? & ? & ?). by eapply Hall.
  - intros p e He. split; [by apply (cons_stored _ Hc)|].
    destruct (Hfrom p e He) as [Hold|(z & ? & ? & ? & ?)].
    + by destruct (Hempty _ _ Hold).
    + by exists z.
Qed.

(** X5.  What the viewer holds once the archive is loaded from a cache
    that holds the file of every entry.  The store holds exactly the paths
    of the entries that are not directories and that lie under the
    directory asked for, if one is; each stored file is the file of an
    entry of that path, its locator maps back to the path, and no locator
    is marked as rewritten. *)
Theorem archive_loaded dir entries st :
  loadEntries dir entries emptyViewer = Some (tt, st) →
  consistent st
  ∧ rewrittenBlobUrl st = ∅
  ∧ (∀ p, is_Some (inZipFiles st !! p)
          ↔ ∃ z, (p, z) ∈ entries ∧ zip_dir z = false
                 ∧ inDirectory dir p = true)
  ∧ (∀ p e, inZipFiles st !! p = Some e →
       blobUrlToInZipPath st !! file_url e = Some p
       ∧ ∃ z, (p, z) ∈ entries ∧ zip_dir z = false ∧ file e = zip_file z).
Proof.
  intros H. destruct (loadEntries_loaded dir entries) as (st0 & H0 & Hrest).
  rewrite H in H0. injection H0 as <-. exact Hrest.
Qed.

Section MissingIndex.

Variable env : Env.

(** X6.  Opening an archive at a file it does not hold.  When the index
    file ([index.html] unless one is given) is not the path of a file
    entry under the directory asked for, the viewer loads the archive,
    rewrites nothing and reports the file as missing.  Stored paths keep
    their directory, so this is the outcome whenever a directory is given
    and the index file is not given as a path inside it. *)
Theorem init_reports_missing_index n dir indexFile hash entries :
  (∀ z, (JS.or_else indexFile "index.html", z) ∈ entries →
        zip_dir z = true
        ∨ inDirectory dir (JS.or_else indexFile "index.html") = false) →
  ∃ st,
    loadEntries dir entries emptyViewer = Some (tt, st)
    ∧ init env (S n) dir indexFile hash entries emptyViewer
      = Some (None, set_arrays (λ h, h ++ [[]]) st)
    ∧ rewrittenBlobUrl st = ∅.
Proof.
  intros Hmissing.
  destruct (loadEntries_loaded dir entries) as (st & H & _ & Hr & Hdom & _).
  exists st. split; [done|]. split; [|done].
  unfold init. unfold bind at 1. rewrite H.
  unfold bind at 1, newArray.
  rewrite fetchPage_missing; [done|]. simpl.
  destruct (inZipFiles st !! _) as [e|] eqn:He; [|done].
  destruct (proj1 (Hdom _) (mk_is_Some _ _ He)) as (z & Hin & Hd & Hdir).
  destruct (Hmissing z Hin); congruence.
Qed.

End MissingIndex.

(** ** The head of a rewritten page *)

(** [insertIntoHead] puts the new element before the children of the
    element [querySelectorHead] finds, and fails when it finds none. *)
Lemma insertIntoHead_spec (new : Node) (n : Node) :
  match querySelectorHead n with
  | Some (Elem name attrs cs) =>
      ∃ n', insertIntoHead new n = Some n'
            ∧ querySelectorHead n' = Some (Elem name attrs (new :: cs))
  | Some (Text _) => False
  | None => insertIntoHead new n = None
  end.
Proof.
  induction n as [s | name attrs cs IH] using Node_children_ind; [done|].
  cbn [querySelectorHead insertIntoHead].
  destruct (decide (JS.toLowerCase name = "head")) as [Hh|Hh].
  { eexists. split; [done|]. cbn [querySelectorHead]. by rewrite decide_True. }
  induction IH as [|c cs Hc _ IHcs]; [done|].
  destruct (querySelectorHead c) as [[hn ha hcs|]|] eqn:Hq; [|done|].
  - destruct Hc as (c' & -> & Hq'). eexists. split; [done|].
    cbn [querySelectorHead]. rewrite decide_False by done. by rewrite Hq'.
  - rewrite Hc.
    match goal with
    | |- match ?g cs with _ => _ end => destruct (g cs) as [[hn ha hcs|]|] eqn:Hg
    end; [|done|].
    + destruct IHcs as (n' & Hn' & Hq').
      match type of Hn' with
      | ?g' cs ≫= _ = _ => destruct (g' cs) as [cs'|] eqn:Hg'; [|done]
      end.
      injection Hn' as <-. eexists. split; [done|].
      cbn [querySelectorHead] in *. rewrite decide_False in * by done.
      by rewrite Hq.
    + match type of IHcs with
      | ?g' cs ≫= _ = _ => by destruct (g' cs) as [cs'|] eqn:Hg'
      end.
Qed.

Lemma insertIntoHead_found (new n h : Node) :
  querySelectorHead n = Some h →
  ∃ name attrs cs n',
    h = Elem name attrs cs
    ∧ insertIntoHead new n = Some n'
    ∧ querySelectorHead n' = Some (Elem name attrs (new :: cs)).
Proof.
  intros Hq. pose proof (insertIntoHead_spec new n) as H. rewrite Hq in H.
  destruct h as [name attrs cs|]; [|done].
  destruct H as (n' & H1 & H2). by exists name, attrs, cs, n'.
Qed.

Lemma insertIntoHead_Some (new n n' : Node) :
  insertIntoHead new n = Some n' →
  ∃ name attrs cs,
    querySelectorHead n = Some (Elem name attrs cs)
    ∧ querySelectorHead n' = Some (Elem name attrs (new :: cs)).
Proof.
  intros Hi. pose proof (insertIntoHead_spec new n) as H.
  destruct (querySelectorHead n) as [[name attrs cs|]|]; [|done|congruence].
  destruct H as (n'' & H1 & H2). rewrite Hi in H1. injection H1 as <-.
  by exists name, attrs, cs.
Qed.

Lemma updates_script st st' u :
  rtc update st st' → deApiScriptUrl st = Some u → deApiScriptUrl st' = Some u.
Proof.
  induction 1 as [|st st1 st2 H _ IH]; [done|].
  intros Hu. apply IH. destruct H; simpl; congruence.
Qed.

Section Head.

Variable env : Env.
Variable fetchPage_rec : option string → string → loc → M (option string).
Variable processCssFile_rec : RewriteFunc.
Variable inZipPath : option string.
Variable chain : loc.

(** The element [parseDocument] inserts for [core/reset.css] *)
Definition resetLink : Node :=
  Elem "link" [("rel", "stylesheet"); ("href", resetCssUrl env)] [].

(** X10.  The head of a rewritten page.  When [parseDocument] returns the
    rewritten blob of an HTML or XHTML document, the blob has the
    document's type and doctype, and the first [head] of its tree begins
    with the link to the reset style sheet; where the content security
    policy applies, the link is followed by the script that removes the
    privileged APIs, whose URL is the one the viewer keeps. *)
Theorem rewritten_page_head doc st blob st' :
  JS.includes ["text/html"; "application/xhtml+xml"] (contentType doc) = true →
  parseDocument env fetchPage_rec processCssFile_rec inZipPath chain doc st
    = Some (Some blob, st') →
  ∃ root name attrs cs,
    blob = {| blob_type := contentType doc;
              blob_body := Markup (doctype doc) root |}
    ∧ querySelectorHead root = Some (Elem name attrs (resetLink :: cs))
    ∧ (hasCsp env = true →
       ∃ u cs', cs = Elem "script" [("src", u)] [] :: cs'
                ∧ deApiScriptUrl st' = Some u).
Proof.
  intros Htype H. unfold parseDocument in H.
  apply bind_Some in H as (root & st1 & _ & H). rewrite Htype in H.
  apply bind_Some in H as (root1 & st2 & H1 & H).
  destruct (root1 ≫= insertIntoHead _) as [root2|] eqn:Hins;
    [|by apply ret_Some in H as [? _]].
  apply ret_Some in H as [[= <-] <-].
  destruct root1 as [root1|]; [|done]. simpl in Hins.
  apply insertIntoHead_Some in Hins as (name & attrs & cs & Hq1 & Hq2).
  exists root2, name, attrs, cs. split; [done|]. split; [done|].
  intros Hcsp. rewrite Hcsp in H1. unfold insertDeApiScript in H1.
  apply bind_Some in H1 as (cached & st3 & Hc & H1).
  apply gets_Some in Hc as [<- <-].
  destruct (deApiScriptUrl st1) as [u|] eqn:Hu.
  - apply ret_Some in H1 as [H1 <-].
    apply insertIntoHead_Some in H1 as (n1 & a1 & c1 & _ & H1).
    rewrite Hq1 in H1. injection H1 as -> -> ->. eauto.
  - destruct (deApiScript env) as [text|]; [|by apply ret_Some in H1 as [? _]].
    injection H1 as H1 <-.
    apply insertIntoHead_Some in H1 as (n1 & a1 & c1 & _ & H1).
    rewrite Hq1 in H1. injection H1 as -> -> ->. eauto.
Qed.

End Head.

Section ScriptUrl.

Variable env : Env.

(** X9.  The script that removes the privileged APIs is made once.  Once
    the viewer holds its object URL, no run of [fetchPage] replaces it:
    every page rewritten later refers to the same script. *)
Theorem deApiScript_made_once fuel inZipPath url chain st r st' u :
  deApiScriptUrl st = Some u →
  fetchPage env fuel inZipPath url chain st = Some (r, st') →
  deApiScriptUrl st' = Some u.
Proof.
  intros Hu H. eapply updates_script; [|exact Hu].
  by eapply traces_fetchPage.
Qed.

End ScriptUrl.

(** ** Pages without a head *)

Lemma insertIntoHead_None (new n : Node) :
  querySelectorHead n = None → insertIntoHead new n = None.
Proof.
  intros Hq. pose proof (insertIntoHead_spec new n) as H. by rewrite Hq in H.
Qed.

Lemma querySelectorHead_children name attrs cs :
  JS.toLowerCase name ≠ "head" →
  Forall (λ c, querySelectorHead c = None) cs →
  querySelectorHead (Elem name attrs cs) = None.
Proof.
  intros Hn Hcs. cbn [querySelectorHead]. rewrite decide_False by done.
  induction Hcs as [|c cs Hc _ IH]; [done|]. by rewrite Hc.
Qed.

Lemma querySelectorHead_None_inv name attrs cs :
  querySelectorHead (Elem name attrs cs) = None →
  JS.toLowerCase name ≠ "head"
  ∧ Forall (λ c, querySelectorHead c = None) cs.
Proof.
  cbn [querySelectorHead]. destruct (decide _) as [|Hn]; [done|].
  intros H. split; [done|].
  induction cs as [|c cs IH]; [constructor|].
  destruct (querySelectorHead c) eqn:Hc; [done|].
  constructor; [done | by apply IH].
Qed.

Section Headless.

Variable env : Env.
Variable fetchPage_rec : option string → string → loc → M (option string).
Variable processCssFile_rec : RewriteFunc.
Variable inZipPath : option string.
Variable chain : loc.

(** Rewriting makes no [head]. *)
Lemma rewriteRecursively_head elem : ∀ rootName st elem' st',
  rewriteRecursively env fetchPage_rec processCssFile_rec inZipPath chain
    elem rootName st = Some (elem', st') →
  querySelectorHead elem = None → querySelectorHead elem' = None.
Proof.
  induction elem as [s | name attrs cs IH] using Node_children_ind;
    intros rootName st elem' st' H Hq.
  { by apply ret_Some in H as [<- _]. }
  apply querySelectorHead_None_inv in Hq as [Hn Hcs].
  cbn [rewriteRecursively] in H.
  apply bind_Some in H as (r & st1 & _ & H).
  apply bind_Some in H as (children' & st2 & Hch & H).
  apply ret_Some in H as [<- _].
  apply querySelectorHead_children; [done|].
  destruct (r_text r); [by repeat constructor|].
  destruct (r_cleared r); [by apply ret_Some in Hch as [<- _]|].
  revert Hch.
  generalize (if bool_decide (JS.toLowerCase name ∈ ["svg"; "math"])
              then JS.toLowerCase name else rootName).
  intros root. clear Hn. revert st1 st2 children'.
  induction IH as [|c cs Hc _ IHcs]; intros st1 st2 children' Hch.
  - by apply ret_Some in Hch as [<- _].
  - apply Forall_cons in Hcs as [Hqc Hcs].
    apply bind_Some in Hch as (c' & st3 & H1 & Hch).
    apply bind_Some in Hch as (cs' & st4 & H2 & Hch).
    apply ret_Some in Hch as [<- _].
    constructor; [by eapply Hc | eapply IHcs; eassumption].
Qed.

End Headless.

Section HeadlessPage.

Variable env : Env.

(** X11.  An XHTML page that has no [head] element is served as it is
    stored.  The XML parser gives the tree as written, so there may be no
    head; the insertion into the head then raises, [fetchPage] catches it
    and falls back on the file: the locator it returns is that of the
    stored blob, unchanged, whatever was rewritten in the tree before. *)
Theorem headless_page_served_as_stored n path f dt root url chain st r st' :
  inZipFiles st !! path = Some f →
  blob_type (file f) = "application/xhtml+xml" →
  blob_body (file f) = Markup dt root →
  querySelectorHead root = None →
  fetchPage env (S n) (Some path) url chain st = Some (r, st') →
  ∃ st1,
    st' = recorded (file f) path st1
    ∧ r = Some (objectUrl (length (objectUrls st1))
                +:+ (if JS.truthy url then (splitUrl url).2 else "")).
Proof.
  intros Hf Hxhtml Hbody Hq H.
  assert (Htype : JS.includes ["text/html"; "application/xhtml+xml"]
                    (blob_type (file f)) = true) by (by rewrite Hxhtml).
  cbn [fetchPage] in H. unfold fetchPage_body in H.
  apply bind_Some in H as (fetched & st2 & H1 & H).
  apply ret_Some in H as [<- <-].
  unfold fetchFile in H1. unfold bind at 1, gets in H1. rewrite Hf in H1.
  apply bind_Some in H1 as (b & st1 & Hb & H1).
  assert (b = file f) as ->.
  { unfold pageRewriteFunc in Hb. cbn [rp_data rp_recurseChain] in Hb.
    destruct (JS.includes pageTypes _); [|by apply ret_Some in Hb as [<- _]].
    unfold readFileAsDocument in Hb. rewrite Hbody in Hb.
    apply bind_Some in Hb as (res & st3 & Hdoc & Hb).
    apply ret_Some in Hb as [<- _].
    unfold parseDocument in Hdoc. cbn [documentElement contentType] in Hdoc.
    apply bind_Some in Hdoc as (root' & st4 & Hrec & Hdoc).
    apply rewriteRecursively_head in Hrec; [|done].
    rewrite Htype in Hdoc.
    apply bind_Some in Hdoc as (root1 & st5 & Hins & Hdoc).
    assert (root1 ≫= insertIntoHead
              (Elem "link" [("rel", "stylesheet"); ("href", resetCssUrl env)] [])
            = None) as Hnone.
    { destruct (hasCsp env).
      - unfold insertDeApiScript in Hins.
        apply bind_Some in Hins as (cached & st6 & _ & Hins).
        destruct cached as [u|].
        + apply ret_Some in Hins as [<- _].
          by rewrite (insertIntoHead_None _ _ Hrec).
        + destruct (deApiScript env); [|by apply ret_Some in Hins as [<- _]].
          apply bind_Some in Hins as (u & st7 & _ & Hins).
          apply bind_Some in Hins as ([] & st8 & _ & Hins).
          apply ret_Some in Hins as [<- _].
          by rewrite (insertIntoHead_None _ _ Hrec).
      - apply ret_Some in Hins as [<- _]. simpl.
        by apply insertIntoHead_None. }
    rewrite Hnone in Hdoc. by apply ret_Some in Hdoc as [<- _]. }
  exists st1. injection H1 as <- <-. split; [done|].
  by rewrite objectUrl_truthy.
Qed.

End HeadlessPage.

(** ** What the rewriter leaves alone *)

(** The element names [rewriteNode] has a case for. *)
Definition handledNames : list string :=
  ["meta"; "link"; "style"; "script"; "body"; "table"; "tr"; "th"; "td";
   "frame"; "iframe"; "a"; "area"; "img"; "audio"; "video"; "source";
   "track"; "embed"; "object"; "applet"; "form"; "input"].

(** An element no rule applies to, given the root name it is visited
    with. *)
Definition untouchedElement (rootName nodeName : string) (attrs : Attrs)
    : bool :=
  if decide (rootName = "svg") then
    negb (hasAttribute attrs "href") && negb (hasAttribute attrs "xlink:href")
  else if decide (rootName = "math") then negb (hasAttribute attrs "href")
  else
    negb (bool_decide (nodeName ∈ handledNames))
    && negb (hasAttribute attrs "style").

Fixpoint untouched (rootName : string) (n : Node) : bool :=
  match n with
  | Text _ => true
  | Elem name attrs cs =>
      let nodeName := JS.toLowerCase name in
      let rootName :=
        if bool_decide (nodeName ∈ ["svg"; "math"]) then nodeName
        else rootName in
      untouchedElement rootName nodeName attrs
      && forallb (untouched rootName) cs
  end.

Section Untouched.

Variable env : Env.
Variable fetchPage_rec : option string → string → loc → M (option string).
Variable processCssFile_rec : RewriteFunc.
Variable inZipPath : option string.
Variable chain : loc.

Lemma rewriteLink_absent attrs name st :
  hasAttribute attrs name = false →
  rewriteLink env inZipPath attrs name st = Some (attrs, st).
Proof. unfold rewriteLink. by intros ->. Qed.

Lemma rewriteByName_other name attrs text st :
  name ∉ handledNames →
  rewriteByName env fetchPage_rec processCssFile_rec inZipPath chain name
    attrs text st = Some (kept attrs, st).
Proof.
  intros Hn. unfold rewriteByName, handledNames in *.
  repeat (apply not_elem_of_cons in Hn as [? Hn]).
  repeat first
    [ rewrite decide_False by done
    | rewrite bool_decide_eq_false_2
        by (intros Hin;
            repeat (apply elem_of_cons in Hin as [?|Hin]; [done|]);
            by apply elem_of_nil in Hin) ].
  done.
Qed.

Lemma rewriteNode_untouched nodeName attrs text rootName st :
  untouchedElement rootName (JS.toLowerCase nodeName) attrs = true →
  rewriteNode env fetchPage_rec processCssFile_rec inZipPath chain nodeName
    attrs text rootName st = Some (kept attrs, st).
Proof.
  unfold untouchedElement, rewriteNode.
  destruct (decide (rootName = "svg")).
  { intros [H1 H2]%andb_true_iff.
    apply negb_true_iff in H1. apply negb_true_iff in H2.
    unfold bind. rewrite rewriteLink_absent by done.
    unfold fmapM, bind. by rewrite rewriteLink_absent. }
  destruct (decide (rootName = "math")).
  { intros H1%negb_true_iff. unfold fmapM, bind.
    by rewrite rewriteLink_absent. }
  intros [H1 H2]%andb_true_iff.
  apply negb_true_iff in H1. apply negb_true_iff in H2.
  apply bool_decide_eq_false in H1.
  unfold bind. rewrite rewriteByName_other by done.
  unfold rewriteStyleAttr. simpl. by rewrite H2.
Qed.

(** X12.  What no rule applies to is left as it is.  A subtree in which
    every element inside SVG has no [href] and no [xlink:href], every
    element inside MathML has no [href], and every other element has a name
    [rewriteNode] has no case for and no [style] attribute, comes out of
    [rewriteRecursively] unchanged, and the state with it: nothing is
    fetched, whatever other attributes ([src], [style] inside SVG) the
    elements have. *)
Theorem untouched_subtree elem : ∀ rootName st,
  untouched rootName elem = true →
  rewriteRecursively env fetchPage_rec processCssFile_rec inZipPath chain
    elem rootName st = Some (elem, st).
Proof.
  induction elem as [s | name attrs cs IH] using Node_children_ind;
    intros rootName st; [done|].
  cbn [untouched rewriteRecursively].
  intros [Hel Hcs]%andb_true_iff.
  unfold bind at 1. rewrite rewriteNode_untouched by done.
  cbn [r_cleared kept r_text r_attrs].
  set (root := if bool_decide (JS.toLowerCase name ∈ ["svg"; "math"])
               then JS.toLowerCase name else rootName) in *.
  clearbody root. clear Hel.
  assert (Hchildren :
    (fix each (cs : list Node) : M (list Node) :=
       match cs with
       | [] => ret []
       | c :: cs' =>
           c' <- rewriteRecursively env fetchPage_rec processCssFile_rec
                   inZipPath chain c root ;;
           cs'' <- each cs' ;;
           ret (c' :: cs'')
       end) cs st = Some (cs, st)).
  { induction IH as [|c cs Hc _ IHcs]; [done|].
    cbn [forallb] in Hcs. apply andb_true_iff in Hcs as [H1 H2].
    unfold bind at 1. rewrite Hc by done.
    unfold bind at 1. rewrite IHcs by done. done. }
  unfold bind at 1. by rewrite Hchildren.
Qed.

End Untouched.

(** The attributes [rewriteNode] may write. *)
Definition rewrittenAttributes : list string :=
  ["href"; "xlink:href"; "content"; "src"; "srcset"; "background"; "poster";
   "data"; "code"; "archive"; "action"; "style"].

(** [attrs'] has every attribute of [attrs], and the same value for those
    the rewriter does not write. *)
Definition sameOthers (attrs attrs' : Attrs) : Prop :=
  (∀ name, name ∉ rewrittenAttributes →
     lookupAttribute attrs' name = lookupAttribute attrs name)
  ∧ (∀ name, hasAttribute attrs name = true → hasAttribute attrs' name = true).

Definition keepsOthers {A} (proj : A → Attrs) (m : M A) (attrs : Attrs) : Prop :=
  ∀ st a st', m st = Some (a, st') → sameOthers attrs (proj a).

Lemma sameOthers_refl attrs : sameOthers attrs attrs.
Proof. by split. Qed.

Lemma sameOthers_trans a b c : sameOthers a b → sameOthers b c → sameOthers a c.
Proof.
  intros [H1 H2] [H3 H4]. split.
  - intros name Hn. by rewrite H3, H1.
  - intros name Hn. by apply H4, H2.
Qed.

Lemma sameOthers_set attrs name v :
  name ∈ rewrittenAttributes → sameOthers attrs (setAttribute attrs name v).
Proof.
  intros Hin. split.
  - intros n Hn. apply lookup_setAttribute_ne. by intros ->.
  - intros n. unfold hasAttribute.
    destruct (decide (name = n)) as [->|Hne].
    + by rewrite lookup_setAttribute_eq.
    + by rewrite lookup_setAttribute_ne.
Qed.

Lemma others_ret attrs : keepsOthers id (ret attrs) attrs.
Proof. intros st a st' [<- _]%ret_Some. apply sameOthers_refl. Qed.

Lemma others_set attrs name v :
  name ∈ rewrittenAttributes →
  keepsOthers id (ret (setAttribute attrs name v)) attrs.
Proof. intros Hin st a st' [<- _]%ret_Some. by apply sameOthers_set. Qed.

Lemma others_bind {A B} (proj : B → Attrs) (m : M A) (k : A → M B) attrs :
  (∀ x, keepsOthers proj (k x) attrs) → keepsOthers proj (bind m k) attrs.
Proof. intros Hk st b st' (a & st1 & _ & H)%bind_Some. by eapply Hk. Qed.

Lemma others_trans {B} (proj : B → Attrs) (m : M Attrs) (k : Attrs → M B)
    attrs :
  keepsOthers id m attrs → (∀ a, keepsOthers proj (k a) a) →
  keepsOthers proj (bind m k) attrs.
Proof.
  intros Hm Hk st b st' (a & st1 & H1 & H)%bind_Some.
  eapply sameOthers_trans; [by apply (Hm _ _ _ H1) | by apply (Hk a _ _ _ H)].
Qed.

Lemma others_kept (m : M Attrs) attrs :
  keepsOthers id m attrs → keepsOthers r_attrs (kept <$$> m) attrs.
Proof. intros Hm st r st' (a & H & ->)%fmapM_Some. by apply (Hm _ _ _ H). Qed.

Lemma others_ret_kept attrs : keepsOthers r_attrs (ret (kept attrs)) attrs.
Proof. intros st a st' [<- _]%ret_Some. apply sameOthers_refl. Qed.

Ltac listed := unfold rewrittenAttributes; by repeat constructor.

Ltac others_step :=
  first
    [ apply others_ret | apply others_ret_kept
    | apply others_set; listed
    | apply others_bind; intros ?
    | match goal with
      | |- keepsOthers _ (if ?b then _ else _) _ => destruct b
      | |- keepsOthers _ (match ?x with _ => _ end) _ => destruct x
      | |- keepsOthers _ (let '(_, _) := ?x in _) _ => destruct x
      end ].

Section Others.

Variable env : Env.
Variable fetchPage_rec : option string → string → loc → M (option string).
Variable processCssFile_rec : RewriteFunc.
Variable inZipPath : option string.
Variable chain : loc.

Lemma others_rewriteAttr attrs name :
  name ∈ rewrittenAttributes →
  keepsOthers id (rewriteAttr env inZipPath attrs name) attrs.
Proof.
  intros. unfold rewriteAttr. destruct (hasAttribute _ _); [|others_step].
  apply others_bind. intros. by apply others_set.
Qed.

Lemma others_rewriteSrcsetAttr attrs name :
  name ∈ rewrittenAttributes →
  keepsOthers id (rewriteSrcsetAttr env inZipPath attrs name) attrs.
Proof.
  intros. unfold rewriteSrcsetAttr. destruct (hasAttribute _ _); [|others_step].
  apply others_bind. intros. by apply others_set.
Qed.

Lemma others_rewriteLink attrs name :
  name ∈ rewrittenAttributes →
  keepsOthers id (rewriteLink env inZipPath attrs name) attrs.
Proof.
  intros. unfold rewriteLink. destruct (hasAttribute _ _); [|others_step].
  apply others_bind. intros info.
  repeat match goal with
         | |- keepsOthers _ (if ?b then _ else _) _ => destruct b
         end; by apply others_set.
Qed.

Lemma others_rewriteMeta attrs :
  keepsOthers id (rewriteMeta env fetchPage_rec inZipPath chain attrs) attrs.
Proof. unfold rewriteMeta, rewriteMetaRefresh. repeat others_step. Qed.

Lemma others_rewriteLinkElement attrs :
  keepsOthers id (rewriteLinkElement env processCssFile_rec inZipPath attrs)
    attrs.
Proof. unfold rewriteLinkElement. repeat others_step. Qed.

Lemma others_rewriteFrame attrs :
  keepsOthers id (rewriteFrame env fetchPage_rec inZipPath chain attrs) attrs.
Proof. unfold rewriteFrame. repeat others_step. Qed.

Lemma others_localize attrs name :
  name ∈ rewrittenAttributes →
  keepsOthers id (localize env attrs name) attrs.
Proof.
  intros. unfold localize. destruct (_ && _); [|others_step].
  destruct (xhr env _); [|others_step].
  apply others_bind. intros. by apply others_set.
Qed.

Lemma others_rewritePlugin attrs name :
  name ∈ rewrittenAttributes →
  keepsOthers id (rewritePlugin env inZipPath attrs name) attrs.
Proof.
  intros. unfold rewritePlugin. destruct (hasAttribute _ _); [|others_step].
  apply others_trans; [by apply others_rewriteAttr|].
  intros. by apply others_localize.
Qed.

Lemma others_rewriteScript attrs text :
  keepsOthers r_attrs (rewriteScript env inZipPath attrs text) attrs.
Proof.
  unfold rewriteScript. destruct (hasAttribute _ _).
  - apply others_bind. intros url.
    intros st r st' (a & st1 & H1 & H)%bind_Some.
    apply (others_localize _ "src" ltac:(listed)) in H1. simpl in H1.
    eapply sameOthers_trans; [apply (sameOthers_set attrs "src" url); listed|].
    eapply sameOthers_trans; [exact H1|].
    destruct (_ && _); apply ret_Some in H as [<- _]; simpl;
      [apply sameOthers_set; listed | apply sameOthers_refl].
  - destruct (hasCsp env); [|others_step].
    destruct (JS.truthy text); [|others_step].
    apply others_bind. intros u st r st' [<- _]%ret_Some. simpl.
    apply sameOthers_set. listed.
Qed.

Lemma others_rewriteByName name attrs text :
  keepsOthers r_attrs
    (rewriteByName env fetchPage_rec processCssFile_rec inZipPath chain name
       attrs text) attrs.
Proof.
  unfold rewriteByName.
  repeat first
    [ apply others_rewriteScript
    | apply others_kept
    | apply others_rewriteMeta | apply others_rewriteLinkElement
    | apply others_rewriteFrame
    | apply others_rewriteAttr; listed
    | apply others_rewriteSrcsetAttr; listed
    | apply others_rewriteLink; listed
    | apply others_rewritePlugin; listed
    | apply others_trans; [| intros ?]
    | match goal with
      | |- keepsOthers _ (if ?b then _ else _) _ => destruct b
      end
    | apply others_ret_kept
    | apply others_bind; intros ?
    | by intros ??? [<- _]%ret_Some; apply sameOthers_refl ].
Qed.

Lemma others_rewriteStyleAttr r :
  keepsOthers r_attrs
    (rewriteStyleAttr env processCssFile_rec inZipPath chain r) (r_attrs r).
Proof.
  unfold rewriteStyleAttr. destruct (hasAttribute _ _).
  - apply others_bind. intros response st a st' [<- _]%ret_Some. simpl.
    apply sameOthers_set. listed.
  - intros st a st' [<- _]%ret_Some. apply sameOthers_refl.
Qed.

(** X13.  Whatever the element, [rewriteNode] removes none of its
    attributes and changes the value of none but the twelve it is written
    to rewrite: [id], [class], [rel], [type], [name] and the like come out
    as they went in. *)
Theorem other_attributes_kept nodeName attrs text rootName st r st' :
  rewriteNode env fetchPage_rec processCssFile_rec inZipPath chain nodeName
    attrs text rootName st = Some (r, st') →
  (∀ name, name ∉ rewrittenAttributes →
     lookupAttribute (r_attrs r) name = lookupAttribute attrs name)
  ∧ (∀ name, hasAttribute attrs name = true →
       hasAttribute (r_attrs r) name = true).
Proof.
  unfold rewriteNode. intros H.
  destruct (decide (rootName = "svg")).
  { revert H. apply (others_trans r_attrs); [apply others_rewriteLink; listed|].
    intros. apply others_kept, others_rewriteLink. listed. }
  destruct (decide (rootName = "math")).
  { revert H. apply others_kept, others_rewriteLink. listed. }
  apply bind_Some in H as (r1 & st1 & H1 & H).
  eapply sameOthers_trans;
    [by eapply others_rewriteByName | by eapply others_rewriteStyleAttr].
Qed.

End Others.

(** ** Scripts *)

Lemma or_else_refl (s : string) : JS.or_else s s = s.
Proof. by destruct s. Qed.

Section Scripts.

Variable env : Env.
Variable fetchPage_rec : option string → string → loc → M (option string).
Variable processCssFile_rec : RewriteFunc.
Variable inZipPath : option string.
Variable chain : loc.

(** The case of [script] when [viewer.hasCsp] is false. *)
Lemma rewriteScript_without_csp attrs text st r st' :
  hasCsp env = false →
  rewriteScript env inZipPath attrs text st = Some (r, st') →
  st' = st
  ∧ r_cleared r = false ∧ r_text r = None
  ∧ (hasAttribute attrs "src" = false → r_attrs r = attrs)
  ∧ (∀ v, lookupAttribute (r_attrs r) "src" = Some v →
          JS.startsWith v "blob:" = true → v = "blob:")
  ∧ (consistent st →
     info_inZip (parseUrl env (inZipFiles st) (getAttribute attrs "src")
                   (Some (refUrl env inZipPath))) = true →
     hasAttribute attrs "src" = true →
     lookupAttribute (r_attrs r) "src" = Some "blob:").
Proof.
  intros Hcsp H. unfold rewriteScript, localize in H. rewrite Hcsp in H.
  destruct (hasAttribute attrs "src") eqn:Hsrc.
  - unfold rewriteUrl, viewer_parseUrl, bind, gets, ret in H.
    cbn [JS.opt_or] in H. rewrite or_else_refl in H.
    set (info := parseUrl env (inZipFiles st) (getAttribute attrs "src")
                   (Some (refUrl env inZipPath))) in *.
    rewrite andb_false_r, andb_true_r in H. cbv beta iota in H.
    destruct (JS.startsWith (info_url info) "blob:") eqn:Hblob;
      injection H as <- <-; simpl.
    + repeat split; [done| |].
      * intros v. rewrite lookup_setAttribute_eq. by intros [= <-].
      * intros. by rewrite lookup_setAttribute_eq.
    + repeat split; [done| |].
      * intros v. rewrite lookup_setAttribute_eq. intros [= <-]. congruence.
      * intros Hc Hin _. exfalso. subst info. unfold parseUrl in *.
        destruct (URL_new env _ _) as [u|]; [|done].
        destruct (JS.startsWith (Url.href u) _); [|done].
        destruct (inZipFiles st !! _) as [f|] eqn:Hf; [|done].
        simpl in Hblob.
        pose proof (cons_stored _ Hc _ _ Hf) as Hm.
        destruct (issued_url _ (cons_issued _ Hc) _ _ Hm) as (n & _ & Hn).
        rewrite Hn in Hblob. unfold objectUrl in Hblob.
        rewrite append_assoc in Hblob.
        pose proof (prefix_app "blob:" (pretty n +:+ Url.hash u)) as Hp.
        unfold JS.startsWith in Hblob. congruence.
  - apply ret_Some in H as [<- <-]. simpl. repeat split; try done.
    intros v Hv. unfold hasAttribute in Hsrc. by rewrite Hv in Hsrc.
Qed.

(** X14.  Scripts of the pages, outside SVG and MathML, without the
    extension's content security policy.  When [viewer.hasCsp] is false,
    [rewriteNode] on a [script] element whose root name is neither [svg]
    nor [math] is the [script] case, which starts no task and leaves the
    state as it is, followed by the rewriting of the element's [style]
    attribute, if it has one; a script without [src] is
    left as it is but for that attribute; a [src] that comes out starting
    with [blob:] is the dummy [blob:] itself, and the [src] of a script
    that resolves to a file of the archive always is.  A script under an
    SVG or MathML root does not reach this case. *)
Theorem script_disabled_without_csp nodeName attrs text rootName st r st' :
  hasCsp env = false →
  JS.toLowerCase nodeName = "script" →
  rootName ≠ "svg" → rootName ≠ "math" →
  rewriteNode env fetchPage_rec processCssFile_rec inZipPath chain nodeName
    attrs text rootName st = Some (r, st') →
  (∃ r0, rewriteScript env inZipPath attrs text st = Some (r0, st)
         ∧ rewriteStyleAttr env processCssFile_rec inZipPath chain r0 st
           = Some (r, st'))
  ∧ r_cleared r = false ∧ r_text r = None
  ∧ (hasAttribute attrs "style" = false → st' = st)
  ∧ (hasAttribute attrs "src" = false →
     rewriteStyleAttr env processCssFile_rec inZipPath chain (kept attrs) st
     = Some (r, st'))
  ∧ (∀ v, lookupAttribute (r_attrs r) "src" = Some v →
          JS.startsWith v "blob:" = true → v = "blob:")
  ∧ (consistent st →
     info_inZip (parseUrl env (inZipFiles st) (getAttribute attrs "src")
                   (Some (refUrl env inZipPath))) = true →
     hasAttribute attrs "src" = true →
     lookupAttribute (r_attrs r) "src" = Some "blob:").
Proof.
  intros Hcsp Hname Hsvg Hmath H. unfold rewriteNode in H.
  rewrite !decide_False in H by done. rewrite Hname in H.
  apply bind_Some in H as (r0 & st1 & H1 & H2).
  change (rewriteByName env fetchPage_rec processCssFile_rec inZipPath chain
            "script" attrs text)
    with (rewriteScript env inZipPath attrs text) in H1.
  pose proof (keeps_rewriteScript env inZipPath attrs text _ _ _ H1) as Hstyle.
  destruct (rewriteScript_without_csp _ _ _ _ _ Hcsp H1)
    as (-> & Hcleared & Htext & Hinline & Hblob & Harchive).
  pose proof (rewriteStyleAttr_keeps _ _ _ _ _ _ _ _ "src" ltac:(done) H2)
    as Hsrc.
  assert (Hshape : r_cleared r = false ∧ r_text r = None).
  { unfold rewriteStyleAttr in H2. destruct (hasAttribute _ _).
    - apply bind_Some in H2 as (response & st2 & _ & [<- _]%ret_Some). done.
    - by apply ret_Some in H2 as [<- _]. }
  destruct Hshape as [Hc Ht]. split; [by exists r0|].
  split; [done|]. split; [done|]. split; [|split].
  - intros Hno. rewrite rewriteStyleAttr_plain in H2; [by injection H2|].
    unfold hasAttribute in *. by rewrite Hstyle.
  - intros Hno. specialize (Hinline Hno).
    destruct r0 as [a0 c0 t0]. simpl in *. subst. exact H2.
  - rewrite Hsrc. split; [exact Hblob|]. exact Harchive.
Qed.

End Scripts.

(** ** References out of the archive *)

Section External.

Variable env : Env.
Variable processCssFile_rec : RewriteFunc.
Variable inZipPath : option string.

Lemma fetchFile_undefined rewriteFunc chain st :
  fetchFile env None rewriteFunc chain st = Some (None, st).
Proof. done. Qed.

(** X15.  A reference that does not resolve to a file of the archive is
    replaced by the URL [parseUrl] gives for it (the absolute URL, or the
    reference itself when it cannot be resolved or names a missing file)
    and nothing is fetched or recorded: so it is for the [href] of a link
    to a style sheet, whatever [processCssFile] would do, for the [src] of
    a frame and for a reference of a style sheet, whose entry records that
    URL. *)
Theorem foreign_reference_not_fetched st :
  (∀ attrs href,
     lookupAttribute attrs "href" = Some href →
     relStylesheet attrs = true →
     info_inZip (parseUrl env (inZipFiles st) href
                   (Some (refUrl env inZipPath))) = false →
     rewriteLinkElement env processCssFile_rec inZipPath attrs st
     = Some (setAttribute attrs "href"
               (info_url (parseUrl env (inZipFiles st) href
                            (Some (refUrl env inZipPath)))),
             set_arrays (λ h, h ++ [[refUrl env inZipPath]]) st))
  ∧ (∀ n chain attrs src,
       lookupAttribute attrs "src" = Some src →
       info_inZip (parseUrl env (inZipFiles st) src
                     (Some (refUrl env inZipPath))) = false →
       rewriteFrame env (fetchPage env (S n)) inZipPath chain attrs st
       = Some (setAttribute attrs "src"
                 (info_url (parseUrl env (inZipFiles st) src
                              (Some (refUrl env inZipPath)))),
               set_arrays
                 (λ h, h ++ [chainAt st chain ++ [refUrl env inZipPath]]) st))
  ∧ (∀ this key e,
       lookupKey (urlHash this) key = Some e →
       info_inZip (parseUrl env (inZipFiles st) (entry_url e)
                     (last (chainAt st (recurseChain this)))) = false →
       startFetch env processCssFile_rec this key st
       = Some ((info_url (parseUrl env (inZipFiles st) (entry_url e)
                            (last (chainAt st (recurseChain this)))),
                {| urlHash := assignKey (urlHash this) key
                     {| entry_url := entry_url e;
                        newUrl := Some
                          (info_url (parseUrl env (inZipFiles st) (entry_url e)
                                       (last (chainAt st (recurseChain this)))));
                        entry_import := entry_import e |};
                   urlRewrittenCount := urlRewrittenCount this;
                   recurseChain := recurseChain this |}), st)).
Proof.
  split; [|split].
  - intros attrs href Hhref Hrel Hout.
    apply hasAttribute_lookup in Hhref as [Hhas Hget].
    unfold rewriteLinkElement. rewrite Hhas, Hrel, Hget.
    unfold viewer_parseUrl, newArray, bind, gets. simpl.
    by rewrite (parseUrl_not_inZip _ _ _ _ Hout).
  - intros n chain attrs src Hsrc Hout.
    apply hasAttribute_lookup in Hsrc as [Hhas Hget].
    rewrite rewriteFrame_run by done.
    rewrite Hget. cbv zeta. rewrite Hout. cbn [andb].
    rewrite (parseUrl_not_inZip _ _ _ _ Hout).
    unfold bind. by rewrite fetchPage_missing.
  - intros this key e He Hout.
    unfold startFetch, readArray, viewer_parseUrl, bind, gets.
    fold (chainAt st (recurseChain this)). rewrite He. cbv beta.
    rewrite Hout. simpl.
    by rewrite (parseUrl_not_inZip _ _ _ _ Hout).
Qed.

End External.

(** ** What [finalRewrite] replaces *)

(** A text in which no marker begins: none of its suffixes starts with the
    marker prefix or is a beginning of it. *)
Fixpoint markerFree (a : string) : bool :=
  match a with
  | EmptyString => true
  | String c a' =>
      negb (JS.startsWith (String c a') markerPrefix)
      && negb (String.prefix (String c a') markerPrefix)
      && markerFree a'
  end.

(** A text made of pieces: literal text, or what [f] gives for a key. *)
Inductive Piece : Type :=
  | Literal (s : string)
  | Marker (key : string).

Definition assemble (f : string → string) (ps : list Piece) : string :=
  fold_right (λ p acc, match p with
                       | Literal s => s +:+ acc
                       | Marker key => f key +:+ acc
                       end) "" ps.

Definition wellFormedPiece (p : Piece) : Prop :=
  match p with
  | Literal s => markerFree s = true
  | Marker key => matchKey key = Some key
  end.

Lemma replaceMarkers_skip this n text :
  replaceMarkers this n text = replaceMarkers this 0 (JS.slice text n).
Proof.
  revert n. induction text as [|a text IH]; intros [|n]; try done.
  cbn [replaceMarkers JS.slice]. apply IH.
Qed.

Lemma hexRun_app n s s' rest :
  hexRun n s = Some s' → hexRun n (s +:+ rest) = Some (s' +:+ rest).
Proof.
  revert s. induction n as [|n IH]; intros s.
  - simpl. by intros [= ->].
  - destruct s as [|a s]; [done|].
    change (String a s +:+ rest) with (String a (s +:+ rest)). simpl.
    destruct (lowerHex a); [apply IH | done].
Qed.

Lemma dash_app s s' rest :
  dash s = Some s' → dash (s +:+ rest) = Some (s' +:+ rest).
Proof.
  destruct s as [|a s]; [done|].
  change (String a s +:+ rest) with (String a (s +:+ rest)). simpl.
  destruct (Ascii.eqb a "-"); [by intros [= ->] | done].
Qed.

Lemma hexRun_length n s s' :
  hexRun n s = Some s' → String.length s = n + String.length s'.
Proof.
  revert s. induction n as [|n IH]; intros s; simpl.
  - by intros [= ->].
  - destruct s as [|a s]; [done|]. destruct (lowerHex a); [|done].
    intros H. simpl. by rewrite (IH _ H).
Qed.

Lemma dash_length s s' : dash s = Some s' → String.length s = S (String.length s').
Proof.
  destruct s as [|a s]; [done|]. simpl.
  destruct (Ascii.eqb a "-"); [by intros [= ->] | done].
Qed.

Lemma take_string_app n s rest :
  n ≤ String.length s → take n (s +:+ rest) = take n s.
Proof.
  revert s. induction n as [|n IH]; intros s Hn.
  - by destruct s, rest.
  - destruct s as [|a s]; [simpl in Hn; lia|].
    change (String a s +:+ rest) with (String a (s +:+ rest)). simpl.
    rewrite IH; [done | simpl in Hn; lia].
Qed.

Lemma take_string_length n s : String.length (take n s) ≤ n.
Proof.
  revert s. induction n as [|n IH]; intros [|a s]; simpl; try lia.
  specialize (IH s). lia.
Qed.

Lemma matchKey_length s key :
  matchKey s = Some key → 36 ≤ String.length s.
Proof.
  unfold matchKey. intros H.
  repeat match type of H with
  | (?m ≫= _) = Some _ =>
      let E := fresh "E" in destruct m eqn:E; [cbn [mbind option_bind] in H | discriminate H]
  end.
  repeat match goal with
  | E : hexRun _ _ = Some _ |- _ => apply hexRun_length in E
  | E : dash _ = Some _ |- _ => apply dash_length in E
  end.
  lia.
Qed.

Lemma matchKey_app s key rest :
  matchKey s = Some key → matchKey (s +:+ rest) = Some key.
Proof.
  intros H. pose proof (matchKey_length _ _ H) as Hlen.
  unfold matchKey in *.
  repeat match type of H with
  | (?m ≫= _) = Some _ =>
      let E := fresh "E" in
      destruct m eqn:E; [cbn [mbind option_bind] in H | discriminate H];
      first [ rewrite (hexRun_app _ _ _ rest E)
            | rewrite (dash_app _ _ rest E) ];
      cbn [mbind option_bind]
  end.
  by rewrite take_string_app.
Qed.

Lemma wellFormedKey_length key :
  matchKey key = Some key → String.length key = 36.
Proof.
  intros H. pose proof (matchKey_length _ _ H) as Hlen.
  assert (Ht : key = take 36 key).
  { unfold matchKey in H.
    repeat match type of H with
    | (?m ≫= _) = Some _ => destruct m; [cbn [mbind option_bind] in H | discriminate H]
    end.
    by injection H. }
  pose proof (take_string_length 36 key) as Hle. rewrite <- Ht in Hle. lia.
Qed.

Lemma length_app_string (a b : string) :
  String.length (a +:+ b) = String.length a + String.length b.
Proof. induction a as [|c a IH]; simpl; [done | by rewrite <- IH]. Qed.

Lemma replaceMarkers_marker this a text key :
  matchMarker (String a text) = Some key →
  replaceMarkers this 0 (String a text)
  = replacement this key
    +:+ replaceMarkers this (String.length markerPrefix + 35) text.
Proof. intros H. cbn [replaceMarkers]. by rewrite H. Qed.

Lemma replaceMarkers_char this a text :
  matchMarker (String a text) = None →
  replaceMarkers this 0 (String a text)
  = String a (replaceMarkers this 0 text).
Proof. intros H. cbn [replaceMarkers]. by rewrite H. Qed.

Lemma finalRewrite_marker this key rest :
  matchKey key = Some key →
  finalRewrite this (markerPrefix +:+ key +:+ rest)
  = replacement this key +:+ finalRewrite this rest.
Proof.
  intros Hk. unfold finalRewrite.
  assert (Hm : matchMarker (markerPrefix +:+ key +:+ rest) = Some key).
  { unfold matchMarker, JS.startsWith. rewrite prefix_app.
    rewrite slice_app_length. by apply matchKey_app. }
  assert (Htext : markerPrefix +:+ key +:+ rest
                  = String "u" ("rn:scrapbook:url:" +:+ key +:+ rest))
    by reflexivity.
  rewrite Htext in *. clear Htext.
  rewrite replaceMarkers_marker with (key := key) by done.
  f_equal. rewrite replaceMarkers_skip. f_equal.
  rewrite <- append_assoc.
  assert (Hlen : String.length markerPrefix + 35
                 = String.length ("rn:scrapbook:url:" +:+ key)).
  { rewrite length_app_string, (wellFormedKey_length _ Hk). reflexivity. }
  rewrite Hlen. apply slice_app_length.
Qed.

Lemma prefix_app_cases (p s rest : string) :
  String.prefix p (s +:+ rest) = true →
  String.prefix p s = true ∨ String.prefix s p = true.
Proof.
  revert s. induction p as [|a p IH]; intros s; [by destruct s; left|].
  destruct s as [|b s]; [by right|].
  change (String b s +:+ rest) with (String b (s +:+ rest)). simpl.
  destruct (ascii_dec a b) as [->|Hne].
  - destruct (ascii_dec b b); [apply IH | done].
  - done.
Qed.

Lemma finalRewrite_literal this a rest :
  markerFree a = true →
  finalRewrite this (a +:+ rest) = a +:+ finalRewrite this rest.
Proof.
  unfold finalRewrite. induction a as [|c a IH]; [done|].
  cbn [markerFree]. intros [[H1 H2]%andb_true_iff H3]%andb_true_iff.
  apply negb_true_iff in H1. apply negb_true_iff in H2.
  change (String c a +:+ rest) with (String c (a +:+ rest)).
  cbn [replaceMarkers].
  assert (Hm : matchMarker (String c (a +:+ rest)) = None).
  { unfold matchMarker, JS.startsWith in *.
    destruct (String.prefix markerPrefix (String c (a +:+ rest))) eqn:E;
      [|done].
    change (String c (a +:+ rest)) with (String c a +:+ rest) in E.
    apply prefix_app_cases in E as [E|E]; congruence. }
  rewrite Hm. change (String c a +:+ replaceMarkers this 0 rest)
    with (String c (a +:+ replaceMarkers this 0 rest)).
  f_equal. by apply IH.
Qed.

Lemma finalRewrite_assemble this ps :
  Forall wellFormedPiece ps →
  finalRewrite this (assemble (λ key, markerPrefix +:+ key) ps)
  = assemble (replacement this) ps.
Proof.
  induction 1 as [|[s|key] ps Hp _ IH]; [done| |]; simpl in *.
  - by rewrite finalRewrite_literal, IH.
  - by rewrite append_assoc, finalRewrite_marker, IH.
Qed.

Lemma slice_add (a b : nat) (s : string) :
  JS.slice s (a + b) = JS.slice (JS.slice s a) b.
Proof.
  revert s. induction a as [|a IH]; intros s.
  - by destruct s.
  - destruct s as [|c s]; [by destruct b|]. apply IH.
Qed.

Lemma matchKey_take s key : matchKey s = Some key → key = take 36 s.
Proof.
  unfold matchKey. intros H.
  repeat match type of H with
  | (?m ≫= _) = Some _ => destruct m; [cbn [mbind option_bind] in H | discriminate H]
  end.
  by injection H.
Qed.

Lemma take_slice n s : take n s +:+ JS.slice s n = s.
Proof.
  revert s. induction n as [|n IH]; intros [|a s]; try done.
  cbn [take JS.slice].
  change (String a (take n s) +:+ JS.slice s n)
    with (String a (take n s +:+ JS.slice s n)). by rewrite IH.
Qed.

Lemma slice_shorter n s : String.length (JS.slice s n) ≤ String.length s.
Proof.
  revert s. induction n as [|n IH]; intros [|a s]; simpl; try lia.
  specialize (IH s). lia.
Qed.

Lemma startsWith_take s p :
  JS.startsWith s p = true → p +:+ JS.slice s (String.length p) = s.
Proof.
  unfold JS.startsWith. revert s. induction p as [|a p IH]; intros s.
  - by destruct s.
  - destruct s as [|b s]; [done|]. simpl.
    destruct (ascii_dec a b) as [->|]; [|done].
    intros H. change (String b p +:+ JS.slice s (String.length p))
      with (String b (p +:+ JS.slice s (String.length p))).
    by rewrite IH.
Qed.

(** With no entry in the table nothing is replaced, whatever the text. *)
Lemma replaceMarkers_empty this : ∀ n text,
  String.length text ≤ n →
  urlHash this = [] → replaceMarkers this 0 text = text.
Proof.
  induction n as [|n IH]; intros text Hlen Hempty.
  { destruct text; [done | simpl in Hlen; lia]. }
  destruct text as [|a text]; [done|]. cbn [replaceMarkers].
  destruct (matchMarker (String a text)) as [key|] eqn:Hm.
  - unfold matchMarker in Hm.
    destruct (JS.startsWith (String a text) markerPrefix) eqn:Hs; [|done].
    pose proof (matchKey_length _ _ Hm) as Hl.
    pose proof (matchKey_take _ _ Hm) as Hk.
    apply startsWith_take in Hs.
    set (tail := JS.slice (String a text) (String.length markerPrefix)) in *.
    rewrite replaceMarkers_skip.
    unfold replacement. rewrite Hempty. cbn [lookupKey].
    assert (Htext : text = "rn:scrapbook:url:" +:+ tail).
    { change markerPrefix with (String "u" "rn:scrapbook:url:") in Hs.
      by injection Hs. }
    assert (Hrest : JS.slice text (String.length markerPrefix + 35)
                    = JS.slice tail 36).
    { rewrite Htext.
      change (String.length markerPrefix + 35)
        with (String.length "rn:scrapbook:url:" + 36).
      by rewrite slice_add, slice_app_length. }
    rewrite Hrest, IH; [| |done].
    + by rewrite Hk, append_assoc, take_slice.
    + pose proof (slice_shorter 36 tail). simpl in Hlen.
      assert (String.length text = 17 + String.length tail).
      { rewrite Htext, length_app_string. done. }
      lia.
  - f_equal. apply IH; [simpl in Hlen; lia | done].
Qed.

(** X16.  What [finalRewrite] replaces.  In a text made of literal pieces
    in which no marker begins and of markers with a key of the UUID form,
    every marker is replaced by what the table holds for its key ([newUrl],
    or the text [null] when it was never set) or kept when the table does
    not hold the key, and every literal piece is kept as it is.  With an
    empty table no text at all is changed, even one that holds what looks
    like a marker. *)
Theorem finalRewrite_replaces_markers this :
  (∀ ps, Forall wellFormedPiece ps →
     finalRewrite this (assemble (λ key, markerPrefix +:+ key) ps)
     = assemble (replacement this) ps)
  ∧ (∀ key, lookupKey (urlHash this) key = None →
       replacement this key = markerPrefix +:+ key)
  ∧ (urlHash this = [] → ∀ text, finalRewrite this text = text).
Proof.
  split; [apply finalRewrite_assemble|]. split.
  - intros key Hk. unfold replacement. by rewrite Hk.
  - intros Hempty text. by eapply replaceMarkers_empty.
Qed.

(** ** References of a style text *)

(** The text [rewriteCssText] makes of [parts] when the [n]-th identifier
    is the next one, and the entries it adds to the table. *)
Fixpoint placeholders (env : Env) (n : nat) (parts : list Part) : list Piece :=
  match parts with
  | [] => []
  | Lit s :: parts' => Literal s :: placeholders env n parts'
  | Ref _ _ :: parts' => Marker (getUuid env n) :: placeholders env (S n) parts'
  end.

Fixpoint entriesOf (env : Env) (n : nat) (parts : list Part)
    : list (string * UrlHashEntry) :=
  match parts with
  | [] => []
  | Lit _ :: parts' => entriesOf env n parts'
  | Ref k u :: parts' =>
      (getUuid env n,
       {| entry_url := u; newUrl := None;
          entry_import := match k with ImportUrl => true | _ => false end |})
      :: entriesOf env (S n) parts'
  end.

(** What a reference that is not an import is replaced with: the stored
    locator of the file it resolves to or, outside the archive, the
    resolved URL; [null] when the file is in the recursion chain. *)
Definition resolveReference (env : Env) (files : gmap string ZipEntry)
    (chain : list string) (u : string) : string :=
  let info := parseUrl env files u (last chain) in
  if info_inZip info
     && JS.includes chain
          (splitUrlByAnchor (inZipPathToUrl env (info_inZipPath info))).1
  then "null"
  else JS.opt_or (file_url <$> (info_inZipPath info ≫= (files !!.)))
         (info_url info).

Definition plainPart (p : Part) : Prop :=
  match p with
  | Lit s => markerFree s = true
  | Ref k _ => k ≠ ImportUrl
  end.

Lemma assignKey_fresh h key e :
  key ∉ map fst h → assignKey h key e = h ++ [(key, e)].
Proof.
  induction h as [|[k x] h IH]; [done|]. simpl.
  intros [Hk Hh]%not_elem_of_cons.
  rewrite decide_False by done. by rewrite IH.
Qed.

Lemma lookupKey_app_here seen key e todo :
  key ∉ map fst seen →
  lookupKey (seen ++ (key, e) :: todo) key = Some e.
Proof.
  induction seen as [|[k x] seen IH]; simpl.
  - intros _. by rewrite decide_True.
  - intros [Hk Hh]%not_elem_of_cons. rewrite decide_False by done. auto.
Qed.

Lemma assignKey_app_here seen key e e' todo :
  key ∉ map fst seen →
  assignKey (seen ++ (key, e) :: todo) key e' = seen ++ (key, e') :: todo.
Proof.
  induction seen as [|[k x] seen IH]; simpl.
  - intros _. by rewrite decide_True.
  - intros [Hk Hh]%not_elem_of_cons. rewrite decide_False by done.
    by rewrite IH.
Qed.

Section StyleText.

Variable env : Env.
Variable processCssFile_rec : RewriteFunc.

Definition advance (k : nat) (st : Viewer) : Viewer :=
  {| inZipFiles := inZipFiles st;
     blobUrlToInZipPath := blobUrlToInZipPath st;
     rewrittenBlobUrl := rewrittenBlobUrl st;
     objectUrls := objectUrls st;
     arrays := arrays st;
     uuids := uuids st + k;
     deApiScriptUrl := deApiScriptUrl st |}.

Lemma advance_0 st : advance 0 st = st.
Proof. destruct st. unfold advance. simpl. by rewrite Nat.add_0_r. Qed.

Lemma rewriteCssParts_run parts : ∀ this st,
  NoDup (map fst (urlHash this) ++ map fst (entriesOf env (uuids st) parts)) →
  rewriteCssParts env parts this st
  = Some ((assemble (λ key, markerPrefix +:+ key)
             (placeholders env (uuids st) parts),
           {| urlHash := urlHash this ++ entriesOf env (uuids st) parts;
              urlRewrittenCount := urlRewrittenCount this;
              recurseChain := recurseChain this |}),
          advance (length (entriesOf env (uuids st) parts)) st).
Proof.
  induction parts as [|[s|k u] parts IH]; intros this st Hnd.
  - simpl. rewrite app_nil_r, advance_0. by destruct this.
  - cbn [rewriteCssParts entriesOf placeholders] in *.
    unfold bind. by rewrite IH.
  - cbn [rewriteCssParts entriesOf placeholders] in *.
    unfold bind at 1, getUrlHash. unfold bind at 1, nextUuid.
    cbn [map fst] in Hnd.
    assert (Hfresh : getUuid env (uuids st) ∉ map fst (urlHash this)).
    { apply NoDup_app in Hnd as (_ & Hd & _). intros Hin.
      apply (Hd _ Hin). left. }
    unfold ret at 1. cbn [fst snd].
    unfold bind at 1. rewrite IH; cbn [urlHash uuids].
    + rewrite assignKey_fresh by done. unfold ret. cbn [fst snd assemble fold_right].
      rewrite <- app_assoc. cbn [urlRewrittenCount recurseChain app].
      do 2 f_equal. unfold advance. cbn. f_equal. lia.
    + rewrite assignKey_fresh by done. rewrite map_app, <- app_assoc. done.
Qed.

Lemma readArray_run a st : readArray a st = Some (chainAt st a, st).
Proof. done. Qed.

Lemma startFetch_plain this key e st :
  lookupKey (urlHash this) key = Some e →
  entry_import e = false →
  startFetch env processCssFile_rec this key st
  = let chain := chainAt st (recurseChain this) in
    let info := parseUrl env (inZipFiles st) (entry_url e) (last chain) in
    if info_inZip info
       && JS.includes chain
            (splitUrlByAnchor (inZipPathToUrl env (info_inZipPath info))).1
    then Some (("about:blank", this), st)
    else
      let response :=
        JS.opt_or (file_url <$> (info_inZipPath info ≫= (inZipFiles st !!.)))
          (info_url info) in
      Some ((response,
             {| urlHash := assignKey (urlHash this) key
                             {| entry_url := entry_url e;
                                newUrl := Some response;
                                entry_import := entry_import e |};
                urlRewrittenCount := urlRewrittenCount this;
                recurseChain := recurseChain this |}), st).
Proof.
  intros He Himp. unfold startFetch.
  unfold bind at 1. rewrite readArray_run. rewrite He.
  unfold bind at 1, viewer_parseUrl, gets. cbv zeta.
  destruct (_ && _); [done|].
  rewrite Himp. unfold bind. by rewrite fetchFile_plain.
Qed.

(** What [startFetches] leaves in an entry that is not an import. *)
Definition fetchedEntry (files : gmap string ZipEntry) (chain : list string)
    (e : UrlHashEntry) : UrlHashEntry :=
  let info := parseUrl env files (entry_url e) (last chain) in
  if info_inZip info
     && JS.includes chain
          (splitUrlByAnchor (inZipPathToUrl env (info_inZipPath info))).1
  then e
  else {| entry_url := entry_url e;
          newUrl := Some (JS.opt_or
                            (file_url <$> (info_inZipPath info ≫= (files !!.)))
                            (info_url info));
          entry_import := entry_import e |}.

Lemma startFetchesOf_run todo : ∀ seen count chain st,
  NoDup (map fst (seen ++ todo)) →
  Forall (λ ke, entry_import ke.2 = false) todo →
  ∃ rs,
    startFetchesOf env processCssFile_rec (map fst todo)
      {| urlHash := seen ++ todo; urlRewrittenCount := count;
         recurseChain := chain |} st
    = Some ((rs,
             {| urlHash :=
                  seen ++ map (λ ke, (ke.1, fetchedEntry (inZipFiles st)
                                              (chainAt st chain) ke.2)) todo;
                urlRewrittenCount := count; recurseChain := chain |}), st).
Proof.
  induction todo as [|[key e] todo IH]; intros seen count chain st Hnd Himp.
  - exists []. done.
  - apply Forall_cons in Himp as [He Himp]. simpl in He.
    assert (Hfresh : key ∉ map fst seen).
    { rewrite map_app in Hnd. apply NoDup_app in Hnd as (_ & Hd & _).
      intros Hin. apply (Hd _ Hin). left. }
    cbn [map fst startFetchesOf]. unfold bind at 1.
    rewrite (startFetch_plain _ key e);
      [| cbn [urlHash]; by apply lookupKey_app_here | done].
    cbv zeta. cbn [urlHash recurseChain urlRewrittenCount].
    unfold fetchedEntry at 1. cbn [fst snd].
    destruct (_ && _).
    + destruct (IH (seen ++ [(key, e)]) count chain st) as [rs Hrs].
      { by rewrite <- app_assoc. }
      { done. }
      rewrite <- !app_assoc in Hrs. cbn [app] in Hrs.
      unfold bind at 1. cbn [fst snd]. rewrite Hrs.
      eexists. reflexivity.
    + rewrite assignKey_app_here by done.
      match goal with
      | |- context [seen ++ (key, ?e') :: todo] =>
          destruct (IH (seen ++ [(key, e')]) count chain st) as [rs Hrs]
      end.
      { rewrite <- app_assoc. cbn [app].
        rewrite !map_app in *. done. }
      { done. }
      rewrite <- !app_assoc in Hrs. cbn [app] in Hrs.
      unfold bind at 1. cbn [fst snd]. rewrite Hrs.
      eexists. reflexivity.
Qed.

Lemma assemble_replacement parts : ∀ n seen count chain files l,
  NoDup (map fst seen ++ map fst (entriesOf env n parts)) →
  Forall plainPart parts →
  assemble
    (replacement
       {| urlHash := seen ++ map (λ ke, (ke.1, fetchedEntry files l ke.2))
                               (entriesOf env n parts);
          urlRewrittenCount := count; recurseChain := chain |})
    (placeholders env n parts)
  = fold_right (λ p acc, match p with
                         | Lit s => s +:+ acc
                         | Ref _ u => resolveReference env files l u +:+ acc
                         end) "" parts.
Proof.
  induction parts as [|[s|k u] parts IH];
    intros n seen count chain files l Hnd Hplain; [done| |].
  - apply Forall_cons in Hplain as [_ Hplain].
    cbn [placeholders entriesOf assemble fold_right] in *.
    fold (assemble (replacement
       {| urlHash := seen ++ map (λ ke, (ke.1, fetchedEntry files l ke.2))
                               (entriesOf env n parts);
          urlRewrittenCount := count; recurseChain := chain |})
       (placeholders env n parts)).
    by rewrite IH.
  - apply Forall_cons in Hplain as [Hk Hplain].
    cbn [placeholders entriesOf assemble fold_right map fst snd] in *.
    assert (Hfresh : getUuid env n ∉ map fst seen).
    { apply NoDup_app in Hnd as (_ & Hd & _). intros Hin.
      apply (Hd _ Hin). left. }
    f_equal.
    + unfold replacement. cbn [urlHash].
      rewrite lookupKey_app_here by done.
      unfold fetchedEntry, resolveReference. cbn [entry_url].
      by destruct (_ && _).
    + match goal with
      | |- context [(getUuid env n, ?e')] =>
          specialize (IH (S n) (seen ++ [(getUuid env n, e')]) count chain
                        files l)
      end.
      rewrite <- app_assoc in IH. cbn [app] in IH.
      apply IH; [|done].
      rewrite map_app, <- app_assoc. done.
Qed.

Lemma ComplexUrlFetcher_new_run refUrl chain st :
  ∃ this f,
    ComplexUrlFetcher_new refUrl (Some chain) st
    = Some (this, set_arrays f st)
    ∧ urlHash this = [] ∧
    chainAt (set_arrays f st) (recurseChain this)
    = chainAt st chain
      ++ (if JS.truthy refUrl then [(splitUrlByAnchor refUrl).1] else []).
Proof.
  unfold ComplexUrlFetcher_new, JSON_clone, readArray, newArray, push, modify,
    gets, bind, ret.
  destruct (JS.truthy refUrl).
  - eexists _, (λ h, alter (λ l, l ++ [(splitUrlByAnchor refUrl).1])
                       (length h) (h ++ [default [] (h !! chain)])).
    split; [reflexivity|]. split; [done|].
    unfold chainAt. simpl.
    rewrite <- (Nat.add_0_r (length (arrays st))), alter_app_r. simpl.
    by rewrite Nat.add_0_r, lookup_new_array.
  - eexists _, (λ h, h ++ [default [] (h !! chain)]).
    split; [reflexivity|]. split; [done|].
    unfold chainAt. simpl. by rewrite lookup_new_array, app_nil_r.
Qed.

Lemma placeholders_wellFormed parts n :
  Forall plainPart parts →
  Forall (λ key, matchKey key = Some key) (map fst (entriesOf env n parts)) →
  Forall wellFormedPiece (placeholders env n parts).
Proof.
  revert n. induction parts as [|[s|k u] parts IH]; intros n Hp Hk;
    [constructor| |]; apply Forall_cons in Hp as [H1 Hp];
    cbn [placeholders entriesOf map fst] in *.
  - constructor; [done | by apply IH].
  - apply Forall_cons in Hk as [H2 Hk]. constructor; [done | by apply IH].
Qed.

Lemma entriesOf_plain parts n :
  Forall plainPart parts →
  Forall (λ ke, entry_import ke.2 = false) (entriesOf env n parts).
Proof.
  revert n. induction parts as [|[s|k u] parts IH]; intros n Hp;
    [constructor| |]; apply Forall_cons in Hp as [H1 Hp];
    cbn [entriesOf]; [by apply IH|].
  constructor; [|by apply IH]. simpl in *. by destruct k.
Qed.

(** X17.  The references of a style text that has no import.  When the
    literal pieces of the text hold no beginning of a marker, no reference
    is an import and the identifiers drawn for the references are distinct
    and of the UUID form, [processCssText] returns the text with every
    reference replaced by [resolveReference], resolved against the last URL
    of the chain extended with the reference URL, and every other piece as
    it is; it fetches nothing and records nothing.  A reference into the
    archive thus becomes the stored locator of the file without the query
    or the fragment it had. *)
Theorem style_text_references text refUrl chain st :
  let parts := cssParts env text in
  let keys := map fst (entriesOf env (uuids st) parts) in
  let chain' :=
    chainAt st chain
    ++ (if JS.truthy refUrl then [(splitUrlByAnchor refUrl).1] else []) in
  Forall plainPart parts →
  NoDup keys →
  Forall (λ key, matchKey key = Some key) keys →
  ∃ st',
    processCssText env processCssFile_rec text refUrl chain st
    = Some (fold_right
              (λ p acc, match p with
                        | Lit s => s +:+ acc
                        | Ref _ u =>
                            resolveReference env (inZipFiles st) chain' u
                            +:+ acc
                        end) "" parts, st')
    ∧ inZipFiles st' = inZipFiles st
    ∧ blobUrlToInZipPath st' = blobUrlToInZipPath st
    ∧ rewrittenBlobUrl st' = rewrittenBlobUrl st
    ∧ objectUrls st' = objectUrls st.
Proof.
  intros parts keys chain' Hplain Hnd Hkeys. subst parts keys chain'.
  destruct (ComplexUrlFetcher_new_run refUrl chain st)
    as (this & f & Hnew & Hempty & Hchain).
  unfold processCssText. unfold bind at 1. rewrite Hnew.
  unfold bind at 1, rewriteCssText.
  rewrite rewriteCssParts_run by (by rewrite Hempty).
  cbn [uuids set_arrays fst snd]. rewrite Hempty. cbn [app].
  set (entries := entriesOf env (uuids st) (cssParts env text)) in *.
  destruct (startFetchesOf_run entries [] (urlRewrittenCount this)
              (recurseChain this)
              (advance (length entries) (set_arrays f st)))
    as [rs Hrs]; [done | by apply entriesOf_plain |].
  unfold bind at 1, startFetches. cbn [urlHash app] in *.
  rewrite Hrs. cbn [fst snd ret].
  exists (advance (length entries) (set_arrays f st)). split; [|done].
  unfold ret. do 2 f_equal.
  rewrite finalRewrite_assemble by (by apply placeholders_wellFormed).
  change (chainAt (advance (length entries) (set_arrays f st))
            (recurseChain this))
    with (chainAt (set_arrays f st) (recurseChain this)).
  rewrite Hchain.
  by apply (assemble_replacement (cssParts env text) (uuids st) []).
Qed.

End StyleText.

(** ** The listener of clicks *)

Lemma splitUrl_locator n hash :
  (hash = "" ∨ ∃ f, hash = "#" +:+ f) →
  splitUrl (objectUrl n +:+ hash) = (objectUrl n, "", hash).
Proof.
  intros Hh. destruct (objectUrl_plain n) as [H1 H2].
  by apply (splitUrl_parts (objectUrl n) "" hash); [| |left| |].
Qed.

Lemma Url_hash_shape u : Url.hash u = "" ∨ ∃ f, Url.hash u = "#" +:+ f.
Proof.
  unfold Url.hash. destruct (url_fragment u) as [f|]; [|by left].
  destruct (JS.truthy f); [right; by eexists | by left].
Qed.

Lemma consistent_stored_url st p f :
  consistent st → inZipFiles st !! p = Some f → ∃ n, file_url f = objectUrl n.
Proof.
  intros Hc Hf. pose proof (cons_stored _ Hc p f Hf) as Hm.
  destruct (issued_url _ (cons_issued _ Hc) _ _ Hm) as (n & _ & Hn). eauto.
Qed.

Lemma cut_shape (c : ascii) (s : string) :
  (JS.cut c s).2 = "" ∨ ∃ r, (JS.cut c s).2 = String c r.
Proof.
  induction s as [|a s IH]; simpl; [by left|].
  destruct (Ascii.eqb a c) eqn:E.
  - apply Ascii.eqb_eq in E as ->. right. by eexists.
  - by destruct (JS.cut c s).
Qed.

Lemma splitUrl_hash_shape (url : string) :
  (splitUrl url).2 = "" ∨ ∃ f, (splitUrl url).2 = "#" +:+ f.
Proof.
  unfold splitUrl. pose proof (cut_shape "#" url) as H.
  destruct (JS.cut "#" url) as [name hash]. destruct (JS.cut "?" name).
  exact H.
Qed.

Section ClickProperties.

Variable env : Env.
Variable isUrlAbsolute : string → bool.

(** What [fetchPage] returns for a stored path. *)
Lemma fetchPage_result fuel p url chain st r st' :
  fetchPage env fuel (Some p) url chain st = Some (r, st') →
  is_Some (inZipFiles st !! p) →
  ∃ n, r = Some (objectUrl n
                 +:+ (if JS.truthy url then (splitUrl url).2 else ""))
       ∧ blobUrlToInZipPath st' !! objectUrl n = Some p
       ∧ objectUrl n ∈ rewrittenBlobUrl st'.
Proof.
  intros H [f Hf]. destruct fuel as [|k]; [done|].
  cbn [fetchPage] in H. unfold fetchPage_body in H.
  apply bind_Some in H as (fetched & st1 & H1 & H).
  apply ret_Some in H as [<- <-].
  destruct fetched as [u|].
  - apply fetchFile_records in H1 as (path & [= <-] & _ & Hm & Hr & n & ->).
    exists n. by rewrite objectUrl_truthy.
  - unfold fetchFile in H1. unfold bind at 1, gets in H1. rewrite Hf in H1.
    apply bind_Some in H1 as (b & st2 & _ & H1). done.
Qed.

(** X18.  A link to a file of the archive, clicked in the viewer's frame.
    The URL that [parseUrl] (hence the rewriter) gives for a reference into
    the archive is recognised by the listener: the path found in
    [blobUrlToInZipPath] is the path the reference resolved to and the
    fragment is the reference's; the viewer is reopened at that path, or,
    when it is the page shown, the frame is moved to the fragment. *)
Theorem click_on_archive_link fuel current ref refUrl st p hash :
  consistent st →
  let info := parseUrl env (inZipFiles st) ref refUrl in
  info_inZip info = true →
  info_inZipPath info = Some p → p ≠ "" →
  info_hash info = Some hash →
  frameOnClick env isUrlAbsolute fuel true current
    {| button := 0; anchor := Some (info_url info) |} st
  = Some (if bool_decide (Some p ≠ current) then OpenInViewer p hash
          else ScrollInPage (info_url info) hash, st).
Proof.
  intros Hc info Hin Hp Hne Hh. subst info. unfold parseUrl in *.
  destruct (URL_new env ref _) as [u|]; [|done].
  destruct (JS.startsWith _ _); [|done].
  destruct (inZipFiles st !! _) as [f|] eqn:Hf; [|done].
  cbn [info_url info_inZipPath info_hash] in *.
  injection Hp as Hp. injection Hh as <-. rewrite Hp in Hf.
  destruct (consistent_stored_url _ _ _ Hc Hf) as [n Hn].
  pose proof (cons_stored _ Hc _ _ Hf) as Hm. rewrite Hn in *.
  unfold frameOnClick. cbn [button anchor negb Nat.eqb].
  assert (Hblob : JS.startsWith (objectUrl n +:+ Url.hash u) "blob:" = true).
  { unfold objectUrl. rewrite append_assoc. apply prefix_app. }
  rewrite Hblob, (splitUrl_locator n _ (Url_hash_shape u)).
  unfold bind, gets. rewrite Hm.
  destruct p as [|c s]; [done|]. simpl.
  by destruct (bool_decide _).
Qed.

(** A link to a locator marked as rewritten, clicked in a frame of a
    page. *)
Lemma click_rewritten fuel current u hash st :
  issued st → u ∈ rewrittenBlobUrl st →
  (hash = "" ∨ ∃ f, hash = "#" +:+ f) →
  frameOnClick env isUrlAbsolute fuel false current
    {| button := 0; anchor := Some (u +:+ hash) |} st
  = Some (Unhandled, st).
Proof.
  intros Hi Hu Hh. destruct (issued_rewritten _ Hi _ Hu) as [p Hp].
  destruct (issued_url _ Hi _ _ Hp) as (n & _ & ->).
  unfold frameOnClick. cbn [button anchor negb Nat.eqb].
  rewrite (splitUrl_locator n _ Hh). unfold bind, gets. rewrite Hp.
  destruct (JS.truthy p); [|done].
  by rewrite bool_decide_eq_true_2.
Qed.

(** X19.  A page is rewritten once.  The URL a run of [fetchPage] returns
    is marked as rewritten, so a click, in a frame of a page, on a link
    that holds it is left to the browser: the listener neither cancels it
    nor rewrites the page again. *)
Theorem click_on_served_page fuel inZipPath url chain st r st' :
  issued st →
  fetchPage env fuel inZipPath url chain st = Some (Some r, st') →
  ∀ fuel' current,
    frameOnClick env isUrlAbsolute fuel' false current
      {| button := 0; anchor := Some r |} st'
    = Some (Unhandled, st').
Proof.
  intros Hi H fuel' current.
  destruct (fetchPage_keeps env _ _ _ _ _ _ _ Hi H) as [Hi' _].
  destruct inZipPath as [p|].
  - destruct (inZipFiles st !! p) as [f|] eqn:Hf.
    + destruct (fetchPage_result _ _ _ _ _ _ _ H ltac:(eauto))
        as (n & [= ->] & _ & Hr).
      apply click_rewritten; [done | done |].
      destruct (JS.truthy url); [apply splitUrl_hash_shape | by left].
    + destruct fuel as [|k]; [done|].
      rewrite fetchPage_missing in H by (simpl; by rewrite Hf). done.
  - destruct fuel as [|k]; [done|].
    rewrite fetchPage_missing in H by done. done.
Qed.

(** X20.  A link to the stored locator of a file, clicked in a frame of a
    page.  The click is cancelled.  When the file is an HTML or XHTML page
    it is rewritten with an empty recursion chain and the frame is loaded
    with what [fetchPage] returns: a locator issued for that path and
    marked as rewritten, followed by the fragment of the link (or
    [about:blank]); for any other file nothing else happens.  The state
    stays consistent. *)
Theorem click_on_stored_locator fuel current p f hash st :
  consistent st →
  inZipFiles st !! p = Some f → p ≠ "" →
  (hash = "" ∨ ∃ x, hash = "#" +:+ x) →
  frameOnClick env isUrlAbsolute fuel false current
    {| button := 0; anchor := Some (file_url f +:+ hash) |} st
  = (if JS.includes ["text/html"; "application/xhtml+xml"] (blob_type (file f))
     then
       (chain <- newArray [] ;;
        fetchedUrl <- fetchPage env fuel (Some p) (file_url f +:+ hash) chain ;;
        ret (LoadInFrame (JS.opt_or fetchedUrl "about:blank"))) st
     else Some (Cancelled, st))
  ∧ ∀ nav st',
      frameOnClick env isUrlAbsolute fuel false current
        {| button := 0; anchor := Some (file_url f +:+ hash) |} st
      = Some (nav, st') →
      consistent st'
      ∧ (nav = Cancelled
         ∨ ∃ n, nav = LoadInFrame (objectUrl n +:+ hash)
                ∧ blobUrlToInZipPath st' !! objectUrl n = Some p
                ∧ objectUrl n ∈ rewrittenBlobUrl st').
Proof.
  intros Hc Hf Hne Hh.
  destruct (consistent_stored_url _ _ _ Hc Hf) as [n Hn].
  pose proof (cons_stored _ Hc _ _ Hf) as Hm.
  pose proof (cons_unrewritten _ Hc _ _ Hf) as Hr. rewrite Hn in *.
  assert (Heq :
    frameOnClick env isUrlAbsolute fuel false current
      {| button := 0; anchor := Some (objectUrl n +:+ hash) |} st
    = (if JS.includes ["text/html"; "application/xhtml+xml"]
            (blob_type (file f))
       then
         (chain <- newArray [] ;;
          fetchedUrl <- fetchPage env fuel (Some p) (objectUrl n +:+ hash)
                          chain ;;
          ret (LoadInFrame (JS.opt_or fetchedUrl "about:blank"))) st
       else Some (Cancelled, st))).
  { unfold frameOnClick. cbn [button anchor negb Nat.eqb].
    rewrite (splitUrl_locator n _ Hh).
    unfold bind at 1, gets at 1. rewrite Hm.
    destruct p as [|c s]; [done|]. cbn [JS.truthy].
    unfold bind at 1, gets at 1. rewrite bool_decide_eq_false_2 by done.
    unfold bind at 1, gets at 1. rewrite Hf.
    by destruct (JS.includes _ _). }
  split; [exact Heq|]. intros nav st'. rewrite Heq.
  destruct (JS.includes _ _).
  - intros H. apply bind_Some in H as (chain & st1 & H1 & H).
    apply bind_Some in H as (r & st2 & H2 & H).
    apply ret_Some in H as [<- <-].
    assert (Hc1 : consistent st1).
    { eapply updates_consistent; [by eapply traces_newArray | done]. }
    split; [by eapply fetchPage_consistent|].
    right.
    assert (Hf1 : is_Some (inZipFiles st1 !! p)).
    { injection H1 as _ <-. simpl. eauto. }
    destruct (fetchPage_result _ _ _ _ _ _ _ H2 Hf1) as (k & -> & Hk & Hrk).
    exists k. split; [|done]. simpl.
    rewrite (splitUrl_locator n _ Hh). simpl.
    by destruct (JS.truthy _) eqn:E; [|destruct hash; simpl in E].
  - intros [= <- <-]. split; [done | by left].
Qed.

End ClickProperties.

(** ** Termination on archives without a meta refresh *)

Section SheetTermination.

Variable env : Env.

(** What a style sheet at [path] adds to the chain of its fetcher. *)
Definition sheetUrl (path : string) : string :=
  (splitUrlByAnchor (inZipPathToUrl env (Some path))).1.

(** The files of the store that a chain of style sheets has not been
    through. *)
Definition unvisitedSheets (files : gmap string ZipEntry)
    (chain : list string) : list string :=
  filter (λ p, sheetUrl p ∉ chain) (elements (dom files)).

Lemma unvisitedSheets_bound files chain :
  length (unvisitedSheets files chain) ≤ size (dom files).
Proof. apply length_filter. Qed.

Lemma unvisitedSheets_visit files chain path :
  is_Some (files !! path) →
  sheetUrl path ∉ chain →
  length (unvisitedSheets files (chain ++ [sheetUrl path]))
  < length (unvisitedSheets files chain).
Proof.
  intros Hin Hnot. apply (filter_length_lt _ _ _ path).
  - by apply elem_of_elements, elem_of_dom.
  - done.
  - intros Hp. apply Hp, elem_of_app. right. apply list_elem_of_here.
  - intros p Hp Hc. apply Hp, elem_of_app. by left.
Qed.

(** The fetcher a style text is rewritten with. *)
Lemma ComplexUrlFetcher_new_chain refUrl chain st :
  ∃ this st',
    ComplexUrlFetcher_new refUrl (Some chain) st = Some (this, st')
    ∧ recurseChain this < length (arrays st')
    ∧ chainAt st' (recurseChain this)
      = chainAt st chain
        ++ (if JS.truthy refUrl then [(splitUrlByAnchor refUrl).1] else []).
Proof.
  unfold ComplexUrlFetcher_new, JSON_clone, readArray, newArray, push, modify,
    gets, bind, ret.
  destruct (JS.truthy refUrl); eexists _, _; (split; [reflexivity|]); simpl.
  - split; [rewrite length_alter, length_app; simpl; lia|].
    unfold chainAt. simpl.
    rewrite <- (Nat.add_0_r (length (arrays st))), alter_app_r. simpl.
    by rewrite Nat.add_0_r, lookup_new_array.
  - split; [rewrite length_app; simpl; lia|].
    unfold chainAt. simpl. by rewrite lookup_new_array, app_nil_r.
Qed.

Lemma rewriteCssParts_returns parts : ∀ this st,
  ∃ r st', rewriteCssParts env parts this st = Some (r, st')
           ∧ recurseChain r.2 = recurseChain this.
Proof.
  induction parts as [|[s|k u] parts IH]; intros this st.
  - by exists ("", this), st.
  - cbn [rewriteCssParts]. destruct (IH this st) as (r & st' & H & Hc).
    unfold bind. rewrite H. by eexists _, _.
  - cbn [rewriteCssParts].
    assert (Hkey : ∃ m st1,
      getUrlHash env this u
        (match k with ImportUrl => true | _ => false end) st = Some (m, st1)
      ∧ recurseChain m.2 = recurseChain this) by (by eexists _, _).
    destruct Hkey as (m & st1 & Hm & Hc1).
    destruct (IH m.2 st1) as (r & st' & H & Hc).
    unfold bind. rewrite Hm, H. eexists _, _. split; [done|].
    simpl. by rewrite Hc.
Qed.

Section Fetcher.

Variable st0 : Viewer.
Variable processCssFile_rec : RewriteFunc.
Variable chain : loc.

Hypothesis chain_valid : chain < length (arrays st0).
Hypothesis stable_rec : ∀ params, stable (processCssFile_rec params).

(** The recursive calls an import can make return. *)
Hypothesis sheets_return :
  ∀ st path e,
    Inv st0 st →
    inZipFiles st0 !! path = Some e →
    sheetUrl path ∉ chainAt st0 chain →
    is_Some (processCssFile_rec
               {| rp_data := file e; rp_charset := None;
                  rp_url := inZipPathToUrl env (Some path);
                  rp_recurseChain := chain |} st).

Lemma startFetch_returns this key st :
  recurseChain this = chain → Inv st0 st →
  ∃ r st', startFetch env processCssFile_rec this key st = Some (r, st')
           ∧ Inv st0 st' ∧ recurseChain r.2 = chain.
Proof.
  intros Hthis HI.
  assert (Hret : ∃ r st',
    startFetch env processCssFile_rec this key st = Some (r, st')
    ∧ recurseChain r.2 = chain).
  { unfold startFetch. unfold bind at 1. rewrite readArray_run.
    destruct (lookupKey _ _) as [e|]; [|by exists ("", this), st].
    unfold bind at 1, viewer_parseUrl, gets.
    destruct (info_inZip _ && _) eqn:Hcyc;
      [by exists ("about:blank", this), st|].
    rewrite Hthis in *.
    assert (Hfetch : is_Some (fetchFile env
      (info_inZipPath (parseUrl env (inZipFiles st) (entry_url e)
                         (last (chainAt st chain))))
      (if entry_import e then Some processCssFile_rec else None) chain st)).
    { unfold fetchFile. unfold bind at 1, gets.
      destruct (info_inZipPath _) as [path|] eqn:Hpath; [|done].
      destruct (inZipFiles st !! path) as [f|] eqn:Hf; [|done].
      destruct (entry_import e); [|done].
      assert (Hin : info_inZip (parseUrl env (inZipFiles st) (entry_url e)
                                  (last (chainAt st chain))) = true).
      { destruct (info_inZip _) eqn:Hz; [done|].
        apply parseUrl_not_inZip in Hz. congruence. }
      rewrite Hin in Hcyc. cbn [andb] in Hcyc.
      unfold JS.includes in Hcyc. apply bool_decide_eq_false in Hcyc.
      assert (Hchain : chainAt st chain = chainAt st0 chain).
      { unfold chainAt. by rewrite (ext_arrays _ _ (proj2 HI)). }
      rewrite (ext_files _ _ (proj2 HI)) in Hf.
      destruct (sheets_return st path f HI Hf) as [[b st1] Hb].
      { by rewrite <- Hchain. }
      unfold bind at 1. rewrite Hb.
      unfold createObjectURL, blobUrlToInZipPath_set, rewrittenBlobUrl_add,
        modify, bind, ret. done. }
    destruct Hfetch as [[fetched st1] Hfetch].
    unfold bind. rewrite Hfetch. by eexists _, _. }
  destruct Hret as (r & st' & H & Hc). exists r, st'.
  split; [done|]. split; [|done].
  by eapply (stable_startFetch env processCssFile_rec stable_rec).
Qed.

Lemma startFetchesOf_returns keys : ∀ this,
  recurseChain this = chain →
  good st0 (startFetchesOf env processCssFile_rec keys this).
Proof.
  induction keys as [|key keys IH]; intros this Hthis st HI.
  - by exists ([], this), st.
  - cbn [startFetchesOf].
    destruct (startFetch_returns this key st Hthis HI)
      as (r & st1 & H1 & HI1 & Hc).
    destruct (IH r.2 Hc st1 HI1) as (rs & st2 & H2 & HI2).
    unfold bind. rewrite H1, H2. by eexists _, _.
Qed.

End Fetcher.

(** A style text is rewritten when the style sheets it imports are. *)
Lemma processCssText_returns processCssFile_rec text refUrl chain st :
  issued st →
  (∀ params, stable (processCssFile_rec params)) →
  (∀ st' path e child,
     Inv st st' →
     inZipFiles st !! path = Some e →
     child < length (arrays st') →
     chainAt st' child
     = chainAt st chain
       ++ (if JS.truthy refUrl then [(splitUrlByAnchor refUrl).1] else []) →
     sheetUrl path ∉ chainAt st' child →
     is_Some (processCssFile_rec
                {| rp_data := file e; rp_charset := None;
                   rp_url := inZipPathToUrl env (Some path);
                   rp_recurseChain := child |} st')) →
  is_Some (processCssText env processCssFile_rec text refUrl chain st).
Proof.
  intros Hi Hstable Hrec. unfold processCssText.
  destruct (ComplexUrlFetcher_new_chain refUrl chain st)
    as (this & st1 & Hnew & Hvalid & Hchain).
  unfold bind at 1. rewrite Hnew.
  assert (HI1 : Inv st st1).
  { eapply stable_ComplexUrlFetcher_new; [by apply Inv_refl | exact Hnew]. }
  unfold rewriteCssText.
  destruct (rewriteCssParts_returns (cssParts env text) this st1)
    as (r & st2 & Hparts & Hc).
  unfold bind at 1. rewrite Hparts.
  assert (HI2 : Inv st1 st2).
  { eapply (stable_rewriteCssText env text this);
      [apply Inv_refl; by destruct HI1 | exact Hparts]. }
  destruct (startFetchesOf_returns st1 processCssFile_rec (recurseChain this)
              Hvalid Hstable) with (keys := map fst (urlHash r.2))
                                   (this := r.2) (st := st2)
    as (f & st3 & Hf & _); [|done|done|].
  - intros st' path e HI' He Hnot.
    apply Hrec; try done.
    + by eapply Inv_trans.
    + by rewrite <- (ext_files _ _ (proj2 HI1)).
    + pose proof (ext_heap_grows _ _ (proj2 HI')). lia.
    + unfold chainAt at 1. rewrite (ext_arrays _ _ (proj2 HI')) by done.
      exact Hchain.
    + unfold chainAt at 1. rewrite (ext_arrays _ _ (proj2 HI')) by done.
      exact Hnot.
  - unfold startFetches, bind. rewrite Hf. done.
Qed.

(** Style sheets terminate.  [processCssFile] returns as soon as the
    recursion bound exceeds the number of files the chain has not been
    through. *)
Lemma processCssFile_returns fuel : ∀ params st,
  JS.truthy (virtualBase env) = true →
  issued st →
  rp_recurseChain params < length (arrays st) →
  length (unvisitedSheets (inZipFiles st)
            (chainAt st (rp_recurseChain params)
             ++ (if JS.truthy (rp_url params)
                 then [(splitUrlByAnchor (rp_url params)).1] else [])))
  < fuel →
  is_Some (processCssFile env fuel params st).
Proof.
  induction fuel as [|n IH]; intros params st Hbase Hi Hc Hm; [lia|].
  cbn [processCssFile]. unfold processCssFile_body, rewriteCssFile.
  destruct (processCssText_returns (processCssFile env n) (blobText (rp_data params))
              (rp_url params) (rp_recurseChain params) st Hi)
    as [[text st'] H].
  - intros. apply stable_processCssFile.
  - intros st' path e child HI' He Hchild Hcontent Hnot.
    apply IH; simpl; [done | by destruct HI' | done |].
    assert (Ht : JS.truthy (inZipPathToUrl env (Some path)) = true).
    { unfold inZipPathToUrl. destruct (virtualBase env); [done|].
      done. }
    rewrite Ht, (ext_files _ _ (proj2 HI')).
    pose proof (unvisitedSheets_visit (inZipFiles st) (chainAt st' child) path
                  ltac:(eauto) Hnot) as Hlt.
    unfold sheetUrl in Hlt. rewrite Hcontent in *. lia.
  - unfold bind. rewrite H. done.
Qed.

End SheetTermination.

Ltac returns_step :=
  first
    [ assumption
    | apply good_ret | apply good_gets | apply good_createObjectURL
    | apply good_set_deApiScriptUrl
    | apply good_fmapM
    | apply good_bind; [| intros ?]
    | match goal with
      | |- good _ (if ?b then _ else _) => destruct b
      | |- good _ (match ?x with _ => _ end) => destruct x
      end ].

Ltac returning := repeat returns_step.

(** An element that is not a [meta] refresh. *)
Definition steady (nodeName : string) (attrs : Attrs) : bool :=
  negb (bool_decide (nodeName = "meta") && refreshes attrs).

(** A tree without a [meta] refresh outside SVG and MathML; [rootName] is
    the root name the traversal enters the node with. *)
Fixpoint refreshFree (rootName : string) (n : Node) : bool :=
  match n with
  | Text _ => true
  | Elem name attrs cs =>
      let nodeName := JS.toLowerCase name in
      let rootName :=
        if bool_decide (nodeName ∈ ["svg"; "math"]) then nodeName
        else rootName in
      (bool_decide (rootName ∈ ["svg"; "math"]) || steady nodeName attrs)
      && forallb (refreshFree rootName) cs
  end.

(** Every markup file of the store is such a tree. *)
Definition refreshFreeStore (files : gmap string ZipEntry) : Prop :=
  ∀ path e dt root,
    files !! path = Some e → blob_body (file e) = Markup dt root →
    refreshFree (JS.toLowerCase (match root with
                                 | Elem name _ _ => name
                                 | Text _ => ""
                                 end)) root = true.

Section PageTermination.

Variable env : Env.

Section SteadyElements.

Variable st0 : Viewer.
Variable fetchPage_rec : option string → string → loc → M (option string).
Variable processCssFile_rec : RewriteFunc.
Variable inZipPath : option string.
Variable chain : loc.

Hypothesis chain_valid : chain < length (arrays st0).

(** The recursive calls a frame can make return. *)
Hypothesis frames_return :
  ∀ st target url child,
    Inv st0 st →
    child < length (arrays st) →
    chainAt st child = chainAt st0 chain ++ [refUrl env inZipPath] →
    (target = None ∨ inZipPathToUrl env target ∉ chainAt st child) →
    ∃ r st', fetchPage_rec target url child st = Some (r, st') ∧ Inv st0 st'.

(** The style sheets return, whatever chain they are entered with. *)
Hypothesis stable_sheets : ∀ params, stable (processCssFile_rec params).
Hypothesis sheets_return :
  ∀ st params,
    Inv st0 st → rp_recurseChain params < length (arrays st) →
    is_Some (processCssFile_rec params st).

Lemma good_processCssText text refUrl c :
  good st0 (processCssText env processCssFile_rec text refUrl c).
Proof.
  apply good_of_stable; [by apply stable_processCssText|].
  intros st HI. apply processCssText_returns; [by destruct HI | done |].
  intros st' path e child HI' _ Hchild _ _.
  apply sheets_return; [by eapply Inv_trans | done].
Qed.

Lemma good_rewriteStyleAttr r :
  good st0 (rewriteStyleAttr env processCssFile_rec inZipPath chain r).
Proof.
  unfold rewriteStyleAttr. destruct (hasAttribute _ _); [|apply good_ret].
  apply good_bind; [apply good_processCssText | intros; apply good_ret].
Qed.

Lemma good_fetchSheet target :
  good st0 (chain <- newArray [refUrl env inZipPath] ;;
            fetchFile env target (Some processCssFile_rec) chain).
Proof.
  apply good_of_stable.
  { apply stable_bind; [apply stable_newArray | intros].
    apply stable_fetchFile. intros f [= <-]. apply stable_sheets. }
  intros st HI. unfold bind at 1, newArray.
  unfold fetchFile. unfold bind at 1, gets.
  destruct target as [path|]; [|done]. cbn [inZipFiles set_arrays].
  destruct (inZipFiles st !! path) as [f|]; [|done].
  match goal with
  | |- is_Some (bind (processCssFile_rec ?p) _ ?s) =>
      destruct (sheets_return s p) as [[b st1] Hb]
  end.
  - eapply (stable_newArray [refUrl env inZipPath]); [exact HI | reflexivity].
  - simpl. rewrite length_app. simpl. lia.
  - unfold bind at 1. rewrite Hb.
    unfold createObjectURL, blobUrlToInZipPath_set, rewrittenBlobUrl_add,
      modify, bind, ret. done.
Qed.

Lemma good_rewriteLinkElement_sheet attrs :
  good st0 (rewriteLinkElement env processCssFile_rec inZipPath attrs).
Proof.
  unfold rewriteLinkElement.
  destruct (hasAttribute attrs "href"); [|apply good_ret].
  destruct (relStylesheet attrs).
  - apply good_bind; [apply good_parseUrl | intros info].
    intros st HI.
    destruct (good_fetchSheet (info_inZipPath info) st HI)
      as (r & st' & H & HI').
    unfold bind in *. destruct (newArray _ st) as [[c st1]|]; [|done].
    rewrite H. by eexists _, _.
  - apply good_bind; [apply good_rewriteUrl | intros; apply good_ret].
Qed.

Ltac good_page :=
  repeat first
    [ apply good_rewriteScript | apply good_rewriteAttr
    | apply good_rewriteSrcsetAttr
    | apply good_rewriteFrame; [exact chain_valid | exact frames_return]
    | apply good_rewriteLink | apply good_rewritePlugin
    | apply good_processCssText
    | returns_step ].

Lemma good_rewriteByName_steady name attrs text :
  steady name attrs = true →
  good st0 (rewriteByName env fetchPage_rec processCssFile_rec inZipPath
              chain name attrs text).
Proof.
  unfold steady. intros Hmeta. unfold rewriteByName.
  destruct (decide (name = "meta")) as [->|].
  { apply good_fmapM, good_rewriteMeta.
    rewrite bool_decide_eq_true_2 in Hmeta by done. simpl in Hmeta.
    by apply negb_true_iff in Hmeta. }
  destruct (decide (name = "link")) as [->|].
  { apply good_fmapM, good_rewriteLinkElement_sheet. }
  good_page.
Qed.

Lemma good_rewriteNode_steady nodeName attrs text rootName :
  bool_decide (rootName ∈ ["svg"; "math"])
  || steady (JS.toLowerCase nodeName) attrs = true →
  good st0 (rewriteNode env fetchPage_rec processCssFile_rec inZipPath chain
              nodeName attrs text rootName).
Proof.
  intros H. unfold rewriteNode.
  destruct (decide (rootName = "svg")); [good_page|].
  destruct (decide (rootName = "math")); [good_page|].
  rewrite bool_decide_eq_false_2 in H
    by (by intros [->|[->|?%elem_of_nil]%elem_of_cons]%elem_of_cons).
  simpl in H.
  apply good_bind; [by apply good_rewriteByName_steady|].
  intros r. apply good_rewriteStyleAttr.
Qed.

Lemma good_rewriteRecursively_steady elem :
  ∀ rootName,
    refreshFree rootName elem = true →
    good st0 (rewriteRecursively env fetchPage_rec processCssFile_rec
                inZipPath chain elem rootName).
Proof.
  induction elem as [s | name attrs cs IH] using Node_children_ind;
    intros rootName Hf.
  - apply good_ret.
  - cbn [rewriteRecursively]. cbn [refreshFree] in Hf.
    apply andb_true_iff in Hf as [Hnode Hcs].
    apply good_bind; [by apply good_rewriteNode_steady | intros r].
    apply good_bind; [|intros; returning].
    destruct (r_cleared r); [returning|].
    revert Hcs.
    generalize (if bool_decide (JS.toLowerCase name ∈ ["svg"; "math"])
                then JS.toLowerCase name else rootName).
    intros root Hcs. induction IH as [|c cs Hc _ IHcs]; [returning|].
    cbn [forallb] in Hcs. apply andb_true_iff in Hcs as [Hc1 Hcs].
    apply good_bind; [by apply Hc | intros].
    apply good_bind; [by apply IHcs | intros; returning].
Qed.

Lemma good_parseDocument_steady doc :
  refreshFree (JS.toLowerCase (match documentElement doc with
                               | Elem name _ _ => name
                               | Text _ => ""
                               end)) (documentElement doc) = true →
  good st0 (parseDocument env fetchPage_rec processCssFile_rec inZipPath
              chain doc).
Proof.
  intros Hf. unfold parseDocument.
  apply good_bind; [by apply good_rewriteRecursively_steady | intros root].
  destruct (JS.includes _ _); [|returning].
  apply good_bind; [|intros; returning].
  destruct (hasCsp env); [apply good_insertDeApiScript | returning].
Qed.

End SteadyElements.

(** Pages and style sheets terminate.  In a store without a meta refresh,
    [fetchPage] returns as soon as the recursion bound exceeds the number
    of files not yet in the chain by the number of files: the pages use up
    the first, the style sheets of a page at most the second. *)
Lemma fetchPage_returns_steady fuel : ∀ inZipPath url chain st,
  JS.truthy (virtualBase env) = true →
  issued st → refreshFreeStore (inZipFiles st) →
  chain < length (arrays st) →
  (inZipPath = None ∨ inZipPathToUrl env inZipPath ∉ chainAt st chain) →
  length (unvisited env (inZipFiles st) (chainAt st chain))
  + size (dom (inZipFiles st)) < fuel →
  ∃ r st', fetchPage env fuel inZipPath url chain st = Some (r, st').
Proof.
  induction fuel as [|n IH]; intros ip url c st Hbase Hi Hstore Hc Hip Hm;
    [lia|].
  cbn [fetchPage]. unfold fetchPage_body.
  assert (Hfetch : ∃ r st',
    fetchFile env ip
      (Some (pageRewriteFunc env (fetchPage env n) (processCssFile env n) ip))
      c st = Some (r, st')).
  { unfold fetchFile. unfold bind at 1, gets.
    destruct ip as [path|]; [|by eauto].
    destruct (inZipFiles st !! path) as [e|] eqn:E; [|by eauto].
    destruct Hip as [|Hip]; [done|].
    pose proof (unvisited_visit env (inZipFiles st) (chainAt st c) path
                  ltac:(eauto) Hip) as Hlt.
    assert (Hgood : good st
      (pageRewriteFunc env (fetchPage env n) (processCssFile env n)
         (Some path)
         {| rp_data := file e; rp_charset := None;
            rp_url := inZipPathToUrl env (Some path);
            rp_recurseChain := c |})).
    { unfold pageRewriteFunc.
      destruct (JS.includes _ _); [|apply good_ret].
      destruct (readFileAsDocument _) as [doc|] eqn:Hread; [|apply good_ret].
      apply good_bind; [|intros; apply good_ret].
      apply good_parseDocument_steady; simpl.
      - done.
      - intros st1 target url1 child HI1 Hchild Hcontent Htarget.
        destruct (IH target url1 child st1) as (r & st' & H); try done.
        + by destruct HI1.
        + by rewrite (ext_files _ _ (proj2 HI1)).
        + rewrite (ext_files _ _ (proj2 HI1)), Hcontent.
          unfold refUrl. lia.
        + exists r, st'. split; [done|].
          eapply stable_fetchPage; [exact HI1 | exact H].
      - intros. apply stable_processCssFile.
      - intros st1 params HI1 Hvalid.
        apply processCssFile_returns; [done | by destruct HI1 | done |].
        rewrite (ext_files _ _ (proj2 HI1)).
        pose proof (unvisitedSheets_bound env (inZipFiles st)
          (chainAt st1 (rp_recurseChain params)
           ++ (if JS.truthy (rp_url params)
               then [(splitUrlByAnchor (rp_url params)).1] else []))).
        lia.
      - unfold readFileAsDocument in Hread. simpl in Hread.
        destruct (blob_body (file e)) as [|dt root] eqn:Hb; [done|].
        injection Hread as <-. simpl. by eapply Hstore. }
    destruct (Hgood st (Inv_refl _ Hi)) as (b & st1 & H1 & HI1).
    unfold bind at 1. rewrite H1.
    unfold createObjectURL, blobUrlToInZipPath_set, rewrittenBlobUrl_add,
      modify, bind, ret. by eauto. }
  destruct Hfetch as (r & st' & H). unfold bind. rewrite H.
  unfold ret. by eauto.
Qed.

End PageTermination.

(** The viewer finishes on every archive without a meta refresh. *)
Lemma steady_archive_returns env dir indexFile hash entries :
  JS.truthy (virtualBase env) = true →
  Forall (λ pz, ∀ dt root,
            blob_body (zip_file pz.2) = Markup dt root →
            refreshFree (JS.toLowerCase (match root with
                                         | Elem name _ _ => name
                                         | Text _ => ""
                                         end)) root = true) entries →
  ∃ r st,
    init env (2 * length entries + 1) dir indexFile hash entries emptyViewer
    = Some (r, st).
Proof.
  intros Hbase Hentries. unfold init.
  destruct (loadEntries_issued dir entries emptyViewer issued_empty)
    as (st1 & H1 & Hi1).
  unfold bind at 1. rewrite H1.
  unfold bind at 1, newArray.
  destruct (loadEntries_size _ _ _ _ H1) as [Hsize Harr].
  apply fetchPage_returns_steady.
  - done.
  - by destruct Hi1.
  - intros path e dt root He Hb. simpl in He.
    destruct (loadEntries_files _ _ _ _ _ _ H1 He) as [Hold | (z & Hin & Hz)].
    { unfold emptyViewer in Hold. simpl in Hold.
      by rewrite lookup_empty in Hold. }
    rewrite Forall_forall in Hentries.
    apply (Hentries _ Hin dt). simpl. by rewrite <- Hz.
  - simpl. rewrite length_app. simpl. lia.
  - right. unfold chainAt. simpl. rewrite Harr. simpl. apply not_elem_of_nil.
  - simpl. unfold unvisited.
    pose proof (length_filter
                  (λ p, inZipPathToUrl env (Some p)
                        ∉ chainAt (set_arrays (λ h, h ++ [[]]) st1)
                            (length (arrays st1)))
                  (elements (dom (inZipFiles st1)))) as Hf.
    change (length (elements (dom (inZipFiles st1))))
      with (size (dom (inZipFiles st1))) in Hf.
    unfold emptyViewer in Hsize. simpl in Hsize.
    rewrite dom_empty_L, size_empty in Hsize. lia.
Qed.

(** X21.  Rewriting terminates without a meta refresh.  When the virtual
    base URL is not empty and no markup file of the archive holds a [meta]
    refresh outside SVG and MathML, the viewer finishes on the archive,
    however its pages frame each other and its style sheets import each
    other, within a recursion depth of twice the number of entries plus
    one. *)
Theorem rewriting_terminates env dir indexFile hash entries :
  JS.truthy (virtualBase env) = true →
  Forall (λ pz, ∀ dt root,
            blob_body (zip_file pz.2) = Markup dt root →
            refreshFree (JS.toLowerCase (match root with
                                         | Elem name _ _ => name
                                         | Text _ => ""
                                         end)) root = true) entries →
  ∃ r st,
    init env (2 * length entries + 1) dir indexFile hash entries emptyViewer
    = Some (r, st).
Proof. apply steady_archive_returns. Qed.

(** ** Frames that point back *)

(** C5, amended.  Frames do not recurse into a cycle.  The root name of
    an element is the name of the nearest [svg] or [math] element from the
    element up, and the name of the document element when there is none.
    For a [frame] or [iframe] whose root name is neither [svg] nor [math]
    and whose [src] resolves to a file of the archive whose virtual URL is
    in the recursion chain extended with the document's own URL, [src]
    becomes [about:blank]; this is so whatever [fetchPage] would do, even
    if it never returned, and the state is left as it was but for the
    extended chain and for what rewriting the element's [style] attribute
    does: no fetch of the page is started.  An element whose root name is
    [svg] or [math] is not handled as a frame: only its [href] and
    [xlink:href] are rewritten, its [src] is left as written, nothing is
    fetched and the state is left as it was.  Both hold of the element at
    any place of a page that is rewritten, with the root name of that
    place.  Consequently the viewer finishes on every archive whose pages
    recurse through frames only, within a recursion depth of the number of
    entries plus one, and, when the virtual base URL is not empty, on
    every archive without a meta refresh, whatever style sheets its pages
    use, within a recursion depth of twice the number of entries plus one.
    On two pages that frame each other it shows [A.html] rewritten (object
    URL 3), whose frame holds [B.html] rewritten (object URL 2), whose
    frame is [about:blank]. *)
Theorem frame_cycle_inert :
  (∀ env fetchPage_rec processCssFile_rec inZipPath chain nodeName attrs text
     rootName src st,
     rootName ≠ "svg" → rootName ≠ "math" →
     JS.toLowerCase nodeName = "frame" ∨ JS.toLowerCase nodeName = "iframe" →
     lookupAttribute attrs "src" = Some src →
     info_inZip (parseUrl env (inZipFiles st) src
                   (Some (refUrl env inZipPath))) = true →
     inZipPathToUrl env
       (info_inZipPath (parseUrl env (inZipFiles st) src
                          (Some (refUrl env inZipPath))))
       ∈ chainAt st chain ++ [refUrl env inZipPath] →
     rewriteNode env fetchPage_rec processCssFile_rec inZipPath chain nodeName
       attrs text rootName st
     = rewriteStyleAttr env processCssFile_rec inZipPath chain
         (kept (setAttribute attrs "src" "about:blank"))
         (set_arrays
            (λ h, h ++ [chainAt st chain ++ [refUrl env inZipPath]]) st))
  ∧ (∀ env fetchPage_rec processCssFile_rec inZipPath chain nodeName attrs
       text rootName st,
       rootName = "svg" ∨ rootName = "math" →
       ∃ attrs',
         rewriteNode env fetchPage_rec processCssFile_rec inZipPath chain
           nodeName attrs text rootName st = Some (kept attrs', st)
         ∧ ∀ name, name ≠ "href" → name ≠ "xlink:href" →
             lookupAttribute attrs' name = lookupAttribute attrs name)
  ∧ (∀ env fuel inZipPath chain elem path rootName st elem' st' name attrs'
       cs',
       issued st → chain < length (arrays st) →
       rewriteRecursively env (fetchPage env fuel) (processCssFile env fuel)
         inZipPath chain elem rootName st = Some (elem', st') →
       nodeAt elem' path = Some (Elem name attrs' cs') →
       ∃ attrs cs,
         nodeAt elem path = Some (Elem name attrs cs)
         ∧ (∀ src,
              rootNameAt rootName elem path ≠ "svg" →
              rootNameAt rootName elem path ≠ "math" →
              JS.toLowerCase name = "frame"
              ∨ JS.toLowerCase name = "iframe" →
              lookupAttribute attrs "src" = Some src →
              info_inZip (parseUrl env (inZipFiles st) src
                            (Some (refUrl env inZipPath))) = true →
              inZipPathToUrl env
                (info_inZipPath (parseUrl env (inZipFiles st) src
                                   (Some (refUrl env inZipPath))))
                ∈ chainAt st chain ++ [refUrl env inZipPath] →
              lookupAttribute attrs' "src" = Some "about:blank")
         ∧ (rootNameAt rootName elem path = "svg"
            ∨ rootNameAt rootName elem path = "math" →
            lookupAttribute attrs' "src" = lookupAttribute attrs "src"))
  ∧ (∀ env dir indexFile hash entries,
       Forall (λ pz, ∀ dt root,
                 blob_body (zip_file pz.2) = Markup dt root →
                 framesOnly (JS.toLowerCase (match root with
                                             | Elem name _ _ => name
                                             | Text _ => ""
                                             end)) root = true) entries →
       ∃ r st,
         init env (S (length entries)) dir indexFile hash entries emptyViewer
         = Some (r, st))
  ∧ (∀ env dir indexFile hash entries,
       JS.truthy (virtualBase env) = true →
       Forall (λ pz, ∀ dt root,
                 blob_body (zip_file pz.2) = Markup dt root →
                 refreshFree (JS.toLowerCase (match root with
                                              | Elem name _ _ => name
                                              | Text _ => ""
                                              end)) root = true) entries →
       ∃ r st,
         init env (2 * length entries + 1) dir indexFile hash entries
           emptyViewer
         = Some (r, st))
  ∧ (let run := init Example.env 3 None "A.html" "" Example.framesAB in
     Example.result run emptyViewer = Some (Some "blob:3")
     ∧ Example.markupAt (Example.after run emptyViewer) 3
       = Some (Elem "html" []
                 [Elem "head" []
                    [Elem "link" [("rel", "stylesheet");
                                  ("href", resetCssUrl Example.env)] []];
                  Elem "body" [] [Elem "iframe" [("src", "blob:2")] []]])
     ∧ Example.markupAt (Example.after run emptyViewer) 2
       = Some (Elem "html" []
                 [Elem "head" []
                    [Elem "link" [("rel", "stylesheet");
                                  ("href", resetCssUrl Example.env)] []];
                  Elem "body" [] [Elem "iframe" [("src", "about:blank")] []]])).
Proof.
  split; [intros; by eapply rewriteNode_frame_cycle|].
  split; [intros; by apply rewriteNode_foreign|].
  split; [intros; by eapply page_frame|].
  split; [apply frames_terminate|].
  split; [apply steady_archive_returns|].
  vm_compute. done.
Qed.

Lemma frame_cycle_inert_witness :
  (let st := Example.after (newArray [inZipPathToUrl Example.env (Some "A.html")])
               (Example.loaded Example.framesAB) in
   rewriteNode Example.env (λ _ _ _, unfinished) (λ _, unfinished)
     (Some "B.html") 0 "iframe" [("src", "A.html")] "" "html" st
   = rewriteStyleAttr Example.env (λ _, unfinished) (Some "B.html") 0
       (kept (setAttribute [("src", "A.html")] "src" "about:blank"))
       (set_arrays
          (λ h, h ++ [chainAt st 0 ++ [refUrl Example.env (Some "B.html")]])
          st)).
Proof.
  apply (proj1 frame_cycle_inert Example.env (λ _ _ _, unfinished)
           (λ _, unfinished) (Some "B.html") 0 "iframe" [("src", "A.html")]
           "" "html" "A.html").
  - done.
  - done.
  - by right.
  - reflexivity.
  - vm_compute. reflexivity.
  - vm_compute. apply list_elem_of_here.
Defined.

(** C5 as stated does not hold of every frame.  An [iframe] under an SVG
    root, here in a [foreignObject], whose [src] resolves to the page
    being rewritten, so that the target is in the extended chain, keeps
    its [src]: the page served has the frame as it was written. *)
Lemma frame_cycle_counterexample :
  (let page :=
     Example.page
       [Elem "svg" []
          [Elem "foreignObject" [] [Elem "iframe" [("src", "A.html")] []]]] in
   let archive := [("A.html", Example.html page)] in
   let st := Example.loaded archive in
   let self := Some "A.html" in
   let info := parseUrl Example.env (inZipFiles st) "A.html"
                 (Some (refUrl Example.env self)) in
   let run := init Example.env 3 None "A.html" "" archive in
   info_inZip info = true
   ∧ JS.includes ([] ++ [refUrl Example.env self])
       (inZipPathToUrl Example.env (info_inZipPath info)) = true
   ∧ Example.result run emptyViewer = Some (Some "blob:1")
   ∧ Example.markupAt (Example.after run emptyViewer) 1
     = Some (Elem "html" []
               [Elem "head" []
                  [Elem "link" [("rel", "stylesheet");
                                ("href", resetCssUrl Example.env)] []];
                Elem "body" []
                  [Elem "svg" []
                     [Elem "foreignObject" []
                        [Elem "iframe" [("src", "A.html")] []]]]])).
Proof. vm_compute. done. Qed.

(** ** Worked examples *)

(** A browser in which the extension's content security policy applies. *)
Definition cspEnv : Env :=
  mkEnv Example.base
    "chrome-extension://abcdefgh/core/reset.css"
    "data-scrapbook-meta-refresh-20200101000000000"
    true (Some "(function(){})()") Example.URL_new (λ _, None)
    Example.parseHeaderRefresh Example.cssParts
    (λ s, [Ref BackgroundUrl s]) Example.getUuid (λ s _, s).

(** The two pages that frame each other, loaded, with an empty chain. *)
Definition framesLoaded : Viewer :=
  Example.after (newArray []) (Example.loaded Example.framesAB).

Lemma loaded_consistent entries : consistent (Example.loaded entries).
Proof.
  unfold Example.loaded.
  by destruct (loadEntries_consistent None entries emptyViewer consistent_empty)
    as (st & -> & Hc).
Qed.

Lemma framesLoaded_consistent : consistent framesLoaded.
Proof.
  eapply updates_consistent; [|apply (loaded_consistent Example.framesAB)].
  by eapply (traces_newArray []).
Qed.

Lemma parseUrl_of_virtual_url_witness :
  (let files := inZipFiles framesLoaded in
   let u := {| url_main := Example.base +:+ "B.html";
               url_query := Some "v=2"; url_fragment := Some "top" |} in
   let f := {| file := zip_file (Example.html Example.pageB);
               file_url := "blob:1" |} in
   parseUrl Example.env files "B.html?v=2#top"
     (Some (inZipPathToUrl Example.env (Some "A.html")))
   = {| info_url := file_url f +:+ Url.hash u;
        info_inZip := true;
        info_virtualUrl :=
          Some (inZipPathToUrl Example.env (Some "B.html") +:+ Url.hash u);
        info_inZipPath := Some "B.html";
        info_mime := Some (blob_type (file f));
        info_search := Some (Url.search u);
        info_hash := Some (Url.hash u) |}).
Proof.
  apply (parseUrl_of_virtual_url Example.env); vm_compute; reflexivity.
Defined.

Lemma fetchPage_serves_as_is_witness :
  (let st := Example.loaded Example.importsAB in
   let f := {| file := zip_file (Example.other "text/css" "@import url(b.css);");
               file_url := "blob:1" |} in
   fetchPage Example.env 1 (Some "a.css") "blob:1#x" 0 st
   = Some (Some (objectUrl (length (objectUrls st))
                 +:+ (if JS.truthy "blob:1#x" then (splitUrl "blob:1#x").2
                      else "")),
           recorded (file f) "a.css" st)).
Proof.
  apply (fetchPage_serves_as_is Example.env 0 "a.css");
    [vm_compute; reflexivity | left; vm_compute; reflexivity].
Defined.

Lemma init_reports_missing_index_witness :
  (let entries := [("sub/index.html", Example.html (Example.page []))] in
   ∃ st,
     loadEntries (Some "sub") entries emptyViewer = Some (tt, st)
     ∧ init Example.env 1 (Some "sub") "" "" entries emptyViewer
       = Some (None, set_arrays (λ h, h ++ [[]]) st)
     ∧ rewrittenBlobUrl st = ∅).
Proof.
  apply (init_reports_missing_index Example.env 0 (Some "sub") "" "").
  intros z _. right. vm_compute. reflexivity.
Defined.

Lemma archive_loaded_witness :
  (let st := Example.loaded Example.framesAB in
   consistent st
   ∧ rewrittenBlobUrl st = ∅
   ∧ (∀ p, is_Some (inZipFiles st !! p)
           ↔ ∃ z, (p, z) ∈ Example.framesAB ∧ zip_dir z = false
                  ∧ inDirectory None p = true)
   ∧ (∀ p e, inZipFiles st !! p = Some e →
        blobUrlToInZipPath st !! file_url e = Some p
        ∧ ∃ z, (p, z) ∈ Example.framesAB ∧ zip_dir z = false
               ∧ file e = zip_file z)).
Proof.
  apply (archive_loaded None Example.framesAB
           (Example.loaded Example.framesAB)).
  vm_compute. reflexivity.
Defined.

Lemma fetchPage_updates_witness :
  (let st := framesLoaded in
   let st' := Example.after (fetchPage Example.env 3 (Some "A.html") "" 0)
                framesLoaded in
   rtc update st st'
   ∧ issued st'
   ∧ inZipFiles st' = inZipFiles st
   ∧ blobUrlToInZipPath st ⊆ blobUrlToInZipPath st'
   ∧ rewrittenBlobUrl st ⊆ rewrittenBlobUrl st'
   ∧ objectUrls st `prefix_of` objectUrls st'
   ∧ ∀ u p, blobUrlToInZipPath st' !! u = Some p →
            blobUrlToInZipPath st !! u = None →
            is_Some (inZipFiles st !! p)
            ∧ u ∈ rewrittenBlobUrl st'
            ∧ ∃ n, length (objectUrls st) ≤ n < length (objectUrls st')
                   ∧ u = objectUrl n).
Proof.
  apply (fetchPage_updates Example.env 3 (Some "A.html") "" 0 framesLoaded
           (Some "blob:3")).
  - apply cons_issued, framesLoaded_consistent.
  - vm_compute. reflexivity.
Defined.

Lemma deApiScript_made_once_witness :
  (let st := Example.after (fetchPage cspEnv 3 (Some "A.html") "" 0)
               framesLoaded in
   deApiScriptUrl
     (Example.after (fetchPage cspEnv 3 (Some "B.html") "" 0) st)
   = Some "blob:2").
Proof.
  apply (deApiScript_made_once cspEnv 3 (Some "B.html") "" 0
           (Example.after (fetchPage cspEnv 3 (Some "A.html") "" 0)
              framesLoaded)
           (Example.result (fetchPage cspEnv 3 (Some "B.html") "" 0)
              (Example.after (fetchPage cspEnv 3 (Some "A.html") "" 0)
                 framesLoaded) ≫= id));
    vm_compute; reflexivity.
Defined.

Lemma rewritten_page_head_witness :
  (let doc := {| contentType := "text/html"; doctype := "<!DOCTYPE html>";
                 documentElement := Example.page [Elem "p" [] [Text "hi"]] |} in
   let m := parseDocument cspEnv (fetchPage cspEnv 1) (processCssFile cspEnv 1)
              (Some "A.html") 0 doc in
   ∃ root name attrs cs,
     {| blob_type := "text/html";
        blob_body :=
          Markup "<!DOCTYPE html>"
            (Elem "html" []
               [Elem "head" []
                  [resetLink cspEnv; Elem "script" [("src", "blob:2")] []];
                Elem "body" [] [Elem "p" [] [Text "hi"]]]) |}
     = {| blob_type := contentType doc;
          blob_body := Markup (doctype doc) root |}
     ∧ querySelectorHead root
       = Some (Elem name attrs (resetLink cspEnv :: cs))
     ∧ (hasCsp cspEnv = true →
        ∃ u cs', cs = Elem "script" [("src", u)] [] :: cs'
                 ∧ deApiScriptUrl (Example.after m framesLoaded) = Some u)).
Proof.
  apply (rewritten_page_head cspEnv (fetchPage cspEnv 1)
           (processCssFile cspEnv 1) (Some "A.html") 0
           {| contentType := "text/html"; doctype := "<!DOCTYPE html>";
              documentElement := Example.page [Elem "p" [] [Text "hi"]] |}
           framesLoaded);
    vm_compute; reflexivity.
Defined.

Lemma headless_page_served_as_stored_witness :
  (let root := Elem "html" [] [Elem "body" [] [Elem "a" [("href", "x.xhtml")] []]] in
   let blob := {| blob_type := "application/xhtml+xml";
                  blob_body := Markup "" root |} in
   let st := Example.loaded [("x.xhtml", {| zip_dir := false;
                                            zip_file := blob |})] in
   ∃ st1,
     Example.after (fetchPage Example.env 1 (Some "x.xhtml") "" 0) st
     = recorded blob "x.xhtml" st1
     ∧ Some "blob:1"
       = Some (objectUrl (length (objectUrls st1))
               +:+ (if JS.truthy "" then (splitUrl "").2 else ""))).
Proof.
  apply (headless_page_served_as_stored Example.env 0 "x.xhtml"
           {| file :=
                {| blob_type := "application/xhtml+xml";
                   blob_body :=
                     Markup ""
                       (Elem "html" []
                          [Elem "body" []
                             [Elem "a" [("href", "x.xhtml")] []]]) |};
              file_url := "blob:0" |}
           ""
           (Elem "html" [] [Elem "body" [] [Elem "a" [("href", "x.xhtml")] []]])
           "" 0
           (Example.loaded
              [("x.xhtml",
                {| zip_dir := false;
                   zip_file :=
                     {| blob_type := "application/xhtml+xml";
                        blob_body :=
                          Markup ""
                            (Elem "html" []
                               [Elem "body" []
                                  [Elem "a" [("href", "x.xhtml")] []]]) |} |})])
           (Some "blob:1"));
    vm_compute; reflexivity.
Defined.

Lemma untouched_subtree_witness :
  (let elem :=
     Elem "div" [("class", "x")]
       [Elem "svg" []
          [Elem "image" [("src", "B.html"); ("style", "fill:url(B.html)")] []];
        Elem "p" [("id", "y")] [Text "t"]] in
   rewriteRecursively Example.env (λ _ _ _, unfinished) (λ _, unfinished)
     (Some "A.html") 0 elem "html" framesLoaded
   = Some (elem, framesLoaded)).
Proof.
  apply (untouched_subtree Example.env (λ _ _ _, unfinished) (λ _, unfinished)
           (Some "A.html") 0).
  vm_compute. reflexivity.
Defined.

Lemma other_attributes_kept_witness :
  (let attrs := [("id", "logo"); ("src", "B.html"); ("alt", "B")] in
   let r := kept [("id", "logo"); ("src", "blob:1"); ("alt", "B")] in
   (∀ name, name ∉ rewrittenAttributes →
      lookupAttribute (r_attrs r) name = lookupAttribute attrs name)
   ∧ (∀ name, hasAttribute attrs name = true →
        hasAttribute (r_attrs r) name = true)).
Proof.
  apply (other_attributes_kept Example.env (λ _ _ _, unfinished)
           (λ _, unfinished) (Some "A.html") 0 "IMG"
           [("id", "logo"); ("src", "B.html"); ("alt", "B")] "" "html"
           framesLoaded _ framesLoaded).
  vm_compute. reflexivity.
Defined.

Lemma script_disabled_without_csp_witness :
  (let attrs := [("src", "B.html"); ("type", "module")] in
   let r := kept [("src", "blob:"); ("type", "module")] in
   (∃ r0, rewriteScript Example.env (Some "A.html") attrs "" framesLoaded
          = Some (r0, framesLoaded)
          ∧ rewriteStyleAttr Example.env (λ _, unfinished) (Some "A.html") 0
              r0 framesLoaded
            = Some (r, framesLoaded))
   ∧ r_cleared r = false ∧ r_text r = None
   ∧ (hasAttribute attrs "style" = false → framesLoaded = framesLoaded)
   ∧ (hasAttribute attrs "src" = false →
      rewriteStyleAttr Example.env (λ _, unfinished) (Some "A.html") 0
        (kept attrs) framesLoaded
      = Some (r, framesLoaded))
   ∧ (∀ v, lookupAttribute (r_attrs r) "src" = Some v →
           JS.startsWith v "blob:" = true → v = "blob:")
   ∧ (consistent framesLoaded →
      info_inZip (parseUrl Example.env (inZipFiles framesLoaded)
                    (getAttribute attrs "src")
                    (Some (refUrl Example.env (Some "A.html")))) = true →
      hasAttribute attrs "src" = true →
      lookupAttribute (r_attrs r) "src" = Some "blob:")).
Proof.
  apply (script_disabled_without_csp Example.env (λ _ _ _, unfinished)
           (λ _, unfinished) (Some "A.html") 0 "SCRIPT"
           [("src", "B.html"); ("type", "module")] "" "html" framesLoaded
           (kept [("src", "blob:"); ("type", "module")]) framesLoaded);
    try done; vm_compute; reflexivity.
Defined.

Lemma style_text_references_witness :
  (let text := "background:url(B.html?v=2#x) no-repeat" in
   let refUrl := inZipPathToUrl Example.env (Some "A.html") in
   ∃ st',
     processCssText Example.env (λ _, unfinished) text refUrl 0 framesLoaded
     = Some (fold_right
               (λ p acc, match p with
                         | Lit s => s +:+ acc
                         | Ref _ u =>
                             resolveReference Example.env
                               (inZipFiles framesLoaded)
                               (chainAt framesLoaded 0
                                ++ (if JS.truthy refUrl
                                    then [(splitUrlByAnchor refUrl).1]
                                    else [])) u
                             +:+ acc
                         end) "" (cssParts Example.env text), st')
     ∧ inZipFiles st' = inZipFiles framesLoaded
     ∧ blobUrlToInZipPath st' = blobUrlToInZipPath framesLoaded
     ∧ rewrittenBlobUrl st' = rewrittenBlobUrl framesLoaded
     ∧ objectUrls st' = objectUrls framesLoaded).
Proof.
  apply (style_text_references Example.env (λ _, unfinished)
           "background:url(B.html?v=2#x) no-repeat"
           (inZipPathToUrl Example.env (Some "A.html")) 0 framesLoaded).
  - vm_compute. repeat constructor; discriminate.
  - replace (map fst (entriesOf Example.env (uuids framesLoaded)
                        (cssParts Example.env
                           "background:url(B.html?v=2#x) no-repeat")))
      with ["00000000-0000-4000-8000-000000000000"]
      by (vm_compute; reflexivity).
    apply NoDup_singleton.
  - replace (map fst (entriesOf Example.env (uuids framesLoaded)
                        (cssParts Example.env
                           "background:url(B.html?v=2#x) no-repeat")))
      with ["00000000-0000-4000-8000-000000000000"]
      by (vm_compute; reflexivity).
    constructor; [vm_compute; reflexivity | constructor].
Defined.

Lemma click_on_archive_link_witness :
  (let info := parseUrl Example.env (inZipFiles framesLoaded) "B.html#x"
                 (Some (inZipPathToUrl Example.env (Some "A.html"))) in
   frameOnClick Example.env (λ _, true) 1 true (Some "A.html")
     {| button := 0; anchor := Some (info_url info) |} framesLoaded
   = Some (if bool_decide (Some "B.html" ≠ Some "A.html")
           then OpenInViewer "B.html" "#x"
           else ScrollInPage (info_url info) "#x", framesLoaded)).
Proof.
  apply (click_on_archive_link Example.env (λ _, true) 1 (Some "A.html")
           "B.html#x" (Some (inZipPathToUrl Example.env (Some "A.html")))
           framesLoaded "B.html" "#x");
    [apply framesLoaded_consistent | vm_compute; reflexivity
    | vm_compute; reflexivity | discriminate | vm_compute; reflexivity].
Defined.

Lemma click_on_served_page_witness :
  (let st' := Example.after (fetchPage Example.env 3 (Some "A.html") "#top" 0)
                framesLoaded in
   frameOnClick Example.env (λ _, true) 1 false None
     {| button := 0; anchor := Some "blob:3#top" |} st'
   = Some (Unhandled, st')).
Proof.
  apply (click_on_served_page Example.env (λ _, true) 3 (Some "A.html") "#top"
           0 framesLoaded "blob:3#top").
  - apply (cons_issued _ framesLoaded_consistent).
  - vm_compute. reflexivity.
Defined.

Lemma click_on_stored_locator_witness :
  (let f := {| file := zip_file (Example.html Example.pageB);
               file_url := "blob:1" |} in
   let click := {| button := 0; anchor := Some (file_url f +:+ "#x") |} in
   frameOnClick Example.env (λ _, true) 3 false None click framesLoaded
   = (if JS.includes ["text/html"; "application/xhtml+xml"]
           (blob_type (file f))
      then
        (chain <- newArray [] ;;
         fetchedUrl <- fetchPage Example.env 3 (Some "B.html")
                         (file_url f +:+ "#x") chain ;;
         ret (LoadInFrame (JS.opt_or fetchedUrl "about:blank"))) framesLoaded
      else Some (Cancelled, framesLoaded))
   ∧ ∀ nav st',
       frameOnClick Example.env (λ _, true) 3 false None click framesLoaded
       = Some (nav, st') →
       consistent st'
       ∧ (nav = Cancelled
          ∨ ∃ n, nav = LoadInFrame (objectUrl n +:+ "#x")
                 ∧ blobUrlToInZipPath st' !! objectUrl n = Some "B.html"
                 ∧ objectUrl n ∈ rewrittenBlobUrl st')).
Proof.
  apply (click_on_stored_locator Example.env (λ _, true) 3 None "B.html"
           {| file := zip_file (Example.html Example.pageB);
              file_url := "blob:1" |} "#x" framesLoaded);
    [apply framesLoaded_consistent | vm_compute; reflexivity | discriminate
    | right; by eexists].
Defined.

Lemma rewriting_terminates_witness :
  ∃ r st,
    init Example.env (2 * length Example.importsAB + 1) None "index.html" ""
      Example.importsAB emptyViewer
    = Some (r, st).
Proof.
  apply (rewriting_terminates Example.env None "index.html" ""
           Example.importsAB); [reflexivity|].
  repeat constructor; intros dt root H; vm_compute in H;
    try discriminate H; injection H as <- <-; vm_compute; reflexivity.
Defined.
